(** * p3d: room inference and inner metrics of the floor-plan editor

    A shallow embedding of
      - [buildRoomsFromWalls] and [findRoomAtPoint]
                                         (client/src/utils/rooms.ts),
      - [offsetPolygon] and the area, distance and hit-test helpers
                                         (client/src/utils/geometry.ts),
      - the inner-metrics functions      (client/src/utils/planMetrics.ts),
      - [getRoomKey]                     (client/src/App.tsx),
      - [normalizeImportData] and the functions it calls
                                         (client/src/utils/serialization.ts),
    the properties that the specification states about them, and further
    properties of the code.

    Conventions of the embedding.
      - A JavaScript [number] that carries a coordinate, a length, a
        thickness or an area is an exact rational ([Q]) and the comparisons
        are the exact ones; there is no rounding, no infinity and no NaN.
        Node, wall and room ids are integers ([Z]).  The code computes in
        doubles.  What is stated below is about the control flow and the
        comparison of the values as they are computed, or keeps a margin
        far above the rounding ([minOffset], [canvasSized]); properties that
        exact arithmetic has and rounding destroys are not stated.  The
        constants [0.0001] and [1e-6] are the rationals that these doubles
        are.
      - [Math.atan2] is only used to order the neighbours of a node; it is
        embedded through the exact comparison of two angles
        ([atan2_compare]).  [Array.prototype.sort] is a stable insertion
        sort.
      - [Math.hypot] is [hypot]: exact whenever the sum of squares is the
        square of a rational, a truncated binary expansion otherwise.
      - A JavaScript [Map] is an association list in insertion order
        ([JsMap]); [Map.prototype.forEach] visits it from left to right.
        A [Set] of strings [`${u}->${v}`] is a list of pairs.
      - [null] and [undefined] are [None].
      - Imported data of type [unknown] is a [JsValue].  [Number(value)] is
        written out for [undefined], [null], booleans and numbers; what it
        makes of a string, an array or an object, and [String.prototype.trim],
        are parameters of the embedding, so that the properties hold for
        every behaviour of these.
      - The loop bounded by [safety < 500] has that bound as its fuel; the
        breadth-first loop has the number of keys of [adjacency] as fuel,
        which is shown to be enough. *)

From Stdlib Require Import String DecimalString ZArith QArith Qabs Qminmax Qreduction Qcanon
  List Bool Lia Lqa Permutation.
Import ListNotations.
Local Open Scope Z_scope.

(** ** Data model (client/src/types/plan.ts) *)

Record Vec2 : Type := mkVec2 { x : Q; y : Q }.

Record NodePoint : Type := mkNode { node_id : Z; node_x : Q; node_y : Q }.

Record Wall : Type := mkWall {
  wall_id : Z;
  wall_name : string;
  a : Z;
  b : Z;
  thickness : Q
}.

Record Room : Type := mkRoom {
  room_id : Z;
  room_name : string;
  nodeIds : list Z;
  points : list Vec2
}.

(** ** JavaScript [Map], in insertion order *)

(** The keys of a [Map] are compared with SameValueZero.  The maps of this
    program are keyed by an integer id or by the string [`${u}-${v}`] of two
    integers, which is embedded as the pair. *)
Class MapKey (K : Type) : Type := { key_eqb : K -> K -> bool }.

Class MapKeyLaws (K : Type) `{MapKey K} : Prop := {
  key_eqb_eq : forall j k : K, key_eqb j k = true <-> j = k
}.

Definition edge_eqb (e1 e2 : Z * Z) : bool :=
  (fst e1 =? fst e2) && (snd e1 =? snd e2).

#[export] Instance Z_MapKey : MapKey Z := {| key_eqb := Z.eqb |}.

#[export] Instance edge_MapKey : MapKey (Z * Z) := {| key_eqb := edge_eqb |}.

Module JsMap.

Section Ops.
Context {K V : Type} `{MapKey K}.

Definition t := list (K * V).

Definition empty : t := [].

Fixpoint get (m : t) (k : K) : option V :=
  match m with
  | [] => None
  | (k', v) :: m' => if key_eqb k' k then Some v else get m' k
  end.

Definition has (m : t) (k : K) : bool :=
  match get m k with Some _ => true | None => false end.

(** [Map.prototype.set]: an existing key keeps its position. *)
Fixpoint set (m : t) (k : K) (v : V) : t :=
  match m with
  | [] => [(k, v)]
  | (k', v') :: m' =>
      if key_eqb k' k then (k, v) :: m' else (k', v') :: set m' k v
  end.

Definition keys (m : t) : list K := map fst m.
End Ops.

Arguments t : clear implicits.

End JsMap.

(** ** Room inference (client/src/utils/rooms.ts) *)

(** [new Map(nodes.map((node) => [node.id, node]))]: of two nodes with one id
    the later one is the entry. *)
Definition nodeMap_get (nodes : list NodePoint) (id : Z) : option NodePoint :=
  find (fun n => node_id n =? id) (rev nodes).

(** [adjacency.get(k)?.push(v)] *)
Definition adj_push (m : JsMap.t Z (list Z)) (k v : Z) : JsMap.t Z (list Z) :=
  match JsMap.get m k with
  | Some l => JsMap.set m k (l ++ [v])
  | None => m
  end.

Definition adj_add_wall (m : JsMap.t Z (list Z)) (w : Wall) : JsMap.t Z (list Z) :=
  let m1 := if JsMap.has m (a w) then m else JsMap.set m (a w) [] in
  let m2 := if JsMap.has m1 (b w) then m1 else JsMap.set m1 (b w) [] in
  let m3 := adj_push m2 (a w) (b w) in
  adj_push m3 (b w) (a w).

Definition adjacency (walls : list Wall) : JsMap.t Z (list Z) :=
  fold_left adj_add_wall walls JsMap.empty.

(** [[...new Set(neighbors)]]: first occurrences, in order. *)
Fixpoint dedupe_from (seen l : list Z) : list Z :=
  match l with
  | [] => []
  | v :: l' =>
      if existsb (Z.eqb v) seen then dedupe_from seen l'
      else v :: dedupe_from (v :: seen) l'
  end.

Definition dedupe (l : list Z) : list Z := dedupe_from [] l.

(** The class of the angle [Math.atan2 dy dx] in (-pi, pi]:
    0 for the open lower half plane, 1 for angle 0 (which includes the zero
    vector), 2 for the open upper half plane, 3 for angle pi. *)
Definition angle_class (dy dx : Q) : Z :=
  match (dy ?= 0)%Q with
  | Lt => 0
  | Gt => 2
  | Eq => match (dx ?= 0)%Q with Lt => 3 | _ => 1 end
  end.

(** [Math.atan2 dy1 dx1 ?= Math.atan2 dy2 dx2].  Inside one open half plane
    the angle grows counter-clockwise, that is with the sign of the cross
    product. *)
Definition atan2_compare (dy1 dx1 dy2 dx2 : Q) : comparison :=
  match angle_class dy1 dx1 ?= angle_class dy2 dx2 with
  | Eq =>
      if (angle_class dy1 dx1 =? 1) || (angle_class dy1 dx1 =? 3) then Eq
      else (0 ?= dx1 * dy2 - dy1 * dx2)%Q
  | c => c
  end.

(** The comparator handed to [sort]: the sign of [angleA - angleB], and 0 when
    one of the two neighbours has no node. *)
Definition angle_comparator (nodes : list NodePoint) (node : NodePoint) (na nb : Z)
  : comparison :=
  match nodeMap_get nodes na, nodeMap_get nodes nb with
  | Some pa, Some pb =>
      atan2_compare (node_y pa - node_y node) (node_x pa - node_x node)
                    (node_y pb - node_y node) (node_x pb - node_x node)
  | _, _ => Eq
  end.

(** [Array.prototype.sort] is stable: an element goes after the elements it
    does not precede.  Where the comparator is not an order (a neighbour
    without a node compares equal to every other one) the language leaves the
    result to the engine; the properties below use of such a result only that
    it is a permutation, and the examples have a node for every id. *)
Fixpoint sort_insert {A : Type} (cmp : A -> A -> comparison) (v : A) (l : list A)
  : list A :=
  match l with
  | [] => [v]
  | h :: l' =>
      match cmp v h with
      | Lt => v :: h :: l'
      | _ => h :: sort_insert cmp v l'
      end
  end.

Definition sort {A : Type} (cmp : A -> A -> comparison) (l : list A) : list A :=
  fold_left (fun acc v => sort_insert cmp v acc) l [].

Definition sortedNeighbors (nodes : list NodePoint) (node : NodePoint)
  (neighbors : list Z) : list Z :=
  sort (angle_comparator nodes node) (dedupe neighbors).

(** [adjacency.forEach] filling [angleMap]: the keys of [adjacency] are
    distinct, so every [angleMap.set] appends. *)
Fixpoint angleMap_of (nodes : list NodePoint) (adj : JsMap.t Z (list Z))
  : JsMap.t Z (list Z) :=
  match adj with
  | [] => []
  | (nodeId, neighbors) :: adj' =>
      match nodeMap_get nodes nodeId with
      | None => angleMap_of nodes adj'
      | Some node =>
          (nodeId, sortedNeighbors nodes node neighbors) :: angleMap_of nodes adj'
      end
  end.

Definition angleMap (nodes : list NodePoint) (walls : list Wall) : JsMap.t Z (list Z) :=
  angleMap_of nodes (adjacency walls).

(** The shoelace sum shared by the three area functions, as an exact sum.
    The doubles of the code add up with rounding, so that two listings of one
    polygon can differ in the last bits; nothing below depends on two such
    sums being equal, except for the examples, whose coordinates are
    integers. *)
Fixpoint shoelace_from (first : Vec2) (pts : list Vec2) : Q :=
  match pts with
  | [] => 0
  | p :: rest =>
      let q := match rest with [] => first | q :: _ => q end in
      (x p * y q - x q * y p) + shoelace_from first rest
  end%Q.

Definition shoelace (pts : list Vec2) : Q :=
  match pts with
  | [] => 0%Q
  | first :: _ => shoelace_from first pts
  end.

(** The local [polygonArea] of [buildRoomsFromWalls]: signed. *)
Definition polygonAreaLocal (pts : list Vec2) : Q := (shoelace pts / 2)%Q.

(** [list.indexOf(v)] *)
Fixpoint indexOf (l : list Z) (v : Z) : option nat :=
  match l with
  | [] => None
  | h :: l' =>
      if h =? v then Some O
      else match indexOf l' v with Some i => Some (S i) | None => None end
  end.

Definition nextNeighbor (am : JsMap.t Z (list Z)) (nodeId fromId : Z) : option Z :=
  match JsMap.get am nodeId with
  | None => None
  | Some list =>
      if (length list <? 2)%nat then None
      else match indexOf list fromId with
           | None => None
           | Some index =>
               nth_error list ((index + length list - 1) mod length list)%nat
           end
  end.

Record Face : Type := mkFace {
  face_nodeIds : list Z;
  face_points : list Vec2;
  face_area : Q
}.

(** The [while (safety < 500)] loop; [fuel] is [500 - safety].  The result is
    [(closed, path, traversed)]. *)
Fixpoint trace_loop (am : JsMap.t Z (list Z)) (startU startV : Z) (fuel : nat)
  (currentU currentV : Z) (path : list Z) (traversed : list (Z * Z))
  : bool * list Z * list (Z * Z) :=
  match fuel with
  | O => (false, path, traversed)
  | S fuel' =>
      let traversed' := traversed ++ [(currentU, currentV)] in
      let path' := path ++ [currentV] in
      match nextNeighbor am currentV currentU with
      | None => (false, path', traversed')
      | Some next =>
          if (currentV =? startU) && (next =? startV)
          then (true, path', traversed')
          else trace_loop am startU startV fuel' currentV next path' traversed'
      end
  end.

(** [visited] is a [Set] of the keys [`${u}->${v}`]; a key is the pair. *)
Definition visited_has (visited : list (Z * Z)) (e : Z * Z) : bool :=
  existsb (edge_eqb e) visited.

Definition visited_add (visited : list (Z * Z)) (e : Z * Z) : list (Z * Z) :=
  if visited_has visited e then visited else visited ++ [e].

(** [cycle.map((id) => nodeMap.get(id)).filter(Boolean).map(...)] *)
Fixpoint cyclePoints (nodes : list NodePoint) (cycle : list Z) : list Vec2 :=
  match cycle with
  | [] => []
  | id :: cycle' =>
      match nodeMap_get nodes id with
      | Some node => mkVec2 (node_x node) (node_y node) :: cyclePoints nodes cycle'
      | None => cyclePoints nodes cycle'
      end
  end.

Definition Qltb (p q : Q) : bool :=
  match (p ?= q)%Q with Lt => true | _ => false end.

(** The double [0.0001], as the rational it is. *)
Definition area_eps : Q := 7378697629483821 # 73786976294838206464.

Definition TraceState : Type := (list (Z * Z) * list Face)%type.

Definition trace_direction (nodes : list NodePoint) (am : JsMap.t Z (list Z))
  (st : TraceState) (dir : Z * Z) : TraceState :=
  let '(visited, faces) := st in
  let '(startU, startV) := dir in
  if visited_has visited (startU, startV) then st
  else
    let '(closed, path, traversed) :=
      trace_loop am startU startV 500 startU startV [startU] [] in
    if closed && (4 <=? length path)%nat then
      let visited' := fold_left visited_add traversed visited in
      let cycle := removelast path in
      let pts := cyclePoints nodes cycle in
      if (3 <=? length pts)%nat then
        let area := polygonAreaLocal pts in
        if Qltb area_eps (Qabs area)
        then (visited', faces ++ [mkFace cycle pts area])
        else (visited', faces)
      else (visited', faces)
    else st.

Definition trace_wall (nodes : list NodePoint) (am : JsMap.t Z (list Z))
  (st : TraceState) (w : Wall) : TraceState :=
  fold_left (trace_direction nodes am) [(a w, b w); (b w, a w)] st.

Definition traceFaces (nodes : list NodePoint) (walls : list Wall) : list Face :=
  snd (fold_left (trace_wall nodes (angleMap nodes walls)) walls ([], [])).

(** *** Connected components *)

Definition bfs_visit (componentId : Z) (st : JsMap.t Z Z * list Z) (next : Z)
  : JsMap.t Z Z * list Z :=
  let '(cbn, queue) := st in
  if JsMap.has cbn next then st
  else (JsMap.set cbn next componentId, queue ++ [next]).

Definition neighborsOf (adj : JsMap.t Z (list Z)) (current : Z) : list Z :=
  match JsMap.get adj current with Some l => l | None => [] end.

(** The [while (queue.length)] loop.  Every round takes one node off the
    queue and a node enters the queue once, so the number of keys of
    [adjacency] is enough fuel ([bfs_loop_adequate]). *)
Fixpoint bfs_loop (adj : JsMap.t Z (list Z)) (componentId : Z) (fuel : nat)
  (cbn : JsMap.t Z Z) (queue : list Z) : JsMap.t Z Z * list Z :=
  match fuel with
  | O => (cbn, queue)
  | S fuel' =>
      match queue with
      | [] => (cbn, [])
      | current :: queue' =>
          let st := fold_left (bfs_visit componentId) (neighborsOf adj current)
                              (cbn, queue') in
          bfs_loop adj componentId fuel' (fst st) (snd st)
      end
  end.

Definition component_step (adj : JsMap.t Z (list Z)) (st : JsMap.t Z Z * Z)
  (entry : Z * list Z) : JsMap.t Z Z * Z :=
  let '(cbn, componentId) := st in
  let nodeId := fst entry in
  if JsMap.has cbn nodeId then st
  else
    (fst (bfs_loop adj componentId (length adj)
                   (JsMap.set cbn nodeId componentId) [nodeId]),
     componentId + 1).

Definition componentByNode (walls : list Wall) : JsMap.t Z Z :=
  fst (fold_left (component_step (adjacency walls)) (adjacency walls)
                 (JsMap.empty, 0)).

(** *** Winding disambiguation *)

(** [componentByNode.get(face.nodeIds[0]) ?? -1] *)
Definition faceComponent (cbn : JsMap.t Z Z) (f : Face) : Z :=
  match face_nodeIds f with
  | id :: _ => match JsMap.get cbn id with Some c => c | None => -1 end
  | [] => -1
  end.

Definition addFace (cbn : JsMap.t Z Z) (m : JsMap.t Z (list Face)) (f : Face)
  : JsMap.t Z (list Face) :=
  let comp := faceComponent cbn f in
  let m1 := if JsMap.has m comp then m else JsMap.set m comp [] in
  match JsMap.get m1 comp with
  | Some group => JsMap.set m1 comp (group ++ [f])
  | None => m1
  end.

Definition facesByComponent (cbn : JsMap.t Z Z) (faces : list Face)
  : JsMap.t Z (list Face) :=
  fold_left (addFace cbn) faces JsMap.empty.

Definition isPositive (f : Face) : bool := Qltb 0 (face_area f).
Definition isNegative (f : Face) : bool := Qltb (face_area f) 0.

(** [group.reduce((sum, face) => sum + Math.abs(face.area), 0)] *)
Definition sumAbs (group : list Face) : Q :=
  fold_left (fun sum f => (sum + Qabs (face_area f))%Q) group 0%Q.

(** The body of [facesByComponent.forEach]: what one component contributes to
    [filtered]. *)
Definition selectGroup (group : list Face) : list Face :=
  if (length group <=? 1)%nat then group
  else
    let positive := filter isPositive group in
    let negative := filter isNegative group in
    if (length positive =? 0)%nat || (length negative =? 0)%nat then group
    else if (length positive <? length negative)%nat then negative
    else if (length negative =? length positive)%nat then
      if Qltb (sumAbs negative) (sumAbs positive) then negative else positive
    else positive.

Definition filterFaces (cbn : JsMap.t Z Z) (faces : list Face) : list Face :=
  flat_map (fun entry => selectGroup (snd entry)) (facesByComponent cbn faces).

Definition decimal (n : Z) : string := NilZero.string_of_int (Z.to_int n).

(** [filtered.map((face, index) => ...)], [index] counted from [from]. *)
Fixpoint roomsFrom (from : Z) (faces : list Face) : list Room :=
  match faces with
  | [] => []
  | f :: faces' =>
      mkRoom (from + 1) ("Комната " ++ decimal (from + 1))
             (face_nodeIds f) (face_points f)
      :: roomsFrom (from + 1) faces'
  end.

Definition buildRoomsFromWalls (nodes : list NodePoint) (walls : list Wall)
  : list Room :=
  let faces := traceFaces nodes walls in
  match faces with
  | [] => []
  | _ :: _ => roomsFrom 0 (filterFaces (componentByNode walls) faces)
  end.

(** *** The scenarios of the specification *)

Definition wallOf (id u v : Z) : Wall := mkWall id "" u v (1 # 5).
Definition nodeAt (id px py : Z) : NodePoint := mkNode id (inject_Z px) (inject_Z py).

Definition squareNodes : list NodePoint :=
  [nodeAt 1 0 0; nodeAt 2 10 0; nodeAt 3 10 10; nodeAt 4 0 10].
Definition squareWalls : list Wall :=
  [wallOf 1 1 2; wallOf 2 2 3; wallOf 3 3 4; wallOf 4 4 1].

Definition pointAt (px py : Z) : Vec2 := mkVec2 (inject_Z px) (inject_Z py).

(** The room of the square. *)
Definition squareRoom : Room :=
  mkRoom 1 ("Комната " ++ "1") [1; 2; 3; 4]
         [pointAt 0 0; pointAt 10 0; pointAt 10 10; pointAt 0 10].

(** A small triangle inside a large one, the two touching at node 1. *)
Definition nestedNodes : list NodePoint :=
  [nodeAt 1 0 0; nodeAt 2 30 0; nodeAt 3 0 30; nodeAt 4 10 5; nodeAt 5 5 10].
Definition nestedWalls : list Wall :=
  [wallOf 1 1 2; wallOf 2 2 3; wallOf 3 3 1;
   wallOf 4 1 4; wallOf 5 4 5; wallOf 6 5 1].

(** The room between the two triangles. *)
Definition nestedRoom : Room :=
  mkRoom 1 ("Комната " ++ "1") [1; 2; 3; 1; 5; 4]
         [pointAt 0 0; pointAt 30 0; pointAt 0 30;
          pointAt 0 0; pointAt 5 10; pointAt 10 5].

(** Two squares that share the wall 2-3, and a wall 1-7 that ends inside the
    left square. *)
Definition twinNodes : list NodePoint :=
  [nodeAt 1 0 0; nodeAt 2 10 0; nodeAt 3 10 10; nodeAt 4 0 10;
   nodeAt 5 20 0; nodeAt 6 20 10; nodeAt 7 5 5].
Definition twinWalls : list Wall :=
  [wallOf 1 1 2; wallOf 2 2 3; wallOf 3 3 4; wallOf 4 4 1;
   wallOf 5 2 5; wallOf 6 5 6; wallOf 7 6 3; wallOf 8 1 7].

(** ** Geometry primitives (client/src/utils/geometry.ts) *)

(** The square root behind [Math.hypot]: the exact root when the reduced
    fraction has a square numerator and a square denominator, and otherwise
    the root truncated to 52 binary digits, which stands for a rounded root
    without being the double that the code returns.  The properties below
    use it along an axis, where [Math.hypot (d, 0)] is [|d|], and for the
    sign and the zero of a distance. *)
Definition Qsqrt (q : Q) : Q :=
  let r := Qred q in
  let n := Qnum r in
  let d := Zpos (Qden r) in
  if (Z.sqrt n * Z.sqrt n =? n) && (Z.sqrt d * Z.sqrt d =? d)
  then Z.sqrt n # Z.to_pos (Z.sqrt d)
  else Z.sqrt (n * d * 4 ^ 52) # (Qden r * 2 ^ 52).

Definition hypot (dx dy : Q) : Q := Qsqrt (dx * dx + dy * dy).

Definition distance (p q : Vec2) : Q := hypot (x p - x q) (y p - y q).

Definition polygonArea (pts : list Vec2) : Q := Qabs (shoelace pts / 2).

Definition polygonAreaSigned (pts : list Vec2) : Q := (shoelace pts / 2)%Q.

(** The double [1e-6], as the rational it is. *)
Definition EPS : Q := 4722366482869645 # 4722366482869645213696.

Definition lineIntersection (p1 d1 p2 d2 : Vec2) : option Vec2 :=
  let cross := (x d1 * y d2 - y d1 * x d2)%Q in
  if Qltb (Qabs cross) EPS then None
  else
    let t := (((x p2 - x p1) * y d2 - (y p2 - y p1) * x d2) / cross)%Q in
    Some (mkVec2 (x p1 + x d1 * t) (y p1 + y d1 * t)).

Record Edge : Type := mkEdge {
  edge_p : Vec2;
  edge_n : Vec2;
  edge_o : Q;
  edge_a : Vec2;
  edge_d : Vec2
}.

Definition origin : Vec2 := mkVec2 0 0.

(** The body of [getEdge], for the edge from [pa] to [pb]. *)
Definition edgeOf (pa pb : Vec2) (offset sign : Q) : Edge :=
  let dx := (x pb - x pa)%Q in
  let dy := (y pb - y pa)%Q in
  let len := if Qeq_bool (hypot dx dy) 0 then 1%Q else hypot dx dy in
  let nx := (sign * - dy / len)%Q in
  let ny := (sign * dx / len)%Q in
  mkEdge (mkVec2 (x pa + nx * offset) (y pa + ny * offset))
         (mkVec2 nx ny) offset pa (mkVec2 dx dy).

(** [getEdge] is only called with [index < points.length], and then
    [offsets] has an entry at [index] too. *)
Definition getEdge (pts : list Vec2) (offsets : list Q) (sign : Q) (index : nat)
  : Edge :=
  edgeOf (nth index pts origin)
         (nth ((index + 1) mod length pts) pts origin)
         (nth index offsets 0%Q) sign.

(** The vertex where the offset lines of two consecutive edges meet, or the
    fallback for parallel edges. *)
Definition joinEdges (prevEdge nextEdge : Edge) : Vec2 :=
  match lineIntersection (edge_p prevEdge) (edge_d prevEdge)
                         (edge_p nextEdge) (edge_d nextEdge) with
  | Some intersect => intersect
  | None =>
      let prevOffset :=
        mkVec2 (x (edge_a prevEdge) + x (edge_n prevEdge) * edge_o prevEdge)
               (y (edge_a prevEdge) + y (edge_n prevEdge) * edge_o prevEdge) in
      let nextOffset :=
        mkVec2 (x (edge_a nextEdge) + x (edge_n nextEdge) * edge_o nextEdge)
               (y (edge_a nextEdge) + y (edge_n nextEdge) * edge_o nextEdge) in
      mkVec2 ((x prevOffset + x nextOffset) / 2) ((y prevOffset + y nextOffset) / 2)
  end.

(** One round of the [for] loop of [offsetPolygon]: the vertex pushed for [i]. *)
Definition offsetVertex (pts : list Vec2) (offsets : list Q) (sign : Q) (i : nat)
  : Vec2 :=
  joinEdges (getEdge pts offsets sign ((i + length pts - 1) mod length pts))
            (getEdge pts offsets sign i).

Definition offsetPolygon (pts : list Vec2) (offsets : list Q) : option (list Vec2) :=
  if (length pts <? 3)%nat || negb (length offsets =? length pts)%nat then None
  else
    let area := polygonAreaSigned pts in
    let sign := if Qle_bool 0 area then 1%Q else (-1)%Q in
    Some (map (offsetVertex pts offsets sign) (seq 0 (length pts))).

Definition getRoomArea (room : Room) (scale : Q) : Q :=
  (polygonArea (points room) / (scale * scale))%Q.

(** ** Inner metrics (client/src/utils/planMetrics.ts) *)

Definition WallEdgeMap : Type := JsMap.t (Z * Z) (list Wall).

Definition edgeKey (u v : Z) : Z * Z := (Z.min u v, Z.max u v).

Definition wallEdge_push (m : WallEdgeMap) (w : Wall) : WallEdgeMap :=
  let key := edgeKey (a w) (b w) in
  let m1 := if JsMap.has m key then m else JsMap.set m key [] in
  match JsMap.get m1 key with
  | Some l => JsMap.set m1 key (l ++ [w])
  | None => m1
  end.

Definition buildWallEdgeMap (walls : list Wall) : WallEdgeMap :=
  map (fun entry =>
         (fst entry, sort (fun w1 w2 => wall_id w1 ?= wall_id w2) (snd entry)))
      (fold_left wallEdge_push walls JsMap.empty).

(** [(wallEdgeMap.get(edgeKey(u, v)) || [])[0]] *)
Definition firstWall (m : WallEdgeMap) (u v : Z) : option Wall :=
  match JsMap.get m (edgeKey u v) with
  | Some (w :: _) => Some w
  | _ => None
  end.

Definition getRoomOffsets (room : Room) (m : WallEdgeMap)
  (defaultWallThickness scale : Q) : list Q :=
  map (fun index =>
         let nodeId := nth index (nodeIds room) 0 in
         let nextId := nth ((index + 1) mod length (nodeIds room)) (nodeIds room) 0 in
         let t := match firstWall m nodeId nextId with
                  | Some w => thickness w
                  | None => defaultWallThickness
                  end in
         (t * scale / 2)%Q)
      (seq 0 (length (nodeIds room))).

Definition getRoomInnerPolygon (room : Room) (m : WallEdgeMap)
  (defaultWallThickness scale : Q) : option (list Vec2) :=
  match offsetPolygon (points room)
                      (getRoomOffsets room m defaultWallThickness scale) with
  | None => None
  | Some inner => if (length inner <? 3)%nat then None else Some inner
  end.

Definition getRoomInnerArea (room : Room) (m : WallEdgeMap)
  (defaultWallThickness scale : Q) : Q :=
  match getRoomInnerPolygon room m defaultWallThickness scale with
  | None => getRoomArea room scale
  | Some inner => (polygonArea inner / (scale * scale))%Q
  end.

(** The sum of [distance(points[i], points[(i + 1) % points.length])]. *)
Definition edgeLength (pts : list Vec2) (i : nat) : Q :=
  distance (nth i pts origin) (nth ((i + 1) mod length pts) pts origin).

Definition perimeterSum (pts : list Vec2) : Q :=
  fold_left (fun sum i => (sum + edgeLength pts i)%Q) (seq 0 (length pts)) 0%Q.

Definition getRoomPerimeter (room : Room) (m : WallEdgeMap)
  (defaultWallThickness scale : Q) (useInnerPolygon : bool) : Q :=
  let pts :=
    if useInnerPolygon then
      match getRoomInnerPolygon room m defaultWallThickness scale with
      | Some inner => inner
      | None => points room
      end
    else points room in
  match pts with
  | [] => 0%Q
  | _ :: _ => (perimeterSum pts / scale)%Q
  end.

(** One round of the [for] loop of [getInnerLengthByWallId].  An index past
    the end of [room.nodeIds] reads [undefined], whose edge key is the string
    [NaN-NaN]; no wall list is stored under it. *)
Definition innerLength_step (room : Room) (m : WallEdgeMap) (scale : Q)
  (inner : list Vec2) (acc : JsMap.t Z Q) (i : nat) : JsMap.t Z Q :=
  match nth_error (nodeIds room) i,
        nth_error (nodeIds room) ((i + 1) mod length (nodeIds room)) with
  | Some nodeId, Some nextId =>
      match firstWall m nodeId nextId with
      | None => acc
      | Some wall =>
          let len := (edgeLength inner i / scale)%Q in
          match JsMap.get acc (wall_id wall) with
          | Some existing =>
              JsMap.set acc (wall_id wall)
                        (if Qeq_bool existing 0 then len else Qmin existing len)
          | None => JsMap.set acc (wall_id wall) len
          end
      end
  | _, _ => acc
  end.

Definition innerLength_room (m : WallEdgeMap) (defaultWallThickness scale : Q)
  (acc : JsMap.t Z Q) (room : Room) : JsMap.t Z Q :=
  match getRoomInnerPolygon room m defaultWallThickness scale with
  | None => acc
  | Some inner =>
      if negb (length inner =? length (points room))%nat then acc
      else fold_left (innerLength_step room m scale inner)
                     (seq 0 (length inner)) acc
  end.

Definition getInnerLengthByWallId (rooms : list Room) (m : WallEdgeMap)
  (defaultWallThickness scale : Q) : JsMap.t Z Q :=
  fold_left (innerLength_room m defaultWallThickness scale) rooms JsMap.empty.

(** ** The other functions of geometry.ts and rooms.ts *)

(** The test [intersect] of [pointInPolygon] for the edge between
    [polygon[i]] and [polygon[j]].  The abscissa of the crossing is exact
    here and rounded in the code; the properties below are about edges for
    which it is not computed, or is the [x] of the edge. *)
Definition crossesRay (point pi pj : Vec2) : bool :=
  negb (Bool.eqb (Qltb (y point) (y pi)) (Qltb (y point) (y pj)))
  && Qltb (x point) ((x pj - x pi) * (y point - y pi) / (y pj - y pi) + x pi).

(** The [for] loop of [pointInPolygon]; [pj] is [polygon[j]], the point
    before the head of [pts]. *)
Fixpoint pointInPolygon_from (point pj : Vec2) (pts : list Vec2) (inside : bool)
  : bool :=
  match pts with
  | [] => inside
  | pi :: rest =>
      pointInPolygon_from point pi rest
        (if crossesRay point pi pj then negb inside else inside)
  end.

(** The loop starts with [j = polygon.length - 1]. *)
Definition pointInPolygon (point : Vec2) (polygon : list Vec2) : bool :=
  pointInPolygon_from point (last polygon origin) polygon false.

(** [findRoomAtPoint]: the rooms are tried from the last to the first. *)
Definition findRoomAtPoint (rooms : list Room) (point : Vec2) : option Room :=
  find (fun room => pointInPolygon point (points room)) (rev rooms).

(** ** The key of a room (client/src/App.tsx) *)

(** [arr.slice(index).concat(arr.slice(0, index))] *)
Definition rotate (arr : list Z) (index : nat) : list Z :=
  skipn index arr ++ firstn index arr.

(** [Math.min(...cycle)] of a non-empty list. *)
Definition minOf (cycle : list Z) : Z :=
  match cycle with
  | [] => 0
  | h :: t => fold_left Z.min t h
  end.

(** [ids.join("-")] *)
Definition joinIds (ids : list Z) : string := String.concat "-" (map decimal ids).

(** [s1 < s2] on strings: the order of the code units. *)
Definition string_ltb (s1 s2 : string) : bool :=
  match String.compare s1 s2 with Lt => true | _ => false end.

Definition getRoomKey (cycle : list Z) : string :=
  match cycle with
  | [] => EmptyString
  | _ :: _ =>
      let minId := minOf cycle in
      match indexOf cycle minId with
      | None => EmptyString
      | Some idx =>
          let forward := rotate cycle idx in
          let backward := rotate (rev cycle) (length cycle - 1 - idx) in
          let forwardKey := joinIds forward in
          let backwardKey := joinIds backward in
          if string_ltb forwardKey backwardKey then forwardKey else backwardKey
      end
  end.

(** ** Vocabulary of the specification *)

(** A wall joins [u] and [v], in either direction. *)
Definition connects (w : Wall) (u v : Z) : Prop :=
  (a w = u /\ b w = v) \/ (a w = v /\ b w = u).

Definition linked (walls : list Wall) (u v : Z) : Prop :=
  exists w, In w walls /\ connects w u v.

(** Every two neighbouring entries of [l] are related. *)
Fixpoint walk (R : Z -> Z -> Prop) (l : list Z) : Prop :=
  match l with
  | [] => True
  | u :: l' =>
      match l' with
      | [] => True
      | v :: _ => R u v /\ walk R l'
      end
  end.

(** Every entry of an adjacency list is backed by a wall. *)
Definition adj_sound (walls : list Wall) (m : JsMap.t Z (list Z)) : Prop :=
  forall u l v, In (u, l) m -> In v l -> linked walls u v.

Definition hasNode (nodes : list NodePoint) (id : Z) : Prop :=
  nodeMap_get nodes id <> None.

(** What every traced face satisfies. *)
Record face_wf (nodes : list NodePoint) (walls : list Wall) (f : Face) : Prop := {
  wf_length : (3 <= length (face_nodeIds f))%nat;
  wf_walk : walk (linked walls) (face_nodeIds f ++ firstn 1 (face_nodeIds f));
  wf_nodes : Forall (hasNode nodes) (face_nodeIds f);
  wf_points : face_points f = cyclePoints nodes (face_nodeIds f);
  wf_area : face_area f = polygonAreaLocal (face_points f);
  wf_eps : (area_eps < Qabs (face_area f))%Q
}.

(** The faces traced in the connected component of [f]. *)
Definition componentFaces (cbn : JsMap.t Z Z) (faces : list Face) (f : Face)
  : list Face :=
  filter (fun f' => faceComponent cbn f' =? faceComponent cbn f) faces.

Definition positiveFaces (group : list Face) : list Face := filter isPositive group.
Definition negativeFaces (group : list Face) : list Face := filter isNegative group.

(** The face [f] is one of the rooms: some room has its cycle and points. *)
Definition keptAsRoom (rooms : list Room) (f : Face) : Prop :=
  exists r, In r rooms /\ nodeIds r = face_nodeIds f /\ points r = face_points f.

(** The decision of [selectGroup], face by face. *)
Definition preferNegative (group : list Face) : bool :=
  (length (positiveFaces group) <? length (negativeFaces group))%nat
  || ((length (negativeFaces group) =? length (positiveFaces group))%nat
      && Qltb (sumAbs (negativeFaces group)) (sumAbs (positiveFaces group))).

Definition keepFace (group : list Face) (f : Face) : bool :=
  if (length (positiveFaces group) =? 0)%nat
     || (length (negativeFaces group) =? 0)%nat then true
  else if preferNegative group then isNegative f else isPositive f.

Definition nonempty {A : Type} (l : list A) : option (list A) :=
  match l with [] => None | _ :: _ => Some l end.

Definition groupOr (m : JsMap.t Z (list Face)) (k : Z) : list Face :=
  match JsMap.get m k with Some g => g | None => [] end.

(** The winding rule in the words of the specification: of the two groups,
    [G] is preferred to [O] when it has strictly more faces, or as many faces
    and a smaller total unsigned area. *)
Definition preferredAsStated (G O : list Face) : Prop :=
  (length O < length G)%nat \/
  (length G = length O /\ (sumAbs G < sumAbs O)%Q).

(** C1 in the words of the specification: in a component with faces of both
    windings, the rooms are exactly the faces of the preferred group. *)
Definition winding_rule_as_stated (nodes : list NodePoint) (walls : list Wall)
  : Prop :=
  forall f,
    In f (traceFaces nodes walls) ->
    let group := componentFaces (componentByNode walls) (traceFaces nodes walls) f in
    positiveFaces group <> [] -> negativeFaces group <> [] ->
    exists G O,
      ((G = positiveFaces group /\ O = negativeFaces group) \/
       (G = negativeFaces group /\ O = positiveFaces group)) /\
      preferredAsStated G O /\
      (forall f', In f' G -> keptAsRoom (buildRoomsFromWalls nodes walls) f') /\
      (forall f', In f' O -> ~ keptAsRoom (buildRoomsFromWalls nodes walls) f').

(** C5 in the words of the specification: on equal counts, the faces of the
    group with the smaller total unsigned area are not among the rooms. *)
Definition tie_rule_as_stated (nodes : list NodePoint) (walls : list Wall) : Prop :=
  forall f,
    In f (traceFaces nodes walls) ->
    let group := componentFaces (componentByNode walls) (traceFaces nodes walls) f in
    positiveFaces group <> [] -> negativeFaces group <> [] ->
    length (positiveFaces group) = length (negativeFaces group) ->
    forall G O,
      ((G = positiveFaces group /\ O = negativeFaces group) \/
       (G = negativeFaces group /\ O = positiveFaces group)) ->
      (sumAbs G < sumAbs O)%Q ->
      forall f', In f' G -> ~ keptAsRoom (buildRoomsFromWalls nodes walls) f'.

(** The two faces of the square and the two faces of the twin squares. *)
Definition squareInner : Face :=
  mkFace [1; 2; 3; 4] [pointAt 0 0; pointAt 10 0; pointAt 10 10; pointAt 0 10]
         (200 # 2).
Definition twinInner : Face :=
  mkFace [3; 2; 5; 6] [pointAt 10 10; pointAt 10 0; pointAt 20 0; pointAt 20 10]
         (200 # 2).

Definition twinRoom : Room :=
  mkRoom 1 ("Комната " ++ "1") [3; 2; 5; 6]
         [pointAt 10 10; pointAt 10 0; pointAt 20 0; pointAt 20 10].

(** ** Inputs of the metrics examples *)

(** Coordinates in lowest terms, to compare computed points. *)
Definition reduced (v : Vec2) : Vec2 := mkVec2 (Qred (x v)) (Qred (y v)).

(** A 20 by 10 rectangle whose lower side carries a node in its middle. *)
Definition collinearPolygon : list Vec2 :=
  [pointAt 0 0; pointAt 10 0; pointAt 20 0; pointAt 20 10; pointAt 0 10].

(** Two rooms, 1 m wide and 4 m long, on the two sides of wall 1.  The long
    walls of the upper room are 1 m thick, every other wall is 0.25 m thick;
    the scale is 1 pixel per meter. *)
Definition slimNodes : list NodePoint :=
  [nodeAt 1 0 0; nodeAt 2 1 0; nodeAt 3 1 4; nodeAt 4 0 4;
   nodeAt 5 1 (-4); nodeAt 6 0 (-4)].
Definition slimWalls : list Wall :=
  [mkWall 1 "" 1 2 (1 # 4); mkWall 2 "" 2 3 1; mkWall 3 "" 3 4 (1 # 4);
   mkWall 4 "" 4 1 1; mkWall 5 "" 2 5 (1 # 4); mkWall 6 "" 5 6 (1 # 4);
   mkWall 7 "" 6 1 (1 # 4)].
Definition slimRooms : list Room := buildRoomsFromWalls slimNodes slimWalls.
Definition slimUpper : Room :=
  mkRoom 1 ("Комната " ++ "1") [1; 2; 3; 4]
         [pointAt 0 0; pointAt 1 0; pointAt 1 4; pointAt 0 4].
Definition slimLower : Room :=
  mkRoom 2 ("Комната " ++ "2") [2; 1; 6; 5]
         [pointAt 1 0; pointAt 0 0; pointAt 0 (-4); pointAt 1 (-4)].


(** A room with two points only. *)
Definition thinRoom : Room := mkRoom 1 "" [1; 2] [pointAt 0 0; pointAt 10 0].

(** The outer length of a wall: the distance of its two nodes, in meters. *)
Definition outerLength (nodes : list NodePoint) (w : Wall) (scale : Q) : option Q :=
  match nodeMap_get nodes (a w), nodeMap_get nodes (b w) with
  | Some na, Some nb =>
      Some (distance (mkVec2 (node_x na) (node_y na))
                     (mkVec2 (node_x nb) (node_y nb)) / scale)%Q
  | _, _ => None
  end.

(** What the breadth-first loop still has to do: the keys of [adj] without a
    component, and the queue. *)
Definition bfs_measure (adj : JsMap.t Z (list Z)) (st : JsMap.t Z Z * list Z) : nat :=
  length (filter (fun j => negb (JsMap.has (fst st) j)) (JsMap.keys adj))
  + length (snd st).

(** Every neighbour is itself a key of the adjacency map. *)
Definition adj_closed (m : JsMap.t Z (list Z)) : Prop :=
  forall u l v, In (u, l) m -> In v l -> JsMap.has m v = true.

(** The wall that [getInnerLengthByWallId] charges with edge [i] of a room. *)
Definition edgeWall (m : WallEdgeMap) (room : Room) (i : nat) : option Wall :=
  match nth_error (nodeIds room) i,
        nth_error (nodeIds room) ((i + 1) mod length (nodeIds room)) with
  | Some nodeId, Some nextId => firstWall m nodeId nextId
  | _, _ => None
  end.

(** The inner length that a room gives to its edge [i], when its inner
    polygon is computed. *)
Definition roomInnerLength (m : WallEdgeMap) (defaultWallThickness scale : Q)
  (room : Room) (i : nat) : option Q :=
  match getRoomInnerPolygon room m defaultWallThickness scale with
  | Some inner => Some (edgeLength inner i / scale)%Q
  | None => None
  end.

(** The inner polygon of the room is computed, with one vertex per point,
    and each of its edges has a positive length. *)
Definition positiveInnerEdges (m : WallEdgeMap) (defaultWallThickness scale : Q)
  (room : Room) : Prop :=
  exists inner,
    getRoomInnerPolygon room m defaultWallThickness scale = Some inner /\
    length inner = length (points room) /\
    forall i, (i < length inner)%nat -> (0 < edgeLength inner i / scale)%Q.

(** An axis-aligned rectangle, listed from the corner with the least
    coordinates, first along x and then along y. *)
Definition rectangleRoom (room : Room) : Prop :=
  exists n0 n1 n2 n3 p0 p1 p2 p3,
    nodeIds room = [n0; n1; n2; n3] /\
    points room = [p0; p1; p2; p3] /\
    (y p0 == y p1 /\ x p1 == x p2 /\ y p2 == y p3 /\ x p3 == x p0)%Q /\
    (x p0 < x p1 /\ y p1 < y p2)%Q.

Definition roomWidth (room : Room) : Q :=
  (x (nth 1 (points room) origin) - x (nth 0 (points room) origin))%Q.
Definition roomHeight (room : Room) : Q :=
  (y (nth 2 (points room) origin) - y (nth 1 (points room) origin))%Q.

(** The offset of edge [i]: half the thickness of its wall, in pixels. *)
Definition edgeOffset (m : WallEdgeMap) (defaultWallThickness scale : Q)
  (room : Room) (i : nat) : Q :=
  nth i (getRoomOffsets room m defaultWallThickness scale) 0%Q.

(** The walls have a positive thickness, two opposite walls together are
    thinner than the room is wide, and the corners are not degenerate. *)
Definition thicknessFits (m : WallEdgeMap) (defaultWallThickness scale : Q)
  (room : Room) : Prop :=
  let o := edgeOffset m defaultWallThickness scale room in
  (0 < o 0%nat /\ 0 < o 1%nat /\ 0 < o 2%nat /\ 0 < o 3%nat /\
   o 1%nat + o 3%nat < roomWidth room /\
   o 0%nat + o 2%nat < roomHeight room /\
   EPS <= roomWidth room * roomHeight room)%Q.

(** An entry of [small] is at most the entry of [big] under the same key. *)
Definition lengths_below (small big : JsMap.t Z Q) : Prop :=
  forall k l, JsMap.get big k = Some l ->
              exists l', JsMap.get small k = Some l' /\ (l' <= l)%Q.

Definition lengths_positive (acc : JsMap.t Z Q) : Prop :=
  forall k l, JsMap.get acc k = Some l -> (0 < l)%Q.

(** The entry of the wall of edge [i] of [room] is at most the inner length
    of that edge. *)
Definition edge_covered (m : WallEdgeMap) (scale : Q) (room : Room)
  (inner : list Vec2) (acc : JsMap.t Z Q) (i : nat) : Prop :=
  forall wall, edgeWall m room i = Some wall ->
               exists l, JsMap.get acc (wall_id wall) = Some l /\
                         (l <= edgeLength inner i / scale)%Q.

(** The corner at point [i] is regular: the cross product of the edge that
    arrives and the edge that leaves is at least [EPS], so that
    [lineIntersection] finds the mitre. *)
Definition regularCorner (pts : list Vec2) (i : nat) : Prop :=
  let pa := nth ((i + length pts - 1) mod length pts) pts origin in
  let pb := nth i pts origin in
  let pc := nth ((i + 1) mod length pts) pts origin in
  (EPS <= Qabs ((x pb - x pa) * (y pc - y pb) - (y pb - y pa) * (x pc - x pb)))%Q.

(** The steps of a path: its pairs of neighbouring entries, in order. *)
Fixpoint steps (l : list Z) : list (Z * Z) :=
  match l with
  | [] => []
  | u :: l' =>
      match l' with
      | [] => []
      | v :: _ => (u, v) :: steps l'
      end
  end.

(** The directed edges of a cycle, the closing one from the last entry to the
    first included. *)
Definition cycleEdges (cycle : list Z) : list (Z * Z) :=
  steps (cycle ++ firstn 1 cycle).

(** The directed edge that the trace takes after [e]. *)
Definition nextEdge (am : JsMap.t Z (list Z)) (e : Z * Z) : option (Z * Z) :=
  match nextNeighbor am (snd e) (fst e) with
  | Some next => Some (snd e, next)
  | None => None
  end.

(** Each edge of [l] but the first is the one taken after the edge before
    it. *)
Fixpoint chained (am : JsMap.t Z (list Z)) (l : list (Z * Z)) : Prop :=
  match l with
  | [] => True
  | e :: l' =>
      match l' with
      | [] => True
      | e' :: _ => nextEdge am e = Some e' /\ chained am l'
      end
  end.

(** The face was pushed by a trace that started along a wall and closed. *)
Definition closedTrace (nodes : list NodePoint) (walls : list Wall) (f : Face)
  : Prop :=
  exists su sv path traversed,
    linked walls su sv /\
    trace_loop (angleMap nodes walls) su sv 500 su sv [su] []
      = (true, path, traversed) /\
    face_nodeIds f = removelast path.

(** The walls drawn between the two nodes of a key, in the order of the
    wall list. *)
Definition wallsAt (walls : list Wall) (k : Z * Z) : list Wall :=
  filter (fun w => edge_eqb (edgeKey (a w) (b w)) k) walls.

(** A map that holds, under every key, the walls drawn between its nodes. *)
Definition edgeMap_of (m : WallEdgeMap) (walls : list Wall) : Prop :=
  forall k, JsMap.get m k
            = match wallsAt walls k with [] => None | l => Some l end.

(** No wall of the list has a lower id than its first one. *)
Definition lowestFirst (l : list Wall) : Prop :=
  match l with
  | [] => True
  | w :: _ => forall w', In w' l -> wall_id w <= wall_id w'
  end.

(** The other ends of the walls at node [j], in the order of the wall list; a
    wall from [j] to [j] counts twice. *)
Definition otherEnds (walls : list Wall) (j : Z) : list Z :=
  flat_map (fun w => (if a w =? j then [b w] else [])
                     ++ (if b w =? j then [a w] else [])) walls.

(** A path of walls, of any length, between two nodes. *)
Inductive connected (walls : list Wall) : Z -> Z -> Prop :=
| connected_refl : forall u, connected walls u u
| connected_step : forall u v t,
    connected walls u v -> linked walls v t -> connected walls u t.

(** A node that has a component and is off the queue has the component of
    each of its neighbours. *)
Definition settled (adj : JsMap.t Z (list Z)) (cbn : JsMap.t Z Z) (queue : list Z)
  : Prop :=
  forall u v cu, In v (neighborsOf adj u) -> JsMap.get cbn u = Some cu ->
                 In u queue \/ JsMap.get cbn v = Some cu.

Definition queued (cbn : JsMap.t Z Z) (c : Z) (queue : list Z) : Prop :=
  forall u, In u queue -> JsMap.get cbn u = Some c.

(** [cbn'] keeps the entries of [cbn], and what it adds has component [c]. *)
Definition extends (c : Z) (cbn cbn' : JsMap.t Z Z) : Prop :=
  (forall k ck, JsMap.get cbn k = Some ck -> JsMap.get cbn' k = Some ck) /\
  (forall k ck, JsMap.get cbn' k = Some ck -> JsMap.get cbn k = Some ck \/ ck = c).

(** What holds of the state of the breadth-first loop for component [c],
    started from [root] with the map [cbn0]. *)
Record loop_inv (walls : list Wall) (c root : Z) (cbn0 cbn : JsMap.t Z Z)
  (queue : list Z) : Prop := {
  li_settled : settled (adjacency walls) cbn queue;
  li_queued : queued cbn c queue;
  li_extends : extends c cbn0 cbn;
  li_rooted : forall u, JsMap.get cbn u = Some c -> connected walls root u
}.

(** What holds of [componentByNode] between two searches: the components are
    numbered below [componentId], neighbours share a component, and two nodes
    of one component are connected. *)
Record components_inv (walls : list Wall) (cbn : JsMap.t Z Z) (componentId : Z)
  : Prop := {
  ci_next : 0 <= componentId;
  ci_bounded : forall u cu, JsMap.get cbn u = Some cu -> 0 <= cu < componentId;
  ci_settled : settled (adjacency walls) cbn [];
  ci_grouped : forall u v cu, JsMap.get cbn u = Some cu -> JsMap.get cbn v = Some cu ->
                              connected walls u v
}.

(** The key of the cycle that starts at [m] and goes on with [rest]: the
    lesser of the two strings that list it forwards and backwards. *)
Definition cycleKey (m : Z) (rest : list Z) : string :=
  let forwardKey := joinIds (m :: rest) in
  let backwardKey := joinIds (m :: rev rest) in
  if string_ltb forwardKey backwardKey then forwardKey else backwardKey.

(** ** Import sanitising (client/src/utils/serialization.ts) *)

(** A value of type [unknown], as [JSON.parse] or [parseYaml] hands it over.
    A number is a rational or, as [None], not finite ([NaN], [Infinity]). *)
#[local] Unset Elimination Schemes.
Inductive JsValue : Type :=
| JUndefined
| JNull
| JBool (flag : bool)
| JNumber (n : option Q)
| JString (s : string)
| JArray (items : list JsValue)
| JObject (fields : list (string * JsValue)).
#[local] Set Elimination Schemes.

Record ExportData : Type := mkExportData {
  data_scale : Q;
  data_grid : Q;
  data_wallThickness : Q;
  data_nodes : list NodePoint;
  data_walls : list Wall
}.

(** [EDITOR_DEFAULTS] (client/src/config/editorConfig.ts) *)
Definition DEFAULT_scale : Q := 50.
Definition DEFAULT_grid : Q := 1 # 2.
Definition DEFAULT_wallThickness : Q := 1 # 5.

(** [typeof value === "object" && value !== null] *)
Definition isRecord (value : JsValue) : bool :=
  match value with
  | JArray _ | JObject _ => true
  | _ => false
  end.

(** [raw.name] for a record: an array has none of the fields that are read
    here. *)
Definition field (raw : JsValue) (name : string) : JsValue :=
  match raw with
  | JObject fields =>
      match find (fun entry => String.eqb (fst entry) name) fields with
      | Some entry => snd entry
      | None => JUndefined
      end
  | _ => JUndefined
  end.

(** [Math.trunc] *)
Definition trunc (q : Q) : Z := Z.quot (Qnum q) (Zpos (Qden q)).

(** [value !== null && value > 0 ? value : fallback] *)
Definition positiveOr (value : option Q) (fallback : Q) : Q :=
  match value with
  | Some q => if Qltb 0 q then q else fallback
  | None => fallback
  end.

(** [.filter(Boolean)] on a list of objects and [null]s. *)
Fixpoint keep {A : Type} (l : list (option A)) : list A :=
  match l with
  | [] => []
  | Some v :: l' => v :: keep l'
  | None :: l' => keep l'
  end.

(** [list.map((raw, index) => f(raw, index + 1)).filter(Boolean)], with
    [index] counted from [from]. *)
Fixpoint normalizeEach {A : Type} (f : JsValue -> Z -> option A) (from : Z)
  (l : list JsValue) : list A :=
  match l with
  | [] => []
  | raw :: l' =>
      match f raw (from + 1) with
      | Some v => v :: normalizeEach f (from + 1) l'
      | None => normalizeEach f (from + 1) l'
      end
  end.

(** The nodes that [buildFromRooms] makes of the points of one room; [makeId]
    counts on from [nextId]. *)
Fixpoint nodesFrom (nextId : Z) (pts : list Vec2) : list NodePoint :=
  match pts with
  | [] => []
  | p :: pts' => mkNode nextId (x p) (y p) :: nodesFrom (nextId + 1) pts'
  end.

(** [nodeIds.forEach((nodeId, index) => walls.push(...))] *)
Definition wallsFrom (nextId : Z) (ids : list Z) (fallbackThickness : Q) : list Wall :=
  map (fun index =>
         mkWall (nextId + Z.of_nat index) ""
                (nth index ids 0)
                (nth ((index + 1) mod length ids) ids 0)
                fallbackThickness)
      (seq 0 (length ids)).

Section Serialization.

(** [Number(value)] of a string and of an array or object, [None] where the
    result is not finite.  The conversion of the other values is written out
    in [asFiniteNumber]. *)
Variable numberOfString : string -> option Q.
Variable numberOfObject : JsValue -> option Q.

(** [value.trim()] *)
Variable trim : string -> string.

Definition asFiniteNumber (value : JsValue) : option Q :=
  match value with
  | JNumber n => n
  | JUndefined => None
  | JNull => Some 0%Q
  | JBool flag => Some (if flag then 1%Q else 0%Q)
  | JString s => numberOfString s
  | JArray _ | JObject _ => numberOfObject value
  end.

Definition asNonEmptyString (value : JsValue) (fallback : string) : string :=
  match value with
  | JString s =>
      let trimmed := trim s in
      if String.eqb trimmed EmptyString then fallback else trimmed
  | _ => fallback
  end.

Definition normalizeNode (raw : JsValue) (fallbackId : Z) : option NodePoint :=
  if isRecord raw then
    let id := asFiniteNumber (field raw "id") in
    match asFiniteNumber (field raw "x"), asFiniteNumber (field raw "y") with
    | Some px, Some py =>
        Some (mkNode (match id with
                           | Some i => Z.max 1 (trunc i)
                           | None => fallbackId
                           end) px py)
    | _, _ => None
    end
  else None.

Definition normalizeWall (raw : JsValue) (fallbackId : Z) (fallbackThickness : Q)
  (nodeIdSet : list Z) : option Wall :=
  if isRecord raw then
    let id := asFiniteNumber (field raw "id") in
    match asFiniteNumber (field raw "a"), asFiniteNumber (field raw "b") with
    | Some na, Some nb =>
        let nodeA := Z.max 1 (trunc na) in
        let nodeB := Z.max 1 (trunc nb) in
        if (nodeA =? nodeB)
           || negb (existsb (Z.eqb nodeA) nodeIdSet)
           || negb (existsb (Z.eqb nodeB) nodeIdSet)
        then None
        else
          Some (mkWall (match id with
                        | Some i => Z.max 1 (trunc i)
                        | None => fallbackId
                        end)
                       (asNonEmptyString (field raw "name")
                                         ("Стена " ++ decimal fallbackId))
                       nodeA nodeB
                       (positiveOr (asFiniteNumber (field raw "thickness"))
                                   fallbackThickness))
    | _, _ => None
    end
  else None.

Definition normalizeNodesWalls (data : JsValue) (fallbackThickness : Q)
  : option (list NodePoint * list Wall) :=
  if isRecord data then
    match field data "nodes", field data "walls" with
    | JArray rawNodes, JArray rawWalls =>
        let nodes := normalizeEach normalizeNode 0 rawNodes in
        match nodes with
        | [] => None
        | _ :: _ =>
            let nodeIdSet := map node_id nodes in
            let walls :=
              normalizeEach (fun wall index =>
                               normalizeWall wall index fallbackThickness nodeIdSet)
                            0 rawWalls in
            Some (nodes, walls)
        end
    | _, _ => None
    end
  else None.

Definition pointOf (point : JsValue) : option Vec2 :=
  if isRecord point then
    match asFiniteNumber (field point "x"), asFiniteNumber (field point "y") with
    | Some px, Some py => Some (mkVec2 px py)
    | _, _ => None
    end
  else None.

(** The body of [rooms.forEach]; the state is the next value of [makeId] and
    the two lists. *)
Definition addRoom (fallbackThickness : Q) (st : Z * list NodePoint * list Wall)
  (room : JsValue) : Z * list NodePoint * list Wall :=
  let '(nextId, nodes, walls) := st in
  if isRecord room then
    match field room "points" with
    | JArray rawPoints =>
        let pts := keep (map pointOf rawPoints) in
        if (length pts <? 3)%nat then st
        else
          let newNodes := nodesFrom nextId pts in
          let ids := map node_id newNodes in
          let n := Z.of_nat (length pts) in
          (nextId + n + n, nodes ++ newNodes,
           walls ++ wallsFrom (nextId + n) ids fallbackThickness)
    | _ => st
    end
  else st.

Definition buildFromRooms (rooms : JsValue) (fallbackThickness : Q)
  : option (list NodePoint * list Wall) :=
  match rooms with
  | JArray items =>
      let '(_, nodes, walls) := fold_left (addRoom fallbackThickness) items (1, [], []) in
      match nodes with
      | [] => None
      | _ :: _ => Some (nodes, walls)
      end
  | _ => None
  end.

Definition normalizeImportData (data : JsValue) : option ExportData :=
  let fallbackThicknessRaw :=
    if isRecord data then asFiniteNumber (field data "wallThickness") else None in
  let fallbackThickness := positiveOr fallbackThicknessRaw DEFAULT_wallThickness in
  let scale := if isRecord data then asFiniteNumber (field data "scale") else None in
  let grid := if isRecord data then asFiniteNumber (field data "grid") else None in
  match normalizeNodesWalls data fallbackThickness with
  | Some (nodes, walls) =>
      Some (mkExportData (positiveOr scale DEFAULT_scale) (positiveOr grid DEFAULT_grid)
                         fallbackThickness nodes walls)
  | None =>
      match (if isRecord data then buildFromRooms (field data "rooms") fallbackThickness
             else None) with
      | Some (nodes, walls) =>
          Some (mkExportData (positiveOr scale DEFAULT_scale)
                             (positiveOr grid DEFAULT_grid)
                             fallbackThickness nodes walls)
      | None => None
      end
  end.

End Serialization.

(** A plan that the editor can work on: at least one node, ids from 1, and
    every wall joins two different nodes of the plan and has a positive
    thickness. *)
Record sane (d : ExportData) : Prop := {
  sane_scale : (0 < data_scale d)%Q;
  sane_grid : (0 < data_grid d)%Q;
  sane_wallThickness : (0 < data_wallThickness d)%Q;
  sane_nodes : data_nodes d <> [];
  sane_node_ids : forall n, In n (data_nodes d) -> 1 <= node_id n;
  sane_walls : forall w, In w (data_walls d) ->
      1 <= wall_id w /\ a w <> b w /\
      In (a w) (map node_id (data_nodes d)) /\
      In (b w) (map node_id (data_nodes d)) /\
      (0 < thickness w)%Q
}.

(** The data of a plan with one room, a square, given by its points only. *)
Definition squarePoints : JsValue :=
  JArray (map (fun p => JObject [("x"%string, JNumber (Some (fst p)));
                                 ("y"%string, JNumber (Some (snd p)))])
              [(0, 0); (10, 0); (10, 10); (0, 10)]%Q).

Definition roomsOnly : JsValue :=
  JObject [("rooms"%string, JArray [JObject [("points"%string, squarePoints)]])].

(** ** Convex corners of axis-parallel edges *)

(** The points before and after point [i] in a cycle of [n] points. *)
Definition prevIndex (n i : nat) : nat := (i + n - 1) mod n.
Definition nextIndex (n i : nat) : nat := (i + 1) mod n.

(** The cross product of the edge that arrives at point [i] and the edge that
    leaves it: [cross] of [lineIntersection] for the corner at [i]. *)
Definition turn (pts : list Vec2) (i : nat) : Q :=
  let pa := nth (prevIndex (length pts) i) pts origin in
  let pb := nth i pts origin in
  let pc := nth (nextIndex (length pts) i) pts origin in
  ((x pb - x pa) * (y pc - y pb) - (y pb - y pa) * (x pc - x pb))%Q.

(** [sign] of [offsetPolygon]. *)
Definition winding (pts : list Vec2) : Q :=
  if Qle_bool 0 (polygonAreaSigned pts) then 1%Q else (-1)%Q.

(** The corner at point [i] turns the way the polygon winds, by at least
    [EPS]: it is convex, not reflex, and [lineIntersection] finds its
    mitre. *)
Definition convexCorner (pts : list Vec2) (i : nat) : Prop :=
  (EPS <= winding pts * turn pts i)%Q.





(** A room that widens away from its first wall: a trapezoid 4 m deep, all
    four corners convex, the corners of wall 1 obtuse.  Wall 1 is 2 m thick,
    the others 0.2 m; 10 pixels per meter. *)
Definition wideningNodes : list NodePoint :=
  [nodeAt 1 0 0; nodeAt 2 100 0; nodeAt 3 130 40; nodeAt 4 (-30) 40].
Definition wideningWalls : list Wall :=
  [mkWall 1 "" 1 2 2; wallOf 2 2 3; wallOf 3 3 4; wallOf 4 4 1].
Definition wideningRooms : list Room :=
  buildRoomsFromWalls wideningNodes wideningWalls.
Definition wideningRoom : Room :=
  mkRoom 1 ("Комната " ++ "1") [1; 2; 3; 4]
         [pointAt 0 0; pointAt 100 0; pointAt 130 40; pointAt (-30) 40].

(** * Properties *)

(** ** Maps *)

#[export] Instance Z_MapKeyLaws : MapKeyLaws Z.
Proof. constructor. exact Z.eqb_eq. Qed.

Lemma edge_eqb_eq (e1 e2 : Z * Z) : edge_eqb e1 e2 = true <-> e1 = e2.
Proof.
  destruct e1 as [u1 v1], e2 as [u2 v2]; unfold edge_eqb; simpl.
  rewrite andb_true_iff, !Z.eqb_eq. split.
  - intros [-> ->]; reflexivity.
  - intros [= -> ->]; split; reflexivity.
Qed.

#[export] Instance edge_MapKeyLaws : MapKeyLaws (Z * Z).
Proof. constructor. exact edge_eqb_eq. Qed.

Section JsMapFacts.
Context {K V : Type} `{MapKeyLaws K}.
Implicit Types (m : JsMap.t K V) (k : K) (v : V).

Lemma key_eqb_refl k : key_eqb k k = true.
Proof. apply key_eqb_eq; reflexivity. Qed.

Lemma key_eqb_neq j k : j <> k -> key_eqb j k = false.
Proof.
  intros Hne. destruct (key_eqb j k) eqn:E; [|reflexivity].
  apply key_eqb_eq in E. contradiction.
Qed.

Lemma key_eq_dec j k : {j = k} + {j <> k}.
Proof.
  destruct (key_eqb j k) eqn:E.
  - left. apply key_eqb_eq, E.
  - right. intros ->. rewrite key_eqb_refl in E. discriminate.
Defined.

Lemma get_set_same m k v : JsMap.get (JsMap.set m k v) k = Some v.
Proof.
  induction m as [|[k' v'] m IH]; simpl.
  - rewrite key_eqb_refl; reflexivity.
  - destruct (key_eqb k' k) eqn:E; simpl.
    + rewrite key_eqb_refl; reflexivity.
    + rewrite E; exact IH.
Qed.

Lemma get_set_other m k v j : k <> j -> JsMap.get (JsMap.set m k v) j = JsMap.get m j.
Proof.
  intros Hne. induction m as [|[k' v'] m IH]; simpl.
  - rewrite key_eqb_neq by assumption; reflexivity.
  - destruct (key_eqb k' k) eqn:E; simpl.
    + apply key_eqb_eq in E; subst k'. rewrite key_eqb_neq by assumption.
      reflexivity.
    + destruct (key_eqb k' j); [reflexivity | exact IH].
Qed.

Lemma get_In m k v : JsMap.get m k = Some v -> In (k, v) m.
Proof.
  induction m as [|[k' v'] m IH]; simpl; [discriminate|].
  destruct (key_eqb k' k) eqn:E.
  - apply key_eqb_eq in E; subst k'. intros [= ->]. left; reflexivity.
  - intros Hg. right; auto.
Qed.

Lemma In_set m k v j u :
  In (j, u) (JsMap.set m k v) -> (j = k /\ u = v) \/ In (j, u) m.
Proof.
  induction m as [|[k' v'] m IH]; simpl.
  - intros [[= <- <-]|[]]; left; split; reflexivity.
  - destruct (key_eqb k' k) eqn:E; simpl.
    + intros [[= <- <-]|Hin]; [left; split; reflexivity | right; right; exact Hin].
    + intros [Heq|Hin]; [right; left; exact Heq|].
      destruct (IH Hin) as [Hk|Hm]; [left; exact Hk | right; right; exact Hm].
Qed.

Lemma keys_set m k v :
  JsMap.keys (JsMap.set m k v) =
  if JsMap.has m k then JsMap.keys m else JsMap.keys m ++ [k].
Proof.
  unfold JsMap.has.
  induction m as [|[k' v'] m IH]; simpl; [reflexivity|].
  destruct (key_eqb k' k) eqn:E; simpl.
  - apply key_eqb_eq in E; subst k'; reflexivity.
  - rewrite IH. destruct (JsMap.get m k); reflexivity.
Qed.

Lemma has_In_keys m k : JsMap.has m k = true <-> In k (JsMap.keys m).
Proof.
  unfold JsMap.has.
  induction m as [|[k' v'] m IH]; simpl.
  - split; [discriminate | intros []].
  - destruct (key_eqb k' k) eqn:E.
    + apply key_eqb_eq in E; subst k'. split; auto.
    + rewrite IH. split; [auto|]. intros [->|Hin]; [|exact Hin].
      rewrite key_eqb_refl in E; discriminate.
Qed.

Lemma NoDup_keys_set m k v :
  NoDup (JsMap.keys m) -> NoDup (JsMap.keys (JsMap.set m k v)).
Proof.
  intros Hnd. rewrite keys_set. destruct (JsMap.has m k) eqn:E; [exact Hnd|].
  apply NoDup_app; [exact Hnd | repeat constructor; intros [] |].
  intros j Hin [<-|[]]. apply has_In_keys in Hin. congruence.
Qed.

Lemma In_get m k v : NoDup (JsMap.keys m) -> In (k, v) m -> JsMap.get m k = Some v.
Proof.
  induction m as [|[k' v'] m IH]; simpl; [intros _ []|].
  intros Hnd [[= -> ->]|Hin].
  - rewrite key_eqb_refl; reflexivity.
  - inversion Hnd as [|? ? Hnotin Hnd']; subst.
    destruct (key_eqb k' k) eqn:E; [|auto].
    apply key_eqb_eq in E; subst k'.
    exfalso; apply Hnotin. apply (in_map fst) in Hin; exact Hin.
Qed.

Lemma set_set m k v v' : JsMap.set (JsMap.set m k v) k v' = JsMap.set m k v'.
Proof.
  induction m as [|[k' u] m IH]; simpl.
  - rewrite key_eqb_refl; reflexivity.
  - destruct (key_eqb k' k) eqn:E; simpl.
    + rewrite key_eqb_refl; reflexivity.
    + rewrite E, IH; reflexivity.
Qed.
End JsMapFacts.

(** ** Folds *)

Lemma fold_left_invariant {A B : Type} (f : A -> B -> A) (I : A -> Prop) (l : list B) :
  (forall acc v, In v l -> I acc -> I (f acc v)) ->
  forall acc, I acc -> I (fold_left f l acc).
Proof.
  induction l as [|v l IH]; simpl; intros Hstep acc Hacc; [exact Hacc|].
  apply IH.
  - intros acc' v' Hin. apply Hstep. right; exact Hin.
  - apply Hstep; [left; reflexivity | exact Hacc].
Qed.

Lemma Qltb_lt (p q : Q) : Qltb p q = true <-> (p < q)%Q.
Proof.
  unfold Qltb. rewrite Qlt_alt. destruct (p ?= q)%Q; split; congruence.
Qed.

(** ** The adjacency lists follow the walls *)

Section Adjacency.
Variable walls : list Wall.

Lemma adj_sound_set_nil m k : adj_sound walls m -> adj_sound walls (JsMap.set m k []).
Proof.
  intros Hm u l v Hin Hv.
  apply In_set in Hin as [[-> ->]|Hin]; [destruct Hv | eauto].
Qed.

Lemma adj_sound_ensure m k :
  adj_sound walls m -> adj_sound walls (if JsMap.has m k then m else JsMap.set m k []).
Proof. intros Hm. destruct (JsMap.has m k); auto using adj_sound_set_nil. Qed.

Lemma adj_sound_push m k v :
  adj_sound walls m -> linked walls k v -> adj_sound walls (adj_push m k v).
Proof.
  intros Hm Hkv. unfold adj_push.
  destruct (JsMap.get m k) as [l|] eqn:Hget; [|exact Hm].
  intros u l' v' Hin Hv'.
  apply In_set in Hin as [[-> ->]|Hin]; [|eauto].
  apply in_app_or in Hv' as [Hv'|[<-|[]]]; [|exact Hkv].
  apply get_In in Hget. eauto.
Qed.

Lemma adj_sound_add_wall m w :
  In w walls -> adj_sound walls m -> adj_sound walls (adj_add_wall m w).
Proof.
  intros Hw Hm. unfold adj_add_wall.
  apply adj_sound_push; [apply adj_sound_push|].
  - apply adj_sound_ensure, adj_sound_ensure, Hm.
  - exists w. split; [exact Hw | left; split; reflexivity].
  - exists w. split; [exact Hw | right; split; reflexivity].
Qed.

Lemma adjacency_sound : adj_sound walls (adjacency walls).
Proof.
  unfold adjacency. apply fold_left_invariant.
  - intros acc w Hw. apply adj_sound_add_wall, Hw.
  - intros u l v [].
Qed.
End Adjacency.

(** ** Sorting keeps the elements *)

Lemma sort_insert_perm {A : Type} (cmp : A -> A -> comparison) (v : A) (l : list A) :
  Permutation (sort_insert cmp v l) (v :: l).
Proof.
  induction l as [|h l IH]; simpl; [reflexivity|].
  destruct (cmp v h); try reflexivity.
  - rewrite IH. apply perm_swap.
  - rewrite IH. apply perm_swap.
Qed.

Lemma sort_perm {A : Type} (cmp : A -> A -> comparison) (l : list A) :
  Permutation (sort cmp l) l.
Proof.
  unfold sort.
  enough (Hgen : forall acc,
             Permutation (fold_left (fun acc v => sort_insert cmp v acc) l acc)
                         (acc ++ l)) by exact (Hgen []).
  induction l as [|v l IH]; intros acc; simpl.
  - rewrite app_nil_r. reflexivity.
  - rewrite IH, sort_insert_perm. simpl. apply Permutation_middle.
Qed.

Lemma dedupe_from_incl (seen l : list Z) (v : Z) :
  In v (dedupe_from seen l) -> In v l.
Proof.
  revert seen. induction l as [|h l IH]; simpl; intros seen; [auto|].
  destruct (existsb (Z.eqb h) seen).
  - intros Hin. right. eapply IH, Hin.
  - intros [->|Hin]; [left; reflexivity | right; eapply IH, Hin].
Qed.

Lemma sortedNeighbors_incl nodes node neighbors v :
  In v (sortedNeighbors nodes node neighbors) -> In v neighbors.
Proof.
  unfold sortedNeighbors, dedupe. intros Hin.
  apply (Permutation_in _ (sort_perm _ _)) in Hin.
  eapply dedupe_from_incl, Hin.
Qed.

Lemma angleMap_of_get nodes adj u l :
  JsMap.get (angleMap_of nodes adj) u = Some l ->
  exists node neighbors,
    nodeMap_get nodes u = Some node /\ In (u, neighbors) adj /\
    l = sortedNeighbors nodes node neighbors.
Proof.
  induction adj as [|[k ns] adj IH]; simpl; [discriminate|].
  destruct (nodeMap_get nodes k) as [node|] eqn:Hnode.
  - simpl. destruct (k =? u) eqn:E.
    + apply Z.eqb_eq in E; subst k. intros [= <-].
      exists node, ns. auto.
    + intros Hg. destruct (IH Hg) as (node' & ns' & ? & ? & ?).
      exists node', ns'. auto.
  - intros Hg. destruct (IH Hg) as (node' & ns' & ? & ? & ?).
    exists node', ns'. auto.
Qed.

(** The node chosen by [nextNeighbor] is joined to [nodeId] by a wall, and
    [nodeId] is a node of the plan. *)
Lemma nextNeighbor_sound nodes walls nodeId fromId next :
  nextNeighbor (angleMap nodes walls) nodeId fromId = Some next ->
  linked walls nodeId next /\ hasNode nodes nodeId.
Proof.
  unfold nextNeighbor, angleMap.
  destruct (JsMap.get _ nodeId) as [l|] eqn:Hget; [|discriminate].
  destruct (length l <? 2)%nat; [discriminate|].
  destruct (indexOf l fromId) as [index|]; [|discriminate].
  intros Hnth. apply nth_error_In in Hnth.
  apply angleMap_of_get in Hget as (node & ns & Hnode & Hin & ->).
  apply sortedNeighbors_incl in Hnth. split.
  - eapply adjacency_sound; eassumption.
  - unfold hasNode. congruence.
Qed.

(** ** Walks *)

Lemma walk_snoc (R : Z -> Z -> Prop) (l : list Z) (u v : Z) :
  walk R (l ++ [u]) -> R u v -> walk R ((l ++ [u]) ++ [v]).
Proof.
  induction l as [|h l IH]; simpl.
  - intros _ Huv. split; [exact Huv | exact I].
  - destruct (l ++ [u]) as [|h' t] eqn:E.
    + destruct l; discriminate.
    + simpl. intros [Hh Ht] Huv. split; [exact Hh|]. apply IH; assumption.
Qed.

Lemma walk_nth (R : Z -> Z -> Prop) (l : list Z) (i : nat) (u v : Z) :
  walk R l -> nth_error l i = Some u -> nth_error l (S i) = Some v -> R u v.
Proof.
  revert i. induction l as [|h l IH]; intros i Hw Hu Hv.
  - destruct i; discriminate.
  - destruct l as [|h' l']; [destruct i; discriminate|].
    destruct Hw as [Hh Hw]. destruct i as [|i].
    + simpl in Hu, Hv. congruence.
    + apply (IH i Hw); assumption.
Qed.

(** ** The tracing loop *)

Section TraceLoop.
Variable am : JsMap.t Z (list Z).
Variable R : Z -> Z -> Prop.
Variable P : Z -> Prop.
Variables startU startV : Z.

Hypothesis next_sound :
  forall nodeId fromId next,
    nextNeighbor am nodeId fromId = Some next -> R nodeId next /\ P nodeId.

(** A trace that closes has walked along [R] from [startU] back to
    [startU], through nodes that satisfy [P]. *)
Lemma trace_loop_closed fuel :
  forall currentU currentV before traversed out traversed',
    trace_loop am startU startV fuel currentU currentV
               (before ++ [currentU]) traversed = (true, out, traversed') ->
    walk R (before ++ [currentU]) ->
    R currentU currentV ->
    exists rest,
      out = (before ++ [currentU]) ++ rest ++ [startU] /\
      walk R out /\ Forall P (rest ++ [startU]).
Proof.
  induction fuel as [|fuel IH]; intros cU cV before trav out trav' Hrun Hw Huv;
    simpl in Hrun; [discriminate|].
  destruct (nextNeighbor am cV cU) as [next|] eqn:Hnext; [|discriminate].
  destruct (next_sound _ _ _ Hnext) as [Hstep HP].
  destruct ((cV =? startU) && (next =? startV)) eqn:Hclose.
  - injection Hrun as <- _.
    apply andb_true_iff in Hclose as [HcV _]. apply Z.eqb_eq in HcV. subst cV.
    exists []. simpl. split; [reflexivity|].
    split; [apply walk_snoc; assumption | constructor; [exact HP | constructor]].
  - apply IH in Hrun as (rest & -> & Hout & HPs).
    + exists (cV :: rest). rewrite <- !app_assoc. simpl.
      split; [reflexivity|]. split.
      * rewrite <- !app_assoc in Hout. exact Hout.
      * constructor; assumption.
    + apply walk_snoc; assumption.
    + exact Hstep.
Qed.
End TraceLoop.

Lemma cyclePoints_all nodes cycle :
  Forall (hasNode nodes) cycle ->
  length (cyclePoints nodes cycle) = length cycle.
Proof.
  induction 1 as [|id cycle Hid _ IH]; simpl; [reflexivity|].
  unfold hasNode in Hid. destruct (nodeMap_get nodes id); [|contradiction].
  simpl. rewrite IH; reflexivity.
Qed.

Lemma trace_direction_wf nodes walls st u v :
  linked walls u v ->
  Forall (face_wf nodes walls) (snd st) ->
  Forall (face_wf nodes walls)
         (snd (trace_direction nodes (angleMap nodes walls) st (u, v))).
Proof.
  intros Huv Hst. destruct st as [visited faces]. unfold trace_direction.
  destruct (visited_has visited (u, v)); [exact Hst|].
  destruct (trace_loop _ u v 500 u v [u] []) as [[closed path] traversed] eqn:Hrun.
  destruct closed; [rewrite andb_true_l | exact Hst].
  destruct (4 <=? length path)%nat eqn:Hlen; [|exact Hst].
  apply Nat.leb_le in Hlen.
  apply (trace_loop_closed _ (linked walls) (hasNode nodes) u v
           (nextNeighbor_sound nodes walls) 500 u v []) in Hrun
    as (rest & -> & Hwalk & Hnodes); [|exact I|exact Huv].
  change (([] ++ [u]) ++ rest ++ [u]) with (u :: rest ++ [u]) in *.
  assert (Hcycle : removelast (u :: rest ++ [u]) = u :: rest).
  { change (u :: rest ++ [u]) with ((u :: rest) ++ [u]). apply removelast_last. }
  rewrite Hcycle.
  assert (Hall : Forall (hasNode nodes) (u :: rest)).
  { apply Forall_app in Hnodes as [Hrest Hu]. inversion Hu; subst.
    constructor; assumption. }
  destruct (3 <=? length (cyclePoints nodes (u :: rest)))%nat eqn:Hpts; [|exact Hst].
  destruct (Qltb area_eps _) eqn:Harea; [|exact Hst].
  simpl snd in *. apply Forall_app. split; [exact Hst|].
  constructor; [|constructor]. constructor; simpl face_nodeIds; simpl face_points;
    simpl face_area.
  - simpl in Hlen. rewrite length_app in Hlen. simpl in *. lia.
  - exact Hwalk.
  - exact Hall.
  - reflexivity.
  - reflexivity.
  - apply Qltb_lt, Harea.
Qed.

Lemma trace_wall_wf nodes walls st w :
  In w walls ->
  Forall (face_wf nodes walls) (snd st) ->
  Forall (face_wf nodes walls) (snd (trace_wall nodes (angleMap nodes walls) st w)).
Proof.
  intros Hw Hst. unfold trace_wall. simpl.
  apply trace_direction_wf; [|apply trace_direction_wf; [|exact Hst]].
  - exists w. split; [exact Hw | right; split; reflexivity].
  - exists w. split; [exact Hw | left; split; reflexivity].
Qed.

(** Every traced face is a closed walk of at least three nodes of the plan
    along the walls, with the points and the area of that cycle. *)
Lemma traceFaces_wf nodes walls :
  Forall (face_wf nodes walls) (traceFaces nodes walls).
Proof.
  unfold traceFaces.
  apply (fold_left_invariant _ (fun st => Forall (face_wf nodes walls) (snd st))).
  - intros st w Hw. apply trace_wall_wf, Hw.
  - constructor.
Qed.

(** ** The breadth-first loop has enough fuel *)

Section Components.
Variable adj : JsMap.t Z (list Z).
Variable componentId : Z.

(** Every neighbour is itself a key of [adjacency]. *)
Hypothesis adj_keys : forall u l v, In (u, l) adj -> In v l -> In v (JsMap.keys adj).

Lemma has_set_Z (cbn : JsMap.t Z Z) k c j :
  JsMap.has (JsMap.set cbn k c) j = JsMap.has cbn j || (k =? j).
Proof.
  unfold JsMap.has. destruct (Z.eq_dec k j) as [->|Hne].
  - rewrite get_set_same, Z.eqb_refl, orb_true_r. reflexivity.
  - rewrite get_set_other by exact Hne.
    apply Z.eqb_neq in Hne. rewrite Hne, orb_false_r. reflexivity.
Qed.

Lemma unassigned_set (cbn : JsMap.t Z Z) k c (l : list Z) :
  In k l -> JsMap.has cbn k = false ->
  (S (length (filter (fun j => negb (JsMap.has (JsMap.set cbn k c) j)) l))
   <= length (filter (fun j => negb (JsMap.has cbn j)) l))%nat.
Proof.
  intros Hk Hfree.
  assert (Hle : forall l',
             (length (filter (fun j => negb (JsMap.has (JsMap.set cbn k c) j)) l')
              <= length (filter (fun j => negb (JsMap.has cbn j)) l'))%nat).
  { induction l' as [|h l' IH]; simpl; [lia|].
    rewrite has_set_Z. destruct (JsMap.has cbn h); simpl; [exact IH|].
    destruct (k =? h); simpl; lia. }
  induction l as [|h l IH]; [destruct Hk|]. simpl.
  rewrite has_set_Z. destruct Hk as [->|Hk].
  - rewrite Hfree, Z.eqb_refl. simpl. specialize (Hle l). lia.
  - specialize (IH Hk). destruct (JsMap.has cbn h); simpl; [exact IH|].
    destruct (k =? h); simpl; lia.
Qed.

Lemma bfs_visit_measure st next :
  In next (JsMap.keys adj) ->
  (bfs_measure adj (bfs_visit componentId st next) <= bfs_measure adj st)%nat.
Proof.
  intros Hnext. destruct st as [cbn queue]. unfold bfs_visit.
  destruct (JsMap.has cbn next) eqn:Hhas; [lia|].
  unfold bfs_measure. simpl fst. simpl snd. rewrite length_app. simpl.
  pose proof (unassigned_set cbn next componentId _ Hnext Hhas). lia.
Qed.

Lemma bfs_visits_measure neighbors st :
  (forall v, In v neighbors -> In v (JsMap.keys adj)) ->
  (bfs_measure adj (fold_left (bfs_visit componentId) neighbors st) <= bfs_measure adj st)%nat.
Proof.
  revert st. induction neighbors as [|v neighbors IH]; intros st Hkeys; simpl; [lia|].
  etransitivity; [apply IH; intros; apply Hkeys; right; assumption|].
  apply bfs_visit_measure, Hkeys. left; reflexivity.
Qed.

Lemma neighborsOf_keys current v :
  In v (neighborsOf adj current) -> In v (JsMap.keys adj).
Proof.
  unfold neighborsOf. destruct (JsMap.get adj current) as [l|] eqn:Hget; [|intros []].
  apply get_In in Hget. eauto.
Qed.

Lemma bfs_loop_ends fuel :
  forall cbn queue,
    (bfs_measure adj (cbn, queue) <= fuel)%nat ->
    snd (bfs_loop adj componentId fuel cbn queue) = [].
Proof.
  induction fuel as [|fuel IH]; intros cbn queue Hfuel; simpl.
  - unfold bfs_measure in Hfuel. simpl in Hfuel.
    destruct queue; [reflexivity | simpl in Hfuel; lia].
  - destruct queue as [|current queue]; [reflexivity|].
    apply IH. rewrite <- surjective_pairing.
    pose proof (bfs_visits_measure (neighborsOf adj current) (cbn, queue)
                  (neighborsOf_keys current)) as Hstep.
    unfold bfs_measure in Hfuel, Hstep |- *. simpl in Hfuel, Hstep |- *. lia.
Qed.

(** The loop started by [componentByNode] for a key without a component runs
    until the queue is empty. *)
Lemma bfs_loop_adequate cbn nodeId :
  In nodeId (JsMap.keys adj) -> JsMap.has cbn nodeId = false ->
  snd (bfs_loop adj componentId (length adj)
                (JsMap.set cbn nodeId componentId) [nodeId]) = [].
Proof.
  intros Hkey Hfree. apply bfs_loop_ends.
  unfold bfs_measure. simpl fst. simpl snd.
  pose proof (unassigned_set cbn nodeId componentId _ Hkey Hfree) as Hset.
  pose proof (filter_length_le (fun j => negb (JsMap.has cbn j)) (JsMap.keys adj)) as Hall.
  unfold JsMap.keys in Hall at 2. rewrite length_map in Hall. simpl. lia.
Qed.
End Components.

Lemma has_set_mono {V : Type} (m : JsMap.t Z V) k v j :
  JsMap.has m j = true -> JsMap.has (JsMap.set m k v) j = true.
Proof.
  unfold JsMap.has. destruct (Z.eq_dec k j) as [->|Hne].
  - rewrite get_set_same. reflexivity.
  - rewrite get_set_other by exact Hne. auto.
Qed.

Lemma has_set_same {V : Type} (m : JsMap.t Z V) k v : JsMap.has (JsMap.set m k v) k = true.
Proof. unfold JsMap.has. rewrite get_set_same. reflexivity. Qed.

Lemma adj_closed_ensure m k :
  adj_closed m -> adj_closed (if JsMap.has m k then m else JsMap.set m k []).
Proof.
  intros Hm. destruct (JsMap.has m k); [exact Hm|].
  intros u l v Hin Hv. apply In_set in Hin as [[-> ->]|Hin]; [destruct Hv|].
  apply has_set_mono. eauto.
Qed.

Lemma adj_closed_push m k v :
  adj_closed m -> JsMap.has m v = true -> adj_closed (adj_push m k v).
Proof.
  intros Hm Hv. unfold adj_push.
  destruct (JsMap.get m k) as [l|] eqn:Hget; [|exact Hm].
  intros u l' v' Hin Hv'. apply has_set_mono.
  apply In_set in Hin as [[-> ->]|Hin]; [|eauto].
  apply in_app_or in Hv' as [Hv'|[<-|[]]]; [|exact Hv].
  apply get_In in Hget. eauto.
Qed.

Lemma has_ensure {V : Type} (m : JsMap.t Z V) k v j :
  JsMap.has (if JsMap.has m k then m else JsMap.set m k v) j =
  JsMap.has m j || (k =? j).
Proof.
  destruct (JsMap.has m k) eqn:Hk.
  - destruct (Z.eqb_spec k j) as [<-|_]; [rewrite Hk|]; rewrite ?orb_true_r, ?orb_false_r;
      reflexivity.
  - unfold JsMap.has. destruct (Z.eq_dec k j) as [->|Hne].
    + rewrite get_set_same, Z.eqb_refl, orb_true_r. reflexivity.
    + rewrite get_set_other by exact Hne. apply Z.eqb_neq in Hne.
      rewrite Hne, orb_false_r. reflexivity.
Qed.

Lemma has_push m k v j : JsMap.has (adj_push m k v) j = JsMap.has m j.
Proof.
  unfold adj_push. destruct (JsMap.get m k) as [l|] eqn:Hget; [|reflexivity].
  unfold JsMap.has. destruct (Z.eq_dec k j) as [->|Hne].
  - rewrite get_set_same, Hget. reflexivity.
  - rewrite get_set_other by exact Hne. reflexivity.
Qed.

Lemma adjacency_closed walls : adj_closed (adjacency walls).
Proof.
  unfold adjacency. apply fold_left_invariant; [|intros u l v []].
  intros m w _ Hm. unfold adj_add_wall.
  apply adj_closed_push; [apply adj_closed_push|].
  - apply adj_closed_ensure, adj_closed_ensure, Hm.
  - rewrite has_ensure, Z.eqb_refl, orb_true_r. reflexivity.
  - rewrite has_push, !has_ensure, Z.eqb_refl, orb_true_r, orb_true_l. reflexivity.
Qed.

(** In every round of [componentByNode] the queue is empty when the loop
    stops: the fuel of [bfs_loop] never cuts the search short. *)
Lemma componentByNode_bfs_complete walls cbn componentId entry :
  In entry (adjacency walls) ->
  JsMap.has cbn (fst entry) = false ->
  snd (bfs_loop (adjacency walls) componentId (length (adjacency walls))
                (JsMap.set cbn (fst entry) componentId) [fst entry]) = [].
Proof.
  intros Hentry Hfree. apply bfs_loop_adequate.
  - intros u l v Hin Hv. apply has_In_keys.
    exact (adjacency_closed walls u l v Hin Hv).
  - apply in_map, Hentry.
  - exact Hfree.
Qed.

(** ** Grouping the faces by component *)

Lemma addFace_eq cbn m f :
  addFace cbn m f =
  JsMap.set m (faceComponent cbn f) (groupOr m (faceComponent cbn f) ++ [f]).
Proof.
  unfold addFace, groupOr, JsMap.has.
  destruct (JsMap.get m (faceComponent cbn f)) as [g|] eqn:Hget.
  - rewrite Hget. reflexivity.
  - rewrite get_set_same, set_set. reflexivity.
Qed.

Lemma facesByComponent_snoc cbn faces f :
  facesByComponent cbn (faces ++ [f]) = addFace cbn (facesByComponent cbn faces) f.
Proof. unfold facesByComponent. rewrite fold_left_app. reflexivity. Qed.

Lemma nonempty_snoc {A : Type} (l : list A) (v : A) : nonempty (l ++ [v]) = Some (l ++ [v]).
Proof. destruct l; reflexivity. Qed.

Lemma facesByComponent_get cbn faces k :
  JsMap.get (facesByComponent cbn faces) k =
  nonempty (filter (fun f => faceComponent cbn f =? k) faces).
Proof.
  induction faces as [|f faces IH] using rev_ind; [reflexivity|].
  rewrite facesByComponent_snoc, addFace_eq, filter_app. simpl.
  destruct (faceComponent cbn f =? k) eqn:E.
  - apply Z.eqb_eq in E. subst k. rewrite get_set_same, nonempty_snoc.
    unfold groupOr. rewrite IH.
    destruct (filter _ faces); reflexivity.
  - apply Z.eqb_neq in E. rewrite get_set_other by exact E.
    rewrite app_nil_r. exact IH.
Qed.

Lemma facesByComponent_NoDup cbn faces :
  NoDup (JsMap.keys (facesByComponent cbn faces)).
Proof.
  induction faces as [|f faces IH] using rev_ind; [constructor|].
  rewrite facesByComponent_snoc, addFace_eq. apply NoDup_keys_set, IH.
Qed.

(** ** The choice of a winding group *)

Lemma isPositive_isNegative f : isPositive f = true -> isNegative f = true -> False.
Proof.
  unfold isPositive, isNegative. rewrite !Qltb_lt. intros Hp Hn.
  exact (Qlt_irrefl _ (Qlt_trans _ _ _ Hp Hn)).
Qed.

Lemma windings_length group :
  (length (positiveFaces group) + length (negativeFaces group) <= length group)%nat.
Proof.
  unfold positiveFaces, negativeFaces.
  induction group as [|f group IH]; simpl; [lia|].
  destruct (isPositive f) eqn:Hp, (isNegative f) eqn:Hn; simpl; try lia.
  exfalso. eapply isPositive_isNegative; eassumption.
Qed.

Lemma selectGroup_In group f :
  In f (selectGroup group) <-> In f group /\ keepFace group f = true.
Proof.
  unfold selectGroup, keepFace, preferNegative.
  fold (positiveFaces group) (negativeFaces group).
  pose proof (windings_length group) as Hlen.
  destruct (length group <=? 1)%nat eqn:Hone.
  - apply Nat.leb_le in Hone.
    assert (Hempty : ((length (positiveFaces group) =? 0)%nat
                      || (length (negativeFaces group) =? 0)%nat) = true).
    { apply orb_true_iff. rewrite !Nat.eqb_eq. lia. }
    rewrite Hempty. tauto.
  - destruct ((length (positiveFaces group) =? 0)%nat
              || (length (negativeFaces group) =? 0)%nat); [tauto|].
    destruct (length (positiveFaces group) <? length (negativeFaces group))%nat;
      simpl orb.
    + unfold negativeFaces at 1. rewrite filter_In. reflexivity.
    + destruct (length (negativeFaces group) =? length (positiveFaces group))%nat;
        simpl andb.
      * destruct (Qltb _ _).
        -- unfold negativeFaces at 1. rewrite filter_In. reflexivity.
        -- unfold positiveFaces at 1. rewrite filter_In. reflexivity.
      * unfold positiveFaces at 1. rewrite filter_In. reflexivity.
Qed.

Lemma filterFaces_In cbn faces f :
  In f (filterFaces cbn faces) <->
  In f faces /\ keepFace (componentFaces cbn faces f) f = true.
Proof.
  unfold filterFaces. rewrite in_flat_map. split.
  - intros [[k g] [Hentry Hsel]]. simpl in Hsel.
    apply In_get in Hentry; [|apply facesByComponent_NoDup].
    rewrite facesByComponent_get in Hentry.
    assert (Hg : g = filter (fun f' => faceComponent cbn f' =? k) faces).
    { destruct (filter _ faces); [discriminate | injection Hentry as <-; reflexivity]. }
    apply selectGroup_In in Hsel as [Hin Hkeep].
    rewrite Hg in Hin. apply filter_In in Hin as [Hin Hk].
    apply Z.eqb_eq in Hk. subst k. unfold componentFaces. rewrite <- Hg.
    split; assumption.
  - intros [Hin Hkeep].
    assert (Hgroup : In f (componentFaces cbn faces f)).
    { apply filter_In. split; [exact Hin | apply Z.eqb_refl]. }
    exists (faceComponent cbn f, componentFaces cbn faces f). split.
    + apply get_In. rewrite facesByComponent_get. fold (componentFaces cbn faces f).
      destruct (componentFaces cbn faces f); [destruct Hgroup | reflexivity].
    + simpl. apply selectGroup_In. split; assumption.
Qed.

(** ** From faces to rooms *)

Lemma roomsFrom_In from faces r :
  In r (roomsFrom from faces) ->
  exists f, In f faces /\ nodeIds r = face_nodeIds f /\ points r = face_points f.
Proof.
  revert from. induction faces as [|f faces IH]; simpl; intros from; [intros []|].
  intros [<-|Hin].
  - exists f. simpl. auto.
  - destruct (IH _ Hin) as (f' & ? & ? & ?). exists f'. auto.
Qed.

Lemma roomsFrom_complete from faces f :
  In f faces -> keptAsRoom (roomsFrom from faces) f.
Proof.
  revert from. induction faces as [|f' faces IH]; simpl; intros from; [intros []|].
  intros [->|Hin].
  - eexists. split; [left; reflexivity|]. split; reflexivity.
  - destruct (IH (from + 1) Hin) as (r & Hr & Hids & Hpts). exists r.
    split; [right; exact Hr | split; assumption].
Qed.

Lemma buildRoomsFromWalls_eq nodes walls :
  buildRoomsFromWalls nodes walls =
  roomsFrom 0 (filterFaces (componentByNode walls) (traceFaces nodes walls)).
Proof.
  unfold buildRoomsFromWalls. destruct (traceFaces nodes walls); reflexivity.
Qed.

(** Every room is a traced face. *)
Lemma room_face nodes walls r :
  In r (buildRoomsFromWalls nodes walls) ->
  exists f, face_wf nodes walls f /\
            nodeIds r = face_nodeIds f /\ points r = face_points f.
Proof.
  rewrite buildRoomsFromWalls_eq. intros Hr.
  apply roomsFrom_In in Hr as (f & Hf & Hids & Hpts).
  apply filterFaces_In in Hf as [Hf _].
  exists f. split; [|auto].
  exact (proj1 (Forall_forall _ _) (traceFaces_wf nodes walls) f Hf).
Qed.

(** ** Rooms follow the walls *)

Lemma walk_cycle (R : Z -> Z -> Prop) (l : list Z) (i : nat) (u v : Z) :
  walk R (l ++ firstn 1 l) ->
  nth_error l i = Some u ->
  nth_error l (S i mod length l) = Some v ->
  R u v.
Proof.
  intros Hw Hu Hv.
  assert (Hi : (i < length l)%nat) by (apply nth_error_Some; congruence).
  apply (walk_nth R _ i u v Hw).
  - rewrite nth_error_app1 by exact Hi. exact Hu.
  - destruct (Nat.eq_dec (S i) (length l)) as [Hlast|Hnot].
    + rewrite Hlast, Nat.Div0.mod_same in Hv.
      rewrite Hlast, nth_error_app2, Nat.sub_diag by lia.
      destruct l; [discriminate | exact Hv].
    + rewrite Nat.mod_small in Hv by lia.
      rewrite nth_error_app1 by lia. exact Hv.
Qed.

(** C2.  In every room returned by [buildRoomsFromWalls], each entry of the
    node-id cycle and its successor (the first entry after the last one) are
    the two endpoints of some wall of the input, in one direction or the
    other. *)
Theorem rooms_follow_walls (nodes : list NodePoint) (walls : list Wall) (r : Room)
  (i : nat) (u v : Z) :
  In r (buildRoomsFromWalls nodes walls) ->
  nth_error (nodeIds r) i = Some u ->
  nth_error (nodeIds r) (S i mod length (nodeIds r)) = Some v ->
  exists w, In w walls /\ ((a w = u /\ b w = v) \/ (a w = v /\ b w = u)).
Proof.
  intros Hr Hu Hv.
  destruct (room_face nodes walls r Hr) as (f & Hwf & Hids & _).
  rewrite Hids in Hu, Hv.
  exact (walk_cycle (linked walls) _ i u v (wf_walk _ _ _ Hwf) Hu Hv).
Qed.

Lemma rooms_follow_walls_witness :
  In squareRoom (buildRoomsFromWalls squareNodes squareWalls) /\
  exists w, In w squareWalls /\ ((a w = 4 /\ b w = 1) \/ (a w = 1 /\ b w = 4)).
Proof.
  assert (Hin : In squareRoom (buildRoomsFromWalls squareNodes squareWalls))
    by (vm_compute; left; reflexivity).
  split; [exact Hin|].
  apply (rooms_follow_walls squareNodes squareWalls squareRoom 3 4 1 Hin);
    reflexivity.
Defined.

(** ** Rooms carry the points of their nodes *)

Lemma nodeMap_get_In nodes id node :
  nodeMap_get nodes id = Some node -> In node nodes /\ node_id node = id.
Proof.
  unfold nodeMap_get. intros Hfind. apply find_some in Hfind as [Hin Hid].
  split; [apply in_rev, Hin | apply Z.eqb_eq, Hid].
Qed.

Lemma cyclePoints_nth nodes cycle i id :
  Forall (hasNode nodes) cycle ->
  nth_error cycle i = Some id ->
  exists node,
    nodeMap_get nodes id = Some node /\
    nth_error (cyclePoints nodes cycle) i = Some (mkVec2 (node_x node) (node_y node)).
Proof.
  intros Hall. revert i. induction Hall as [|h cycle Hh _ IH]; intros i Hi.
  - destruct i; discriminate.
  - unfold hasNode in Hh. simpl.
    destruct (nodeMap_get nodes h) as [node|] eqn:Hnode; [|contradiction].
    destruct i as [|i]; simpl in Hi.
    + injection Hi as <-. exists node. split; [exact Hnode | reflexivity].
    + apply IH, Hi.
Qed.

(** C10.  Whatever the walls refer to, a room returned by
    [buildRoomsFromWalls] has as many points as node ids, and its i-th point
    is the position of the node that the node list holds for the i-th id; so
    every id of the cycle is the id of a node of the input. *)
Theorem room_points_match_nodeIds (nodes : list NodePoint) (walls : list Wall)
  (r : Room) :
  In r (buildRoomsFromWalls nodes walls) ->
  length (points r) = length (nodeIds r) /\
  forall i id,
    nth_error (nodeIds r) i = Some id ->
    exists node,
      In node nodes /\ node_id node = id /\
      nodeMap_get nodes id = Some node /\
      nth_error (points r) i = Some (mkVec2 (node_x node) (node_y node)).
Proof.
  intros Hr.
  destruct (room_face nodes walls r Hr) as (f & Hwf & Hids & Hpts).
  rewrite Hids, Hpts, (wf_points _ _ _ Hwf). split.
  - apply cyclePoints_all, (wf_nodes _ _ _ Hwf).
  - intros i id Hi.
    destruct (cyclePoints_nth nodes _ i id (wf_nodes _ _ _ Hwf) Hi)
      as (node & Hnode & Hpoint).
    exists node. destruct (nodeMap_get_In _ _ _ Hnode). auto.
Qed.

Lemma room_points_match_nodeIds_witness :
  In squareRoom (buildRoomsFromWalls squareNodes squareWalls) /\
  length (points squareRoom) = length (nodeIds squareRoom).
Proof.
  assert (Hin : In squareRoom (buildRoomsFromWalls squareNodes squareWalls))
    by (vm_compute; left; reflexivity).
  split; [exact Hin|].
  exact (proj1 (room_points_match_nodeIds squareNodes squareWalls squareRoom Hin)).
Defined.

(** ** No directed edge twice in a cycle *)

Lemma dedupe_from_NoDup (seen l : list Z) :
  NoDup (dedupe_from seen l) /\
  forall v, In v (dedupe_from seen l) -> ~ In v seen.
Proof.
  revert seen. induction l as [|h l IH]; intros seen; simpl.
  - split; [constructor | intros v []].
  - destruct (existsb (Z.eqb h) seen) eqn:Hseen; [apply IH|].
    destruct (IH (h :: seen)) as [Hnodup Hfresh]. split.
    + constructor; [|exact Hnodup].
      intros Hin. apply (Hfresh h Hin). left; reflexivity.
    + intros v [<-|Hin] Hv.
      * assert (Hex : existsb (Z.eqb h) seen = true)
          by (apply existsb_exists; exists h; split; [exact Hv | apply Z.eqb_refl]).
        congruence.
      * apply (Hfresh v Hin). right; exact Hv.
Qed.

Lemma sortedNeighbors_NoDup nodes node neighbors :
  NoDup (sortedNeighbors nodes node neighbors).
Proof.
  unfold sortedNeighbors.
  apply (Permutation_NoDup (Permutation_sym (sort_perm _ _))).
  apply dedupe_from_NoDup.
Qed.

Lemma angleMap_NoDup nodes walls nodeId l :
  JsMap.get (angleMap nodes walls) nodeId = Some l -> NoDup l.
Proof.
  unfold angleMap. intros Hget.
  apply angleMap_of_get in Hget as (node & ns & _ & _ & ->).
  apply sortedNeighbors_NoDup.
Qed.

Lemma indexOf_nth (l : list Z) (v : Z) (i : nat) :
  indexOf l v = Some i -> nth_error l i = Some v.
Proof.
  revert i. induction l as [|h l IH]; intros i; simpl; [discriminate|].
  destruct (h =? v) eqn:E.
  - apply Z.eqb_eq in E. intros [= <-]. simpl. congruence.
  - destruct (indexOf l v) as [j|]; [|discriminate].
    intros [= <-]. simpl. apply IH. reflexivity.
Qed.

Lemma prev_index_inj (i j n : nat) :
  (i < n)%nat -> (j < n)%nat ->
  ((i + n - 1) mod n = (j + n - 1) mod n)%nat -> i = j.
Proof.
  intros Hi Hj Heq.
  assert (Hprev : forall k, (k < n)%nat ->
            ((k + n - 1) mod n = if (k =? 0)%nat then n - 1 else k - 1)%nat).
  { intros k Hk. destruct k as [|k]; simpl Nat.eqb; cbv iota.
    - rewrite Nat.add_0_l. apply Nat.mod_small. lia.
    - replace (S k + n - 1)%nat with (k + 1 * n)%nat by lia.
      rewrite Nat.Div0.mod_add, Nat.mod_small by lia. lia. }
  rewrite (Hprev i Hi), (Hprev j Hj) in Heq.
  destruct i, j; simpl in Heq; lia.
Qed.

Section DistinctEdges.
Variable am : JsMap.t Z (list Z).
Hypothesis am_NoDup : forall nodeId l, JsMap.get am nodeId = Some l -> NoDup l.

(** Two edges into a node that continue with the same edge are one edge. *)
Lemma nextNeighbor_inj nodeId fromId fromId' next :
  nextNeighbor am nodeId fromId = Some next ->
  nextNeighbor am nodeId fromId' = Some next ->
  fromId = fromId'.
Proof.
  unfold nextNeighbor.
  destruct (JsMap.get am nodeId) as [l|] eqn:Hget; [|discriminate].
  destruct (length l <? 2)%nat; [discriminate|].
  destruct (indexOf l fromId) as [i|] eqn:Hi; [|discriminate].
  destruct (indexOf l fromId') as [j|] eqn:Hj; [|discriminate].
  intros Hn Hn'. apply indexOf_nth in Hi, Hj.
  assert (Hil : (i < length l)%nat) by (apply nth_error_Some; congruence).
  assert (Hjl : (j < length l)%nat) by (apply nth_error_Some; congruence).
  assert (Hsame : ((i + length l - 1) mod length l
                   = (j + length l - 1) mod length l)%nat).
  { apply (proj1 (NoDup_nth_error l) (am_NoDup _ _ Hget)).
    - apply Nat.mod_upper_bound. lia.
    - congruence. }
  apply prev_index_inj in Hsame; [|assumption|assumption].
  subst j. congruence.
Qed.

Lemma nextEdge_inj e e' e'' :
  nextEdge am e = Some e'' -> nextEdge am e' = Some e'' -> e = e'.
Proof.
  destruct e as [u v], e' as [u' v']. unfold nextEdge. simpl.
  destruct (nextNeighbor am v u) as [n|] eqn:Hn; [|discriminate].
  destruct (nextNeighbor am v' u') as [n'|] eqn:Hn'; [|discriminate].
  intros [= <-] [= -> ->]. f_equal.
  eapply nextNeighbor_inj; eassumption.
Qed.

Lemma chained_snoc l e e' :
  chained am (l ++ [e]) -> nextEdge am e = Some e' -> chained am ((l ++ [e]) ++ [e']).
Proof.
  induction l as [|h l IH]; simpl.
  - intros _ Hnext. split; [exact Hnext | exact I].
  - destruct (l ++ [e]) as [|h' t] eqn:E; [destruct l; discriminate|].
    simpl. intros [Hh Ht] Hnext. split; [exact Hh | apply IH; assumption].
Qed.

(** An edge of a chain that is not its first edge comes after another edge
    of the chain, which is not the last. *)
Lemma chained_predecessor l e0 e :
  chained am (e0 :: l) -> In e l ->
  exists l1 l2 p, e0 :: l = l1 ++ p :: e :: l2 /\ nextEdge am p = Some e.
Proof.
  revert e0. induction l as [|h l IH]; intros e0 Hchain Hin; [destruct Hin|].
  destruct Hchain as [Hnext Hchain]. destruct Hin as [->|Hin].
  - exists [], l, e0. split; [reflexivity | exact Hnext].
  - destruct (IH h Hchain Hin) as (l1 & l2 & p & Heq & Hp).
    exists (e0 :: l1), l2, p. split; [simpl; rewrite Heq; reflexivity | exact Hp].
Qed.

Lemma steps_snoc before u v : steps ((before ++ [u]) ++ [v]) = steps (before ++ [u]) ++ [(u, v)].
Proof.
  induction before as [|h before IH]; [reflexivity|].
  simpl app. simpl steps.
  destruct (before ++ [u]) as [|h' t] eqn:E; [destruct before; discriminate|].
  simpl app in *. rewrite IH. reflexivity.
Qed.

(** The edges of a closed trace are pairwise distinct. *)
Lemma trace_loop_distinct startU startV fuel :
  forall currentU currentV before traversed out traversed',
    trace_loop am startU startV fuel currentU currentV
               (before ++ [currentU]) traversed = (true, out, traversed') ->
    traversed = steps (before ++ [currentU]) ->
    hd_error (traversed ++ [(currentU, currentV)]) = Some (startU, startV) ->
    chained am (traversed ++ [(currentU, currentV)]) ->
    NoDup (traversed ++ [(currentU, currentV)]) ->
    traversed' = steps out /\ NoDup traversed'.
Proof.
  induction fuel as [|fuel IH];
    intros cU cV before trav out trav' Hrun Hsteps Hhd Hchain Hnodup;
    simpl in Hrun; [discriminate|].
  destruct (nextNeighbor am cV cU) as [next|] eqn:Hnext; [|discriminate].
  assert (Hedge : nextEdge am (cU, cV) = Some (cV, next))
    by (unfold nextEdge; simpl; rewrite Hnext; reflexivity).
  destruct ((cV =? startU) && (next =? startV)) eqn:Hclose.
  - injection Hrun as <- <-. split; [|exact Hnodup].
    rewrite steps_snoc, Hsteps. reflexivity.
  - apply IH in Hrun; [exact Hrun | | | |].
    + rewrite steps_snoc, Hsteps. reflexivity.
    + destruct (trav ++ [(cU, cV)]); [discriminate | exact Hhd].
    + apply chained_snoc; assumption.
    + apply NoDup_app; [exact Hnodup | repeat constructor; intros [] |].
      intros e Hin [<-|[]].
      destruct (trav ++ [(cU, cV)]) as [|e0 rest] eqn:Hlist; [destruct Hin|].
      injection Hhd as ->. destruct Hin as [Hstart|Hin].
      * injection Hstart as -> ->. rewrite !Z.eqb_refl in Hclose. discriminate.
      * destruct (chained_predecessor rest _ _ Hchain Hin)
          as (l1 & l2 & p & Heq & Hp).
        assert (Hlast : p = (cU, cV)) by (eapply nextEdge_inj; eassumption).
        subst p.
        destruct (exists_last (l := (cV, next) :: l2)) as (l' & e' & Hl');
          [discriminate|].
        rewrite Hl' in Heq. rewrite Heq in Hnodup, Hlist.
        change (l1 ++ (cU, cV) :: l' ++ [e'])
          with (l1 ++ ((cU, cV) :: l') ++ [e']) in Hlist.
        rewrite app_assoc in Hlist. apply app_inj_tail in Hlist as [_ He'].
        subst e'. apply NoDup_remove_2 in Hnodup. apply Hnodup.
        apply in_or_app. right. apply in_or_app. right. left. reflexivity.
Qed.
End DistinctEdges.

Lemma trace_direction_distinct nodes walls st u v :
  Forall (fun f => NoDup (cycleEdges (face_nodeIds f))) (snd st) ->
  Forall (fun f => NoDup (cycleEdges (face_nodeIds f)))
         (snd (trace_direction nodes (angleMap nodes walls) st (u, v))).
Proof.
  intros Hst. destruct st as [visited faces]. unfold trace_direction.
  destruct (visited_has visited (u, v)); [exact Hst|].
  destruct (trace_loop _ u v 500 u v [u] []) as [[closed path] traversed] eqn:Hrun.
  destruct closed; [rewrite andb_true_l | exact Hst].
  destruct (4 <=? length path)%nat; [|exact Hst].
  destruct (3 <=? length (cyclePoints nodes (removelast path)))%nat; [|exact Hst].
  destruct (Qltb area_eps _); [|exact Hst].
  simpl snd in *. apply Forall_app. split; [exact Hst|].
  constructor; [|constructor]. simpl face_nodeIds.
  pose proof (trace_loop_distinct (angleMap nodes walls) (angleMap_NoDup nodes walls)
                u v 500 u v [] [] path traversed Hrun eq_refl eq_refl I) as Hdistinct.
  destruct Hdistinct as [Hsteps Hnodup]; [repeat constructor; intros [] |].
  apply (trace_loop_closed _ (fun _ _ => True) (fun _ => True) u v
           (fun _ _ _ _ => conj I I) 500 u v []) in Hrun
    as (rest & -> & _); [|exact I|exact I].
  change (([] ++ [u]) ++ rest ++ [u]) with ((u :: rest) ++ [u]) in *.
  rewrite removelast_last. unfold cycleEdges.
  change (firstn 1 (u :: rest)) with [u]. rewrite <- Hsteps. exact Hnodup.
Qed.

(** No traced face takes a directed edge twice. *)
Lemma traceFaces_distinct nodes walls :
  Forall (fun f => NoDup (cycleEdges (face_nodeIds f))) (traceFaces nodes walls).
Proof.
  unfold traceFaces.
  apply (fold_left_invariant _
           (fun st => Forall (fun f => NoDup (cycleEdges (face_nodeIds f))) (snd st)));
    [|constructor].
  intros st w _ Hst. unfold trace_wall. simpl.
  apply trace_direction_distinct, trace_direction_distinct, Hst.
Qed.

Lemma room_traced nodes walls r :
  In r (buildRoomsFromWalls nodes walls) ->
  exists f, In f (traceFaces nodes walls) /\
            nodeIds r = face_nodeIds f /\ points r = face_points f.
Proof.
  rewrite buildRoomsFromWalls_eq. intros Hr.
  apply roomsFrom_In in Hr as (f & Hf & Hids & Hpts).
  apply filterFaces_In in Hf as [Hf _]. exists f. auto.
Qed.

(** ** Length of a room's cycle *)

(** C6, as the code has it.  Every room returned by [buildRoomsFromWalls] has
    a node-id cycle of at least three entries, and no directed edge, from an
    entry to its successor, occurs twice in the cycle.  (A node id may occur
    twice.) *)
Theorem room_cycle_length (nodes : list NodePoint) (walls : list Wall) (r : Room) :
  In r (buildRoomsFromWalls nodes walls) ->
  (3 <= length (nodeIds r))%nat /\ NoDup (cycleEdges (nodeIds r)).
Proof.
  intros Hr. split.
  - destruct (room_face nodes walls r Hr) as (f & Hwf & Hids & _).
    rewrite Hids. exact (wf_length _ _ _ Hwf).
  - destruct (room_traced nodes walls r Hr) as (f & Hf & Hids & _).
    rewrite Hids.
    exact (proj1 (Forall_forall _ _) (traceFaces_distinct nodes walls) f Hf).
Qed.

Lemma room_cycle_length_witness :
  In squareRoom (buildRoomsFromWalls squareNodes squareWalls) /\
  (3 <= length (nodeIds squareRoom))%nat /\ NoDup (cycleEdges (nodeIds squareRoom)).
Proof.
  assert (Hin : In squareRoom (buildRoomsFromWalls squareNodes squareWalls))
    by (vm_compute; left; reflexivity).
  split; [exact Hin|].
  exact (room_cycle_length squareNodes squareWalls squareRoom Hin).
Defined.

(** C6, as the specification states it, fails.  A small triangle inside a
    large one that touches it at node 1: the region between the two is a
    room, and its cycle passes node 1 twice. *)
Lemma room_cycle_repeats_node :
  ~ (forall r, In r (buildRoomsFromWalls nestedNodes nestedWalls) ->
               (3 <= length (nodeIds r))%nat /\ NoDup (nodeIds r)).
Proof.
  intros Hclaim.
  assert (Hin : In nestedRoom (buildRoomsFromWalls nestedNodes nestedWalls))
    by (vm_compute; left; reflexivity).
  destruct (Hclaim nestedRoom Hin) as [_ Hnodup].
  apply NoDup_cons_iff in Hnodup as [Hnotin _].
  apply Hnotin. right; right; left; reflexivity.
Qed.

(** ** Which faces become rooms *)

Lemma face_eq f f' :
  face_area f = polygonAreaLocal (face_points f) ->
  face_area f' = polygonAreaLocal (face_points f') ->
  face_nodeIds f' = face_nodeIds f -> face_points f' = face_points f -> f' = f.
Proof.
  destruct f as [ids pts ar], f' as [ids' pts' ar']. simpl.
  intros -> -> -> ->. reflexivity.
Qed.

Lemma keptAsRoom_iff nodes walls f :
  In f (traceFaces nodes walls) ->
  keptAsRoom (buildRoomsFromWalls nodes walls) f <->
  keepFace (componentFaces (componentByNode walls) (traceFaces nodes walls) f) f = true.
Proof.
  intros Hf. rewrite buildRoomsFromWalls_eq.
  pose proof (proj1 (Forall_forall _ _) (traceFaces_wf nodes walls)) as Hwf.
  split.
  - intros (r & Hr & Hids & Hpts).
    apply roomsFrom_In in Hr as (f' & Hf' & Hids' & Hpts').
    apply filterFaces_In in Hf' as [Hf' Hkeep].
    assert (Heq : f' = f).
    { apply face_eq; try congruence.
      - apply (wf_area _ _ _ (Hwf f Hf)).
      - apply (wf_area _ _ _ (Hwf f' Hf')). }
    subst f'. exact Hkeep.
  - intros Hkeep. apply roomsFrom_complete, filterFaces_In. split; assumption.
Qed.

Lemma componentFaces_self cbn faces f : In f faces -> In f (componentFaces cbn faces f).
Proof. intros Hf. apply filter_In. split; [exact Hf | apply Z.eqb_refl]. Qed.

Lemma componentFaces_same cbn faces f f' :
  In f' (componentFaces cbn faces f) ->
  In f' faces /\ componentFaces cbn faces f' = componentFaces cbn faces f.
Proof.
  intros Hin. apply filter_In in Hin as [Hin Hc]. apply Z.eqb_eq in Hc.
  split; [exact Hin|]. unfold componentFaces. rewrite Hc. reflexivity.
Qed.

Lemma length_zero_nil {A : Type} (l : list A) : (length l =? 0)%nat = true <-> l = [].
Proof. rewrite Nat.eqb_eq. apply length_zero_iff_nil. Qed.

Lemma keepFace_one_winding group f :
  positiveFaces group = [] \/ negativeFaces group = [] -> keepFace group f = true.
Proof.
  intros Hone. unfold keepFace.
  destruct ((length (positiveFaces group) =? 0)%nat
            || (length (negativeFaces group) =? 0)%nat) eqn:E; [reflexivity|].
  apply orb_false_iff in E as [Ep En].
  destruct Hone as [Hp|Hn].
  - apply length_zero_nil in Hp. congruence.
  - apply length_zero_nil in Hn. congruence.
Qed.

Lemma keepFace_two_windings group f :
  positiveFaces group <> [] -> negativeFaces group <> [] ->
  keepFace group f = if preferNegative group then isNegative f else isPositive f.
Proof.
  intros Hp Hn. unfold keepFace.
  destruct (length (positiveFaces group) =? 0)%nat eqn:Ep.
  - apply length_zero_nil in Ep. contradiction.
  - destruct (length (negativeFaces group) =? 0)%nat eqn:En; [|reflexivity].
    apply length_zero_nil in En. contradiction.
Qed.

Lemma preferNegative_true group :
  preferNegative group = true <->
  (length (positiveFaces group) < length (negativeFaces group))%nat \/
  (length (positiveFaces group) = length (negativeFaces group) /\
   (sumAbs (negativeFaces group) < sumAbs (positiveFaces group))%Q).
Proof.
  unfold preferNegative.
  rewrite orb_true_iff, andb_true_iff, Nat.ltb_lt, Nat.eqb_eq, Qltb_lt.
  intuition auto.
Qed.

Lemma In_positiveFaces group f :
  In f group -> (In f (positiveFaces group) <-> isPositive f = true).
Proof. intros Hf. unfold positiveFaces. rewrite filter_In. tauto. Qed.

Lemma In_negativeFaces group f :
  In f group -> (In f (negativeFaces group) <-> isNegative f = true).
Proof. intros Hf. unfold negativeFaces. rewrite filter_In. tauto. Qed.

(** The winding decision for a face of a component with both windings. *)
Lemma kept_two_windings nodes walls f :
  let group := componentFaces (componentByNode walls) (traceFaces nodes walls) f in
  In f (traceFaces nodes walls) ->
  positiveFaces group <> [] -> negativeFaces group <> [] ->
  (preferNegative group = true ->
   (keptAsRoom (buildRoomsFromWalls nodes walls) f <-> In f (negativeFaces group))) /\
  (preferNegative group = false ->
   (keptAsRoom (buildRoomsFromWalls nodes walls) f <-> In f (positiveFaces group))).
Proof.
  intros group Hf Hp Hn.
  pose proof (componentFaces_self (componentByNode walls) _ f Hf) as Hself.
  fold group in Hself.
  rewrite (keptAsRoom_iff nodes walls f Hf). fold group.
  rewrite (keepFace_two_windings group f Hp Hn).
  rewrite (In_negativeFaces group f Hself), (In_positiveFaces group f Hself).
  split; intros ->; reflexivity.
Qed.

(** C1, as the code has it.  Take a traced face [f], the faces [group]
    traced in its connected component, and the positive and the negative
    faces among them.  If one of the two windings is absent, [f] is a room.
    Otherwise the rooms of the component are exactly the faces of one group:
    the group with strictly more faces; on equal counts the negative group
    when its total unsigned area is strictly smaller, and the positive group
    in every other case, equal totals included. *)
Theorem winding_group_kept (nodes : list NodePoint) (walls : list Wall) (f : Face) :
  let rooms := buildRoomsFromWalls nodes walls in
  let group := componentFaces (componentByNode walls) (traceFaces nodes walls) f in
  let positive := positiveFaces group in
  let negative := negativeFaces group in
  In f (traceFaces nodes walls) ->
  (positive = [] \/ negative = [] -> keptAsRoom rooms f) /\
  (positive <> [] -> negative <> [] ->
   ((length negative < length positive)%nat ->
    (keptAsRoom rooms f <-> In f positive)) /\
   ((length positive < length negative)%nat ->
    (keptAsRoom rooms f <-> In f negative)) /\
   (length positive = length negative ->
    (sumAbs negative < sumAbs positive)%Q ->
    (keptAsRoom rooms f <-> In f negative)) /\
   (length positive = length negative ->
    ~ (sumAbs negative < sumAbs positive)%Q ->
    (keptAsRoom rooms f <-> In f positive))).
Proof.
  intros rooms group positive negative Hf. split.
  - intros Hone. apply (keptAsRoom_iff nodes walls f Hf).
    apply keepFace_one_winding, Hone.
  - intros Hp Hn.
    destruct (kept_two_windings nodes walls f Hf Hp Hn) as [Hneg Hpos].
    fold group in Hneg, Hpos. fold negative in Hneg. fold positive in Hpos.
    fold rooms in Hneg, Hpos.
    pose proof (preferNegative_true group) as Hrule.
    fold positive negative in Hrule.
    assert (Hfalse : forall b, (b = true -> False) -> b = false)
      by (intros [|] Hb; [destruct (Hb eq_refl) | reflexivity]).
    split; [|split; [|split]].
    + intros Hlt. apply Hpos, Hfalse. intros Ht.
      destruct (proj1 Hrule Ht) as [?|[? _]]; lia.
    + intros Hlt. apply Hneg, Hrule. left; exact Hlt.
    + intros Heq Harea. apply Hneg, Hrule. right; split; assumption.
    + intros Heq Harea. apply Hpos, Hfalse. intros Ht.
      destruct (proj1 Hrule Ht) as [?|[_ ?]]; [lia | contradiction].
Qed.

Lemma winding_group_kept_witness :
  In squareInner (traceFaces squareNodes squareWalls) /\
  keptAsRoom (buildRoomsFromWalls squareNodes squareWalls) squareInner.
Proof.
  assert (Hin : In squareInner (traceFaces squareNodes squareWalls))
    by (vm_compute; left; reflexivity).
  split; [exact Hin|].
  destruct (winding_group_kept squareNodes squareWalls squareInner Hin)
    as [_ Htwo].
  destruct Htwo as (_ & _ & _ & Htie).
  - vm_compute. discriminate.
  - vm_compute. discriminate.
  - apply Htie.
    + vm_compute. reflexivity.
    + vm_compute. discriminate.
    + vm_compute. left; reflexivity.
Defined.

(** C1, as the specification states it, fails on the single square of
    scenario 1: its two faces, one of each winding, have the same unsigned
    area, so neither group has strictly more faces or a smaller total. *)
Lemma winding_rule_fails_on_square :
  ~ winding_rule_as_stated squareNodes squareWalls.
Proof.
  intros Hrule.
  assert (Hin : In squareInner (traceFaces squareNodes squareWalls))
    by (vm_compute; left; reflexivity).
  specialize (Hrule squareInner Hin). cbv zeta in Hrule.
  destruct Hrule as (G & O & Hcase & Hpref & _).
  - vm_compute. discriminate.
  - vm_compute. discriminate.
  - destruct Hcase as [[-> ->]|[-> ->]]; destruct Hpref as [Hlt|[_ Hlt]];
      vm_compute in Hlt; solve [discriminate Hlt | inversion Hlt as [|? Hle]; inversion Hle].
Qed.

(** ** The tie between the two windings *)

(** C5, as the code has it.  In a component with as many positive as
    negative faces, the faces of the group with the strictly smaller total
    unsigned area are rooms and the faces of the other group are not. *)
Theorem tie_keeps_smaller_area (nodes : list NodePoint) (walls : list Wall)
  (f : Face) (G O : list Face) :
  let rooms := buildRoomsFromWalls nodes walls in
  let group := componentFaces (componentByNode walls) (traceFaces nodes walls) f in
  In f (traceFaces nodes walls) ->
  positiveFaces group <> [] -> negativeFaces group <> [] ->
  length (positiveFaces group) = length (negativeFaces group) ->
  (G = positiveFaces group /\ O = negativeFaces group) \/
  (G = negativeFaces group /\ O = positiveFaces group) ->
  (sumAbs G < sumAbs O)%Q ->
  (forall f', In f' G -> keptAsRoom rooms f') /\
  (forall f', In f' O -> ~ keptAsRoom rooms f').
Proof.
  intros rooms group Hf Hp Hn Hlen Hcase Harea.
  assert (Hmember : forall f', In f' group ->
            (preferNegative group = true ->
             (keptAsRoom rooms f' <-> In f' (negativeFaces group))) /\
            (preferNegative group = false ->
             (keptAsRoom rooms f' <-> In f' (positiveFaces group)))).
  { intros f' Hf'. apply componentFaces_same in Hf' as [Hf' Hsame].
    pose proof (kept_two_windings nodes walls f' Hf') as Hk.
    cbv zeta in Hk. rewrite Hsame in Hk. apply Hk; assumption. }
  assert (Hsub : forall f', In f' (positiveFaces group) \/ In f' (negativeFaces group) ->
                            In f' group).
  { intros f' [Hin|Hin]; apply filter_In in Hin; apply Hin. }
  assert (Hdisjoint : forall f', In f' (positiveFaces group) ->
                                 In f' (negativeFaces group) -> False).
  { intros f' Hpos Hneg. apply filter_In in Hpos as [_ Hpos].
    apply filter_In in Hneg as [_ Hneg]. eapply isPositive_isNegative; eassumption. }
  pose proof (preferNegative_true group) as Hrule.
  destruct Hcase as [[-> ->]|[-> ->]].
  - assert (Hpref : preferNegative group = false).
    { destruct (preferNegative group); [|reflexivity].
      destruct (proj1 Hrule eq_refl) as [?|[_ Hlt]]; [lia|].
      destruct (Qlt_irrefl _ (Qlt_trans _ _ _ Harea Hlt)). }
    split; intros f' Hin.
    + destruct (Hmember f' (Hsub f' (or_introl Hin))) as [_ Hpos].
      apply (proj2 (Hpos Hpref)), Hin.
    + intros Hkept.
      destruct (Hmember f' (Hsub f' (or_intror Hin))) as [_ Hpos].
      apply (Hdisjoint f' (proj1 (Hpos Hpref) Hkept) Hin).
  - assert (Hpref : preferNegative group = true).
    { apply Hrule. right. split; assumption. }
    split; intros f' Hin.
    + destruct (Hmember f' (Hsub f' (or_intror Hin))) as [Hneg _].
      apply (proj2 (Hneg Hpref)), Hin.
    + intros Hkept.
      destruct (Hmember f' (Hsub f' (or_introl Hin))) as [Hneg _].
      apply (Hdisjoint f' Hin (proj1 (Hneg Hpref) Hkept)).
Qed.

Lemma tie_keeps_smaller_area_witness :
  In twinInner (traceFaces twinNodes twinWalls) /\
  keptAsRoom (buildRoomsFromWalls twinNodes twinWalls) twinInner.
Proof.
  assert (Hin : In twinInner (traceFaces twinNodes twinWalls))
    by (vm_compute; right; left; reflexivity).
  split; [exact Hin|].
  pose (group := componentFaces (componentByNode twinWalls)
                                (traceFaces twinNodes twinWalls) twinInner).
  apply (tie_keeps_smaller_area twinNodes twinWalls twinInner
           (positiveFaces group) (negativeFaces group) Hin).
  - vm_compute. discriminate.
  - vm_compute. discriminate.
  - vm_compute. reflexivity.
  - left. split; reflexivity.
  - vm_compute. reflexivity.
  - vm_compute. left; reflexivity.
Defined.

(** C5, as the specification states it, fails.  Two squares share a wall and
    a dangling wall inside the left square breaks its trace: the component
    has one positive face (the right square, area 100) and one negative face
    (the outline, area 200), and the face with the smaller area is the room. *)
Lemma tie_rule_fails_on_twin_squares :
  ~ tie_rule_as_stated twinNodes twinWalls.
Proof.
  intros Hrule.
  assert (Hin : In twinInner (traceFaces twinNodes twinWalls))
    by (vm_compute; right; left; reflexivity).
  pose (group := componentFaces (componentByNode twinWalls)
                                (traceFaces twinNodes twinWalls) twinInner).
  apply (Hrule twinInner Hin ltac:(vm_compute; discriminate)
               ltac:(vm_compute; discriminate) ltac:(vm_compute; reflexivity)
               (positiveFaces group) (negativeFaces group)
               (or_introl (conj eq_refl eq_refl))
               ltac:(vm_compute; reflexivity)
               twinInner ltac:(vm_compute; left; reflexivity)).
  exists twinRoom. split; [vm_compute; left; reflexivity | split; reflexivity].
Qed.

(** ** Offsetting a polygon *)

(** C3.  [offsetPolygon] returns [null] when there are fewer than three
    points or the number of offsets differs from the number of points, and in
    every other case a polygon with exactly as many vertices as [points]. *)
Theorem offsetPolygon_vertex_count (pts : list Vec2) (offsets : list Q) :
  (((length pts < 3)%nat \/ length offsets <> length pts) /\
   offsetPolygon pts offsets = None) \/
  ((3 <= length pts)%nat /\ length offsets = length pts /\
   exists inner, offsetPolygon pts offsets = Some inner /\
                 length inner = length pts).
Proof.
  unfold offsetPolygon.
  destruct (length pts <? 3)%nat eqn:Hfew; simpl orb.
  - left. apply Nat.ltb_lt in Hfew. auto.
  - apply Nat.ltb_ge in Hfew.
    destruct (length offsets =? length pts)%nat eqn:Hsame; simpl negb.
    + apply Nat.eqb_eq in Hsame. right. split; [exact Hfew|]. split; [exact Hsame|].
      eexists. split; [reflexivity|]. rewrite length_map, length_seq. reflexivity.
    + apply Nat.eqb_neq in Hsame. left. auto.
Qed.

(** C4 fails where three consecutive points are on one line.  With all
    offsets zero the vertex (10, 0) in the middle of the lower side comes
    back as (5, 0), the midpoint of itself and the vertex before it: the two
    edges are parallel, and the fallback of [offsetPolygon] starts from
    [prevEdge.a], the far end of the previous edge. *)
Lemma offsetPolygon_zero_moves_collinear_vertex :
  option_map (map reduced) (offsetPolygon collinearPolygon [0; 0; 0; 0; 0]%Q) =
  Some [pointAt 0 0; pointAt 5 0; pointAt 20 0; pointAt 20 10; pointAt 0 10].
Proof. vm_compute. reflexivity. Qed.

(** ** Fallback to the outer polygon *)

Lemma getRoomInnerPolygon_None room m d scale :
  offsetPolygon (points room) (getRoomOffsets room m d scale) = None \/
  (exists inner, offsetPolygon (points room) (getRoomOffsets room m d scale) = Some inner /\
                 (length inner < 3)%nat) ->
  getRoomInnerPolygon room m d scale = None.
Proof.
  unfold getRoomInnerPolygon. intros [->|(inner & -> & Hshort)]; [reflexivity|].
  apply Nat.ltb_lt in Hshort. rewrite Hshort. reflexivity.
Qed.

(** C8.  When [offsetPolygon], applied to the points of the room and its
    half-thickness offsets, returns [null] or fewer than three points,
    [getRoomInnerArea] is the area of the outer polygon over the squared
    scale and [getRoomPerimeter] with [useInnerPolygon] is the perimeter of
    the outer polygon.  Both are total functions: no input makes them fail. *)
Theorem inner_metrics_fall_back (room : Room) (m : WallEdgeMap)
  (defaultWallThickness scale : Q) :
  offsetPolygon (points room)
                (getRoomOffsets room m defaultWallThickness scale) = None \/
  (exists inner,
      offsetPolygon (points room)
                    (getRoomOffsets room m defaultWallThickness scale) = Some inner /\
      (length inner < 3)%nat) ->
  getRoomInnerArea room m defaultWallThickness scale =
    (polygonArea (points room) / (scale * scale))%Q /\
  getRoomPerimeter room m defaultWallThickness scale true =
    match points room with
    | [] => 0%Q
    | _ :: _ => (perimeterSum (points room) / scale)%Q
    end /\
  getRoomPerimeter room m defaultWallThickness scale true =
    getRoomPerimeter room m defaultWallThickness scale false.
Proof.
  intros Hfail. apply getRoomInnerPolygon_None in Hfail.
  unfold getRoomInnerArea, getRoomPerimeter, getRoomArea. rewrite Hfail.
  repeat split.
Qed.

Lemma inner_metrics_fall_back_witness :
  offsetPolygon (points thinRoom) (getRoomOffsets thinRoom [] (1 # 5) 50) = None /\
  getRoomInnerArea thinRoom [] (1 # 5) 50 =
    (polygonArea (points thinRoom) / (50 * 50))%Q.
Proof.
  assert (Hnull : offsetPolygon (points thinRoom)
                                (getRoomOffsets thinRoom [] (1 # 5) 50) = None)
    by reflexivity.
  split; [exact Hnull|].
  exact (proj1 (inner_metrics_fall_back thinRoom [] (1 # 5) 50 (or_introl Hnull))).
Defined.

(** ** Inner length of a wall *)

(** C7 fails when a room gives a wall the inner length 0.  The upper slim
    room is as wide as its two long walls are thick together, so its inner
    edge along wall 1 has length 0; the lower room gives wall 1 the inner
    length 3/4.  The entry of wall 1 is 3/4, not the minimum 0, because
    [existing ? Math.min(existing, length) : length] takes the stored 0 for a
    missing entry; with the two rooms in the other order the entry is 0. *)
Lemma innerLength_zero_is_overwritten :
  slimRooms = [slimUpper; slimLower] /\
  firstWall (buildWallEdgeMap slimWalls) 1 2 = Some (mkWall 1 "" 1 2 (1 # 4)) /\
  option_map (fun inner => Qred (edgeLength inner 0 / 1))
             (getRoomInnerPolygon slimUpper (buildWallEdgeMap slimWalls) (1 # 4) 1)
    = Some 0%Q /\
  option_map (fun inner => Qred (edgeLength inner 0 / 1))
             (getRoomInnerPolygon slimLower (buildWallEdgeMap slimWalls) (1 # 4) 1)
    = Some (3 # 4)%Q /\
  option_map Qred
             (JsMap.get (getInnerLengthByWallId slimRooms (buildWallEdgeMap slimWalls)
                                                (1 # 4) 1) 1)
    = Some (3 # 4)%Q /\
  option_map Qred
             (JsMap.get (getInnerLengthByWallId (rev slimRooms)
                                                (buildWallEdgeMap slimWalls)
                                                (1 # 4) 1) 1)
    = Some 0%Q.
Proof. vm_compute. repeat split. Qed.

(** ** The inner length stored for a wall *)

Lemma lengths_below_refl acc : lengths_below acc acc.
Proof. intros k l Hget. exists l. split; [exact Hget | apply Qle_refl]. Qed.

Lemma lengths_below_trans acc1 acc2 acc3 :
  lengths_below acc1 acc2 -> lengths_below acc2 acc3 -> lengths_below acc1 acc3.
Proof.
  intros H12 H23 k l Hget.
  destruct (H23 k l Hget) as (l2 & Hget2 & Hle2).
  destruct (H12 k l2 Hget2) as (l1 & Hget1 & Hle1).
  exists l1. split; [exact Hget1 | eapply Qle_trans; eassumption].
Qed.

Lemma edge_covered_below m scale room inner acc acc' i :
  lengths_below acc' acc ->
  edge_covered m scale room inner acc i -> edge_covered m scale room inner acc' i.
Proof.
  intros Hbelow Hcov wall Hwall.
  destruct (Hcov wall Hwall) as (l & Hget & Hle).
  destruct (Hbelow _ _ Hget) as (l' & Hget' & Hle').
  exists l'. split; [exact Hget' | eapply Qle_trans; eassumption].
Qed.

Lemma innerLength_step_edgeWall room m scale inner acc i :
  innerLength_step room m scale inner acc i =
  match edgeWall m room i with
  | None => acc
  | Some wall =>
      match JsMap.get acc (wall_id wall) with
      | Some existing =>
          JsMap.set acc (wall_id wall)
                    (if Qeq_bool existing 0 then (edgeLength inner i / scale)%Q
                     else Qmin existing (edgeLength inner i / scale))
      | None => JsMap.set acc (wall_id wall) (edgeLength inner i / scale)%Q
      end
  end.
Proof.
  unfold innerLength_step, edgeWall.
  destruct (nth_error (nodeIds room) i); [|reflexivity].
  destruct (nth_error (nodeIds room) _); reflexivity.
Qed.

(** One round of the loop, when no stored length is 0: the stored lengths
    stay positive, none grows, and the wall of the edge is charged. *)
Lemma innerLength_step_spec room m scale inner acc i :
  lengths_positive acc ->
  (0 < edgeLength inner i / scale)%Q ->
  lengths_positive (innerLength_step room m scale inner acc i) /\
  lengths_below (innerLength_step room m scale inner acc i) acc /\
  edge_covered m scale room inner (innerLength_step room m scale inner acc i) i.
Proof.
  intros Hpos Hlen. rewrite innerLength_step_edgeWall. unfold edge_covered.
  destruct (edgeWall m room i) as [wall|]; [|split; [exact Hpos|split];
    [apply lengths_below_refl | discriminate]].
  set (len := (edgeLength inner i / scale)%Q) in *.
  destruct (JsMap.get acc (wall_id wall)) as [existing|] eqn:Hget.
  - pose proof (Hpos _ _ Hget) as Hex.
    assert (Hnz : Qeq_bool existing 0 = false).
    { destruct (Qeq_bool existing 0) eqn:E; [|reflexivity].
      apply Qeq_bool_iff in E. rewrite E in Hex. destruct (Qlt_irrefl _ Hex). }
    rewrite Hnz. split; [|split].
    + intros k l. destruct (Z.eq_dec (wall_id wall) k) as [<-|Hne].
      * rewrite get_set_same. intros [= <-]. apply Q.min_glb_lt; assumption.
      * rewrite get_set_other by exact Hne. apply Hpos.
    + intros k l Hk. destruct (Z.eq_dec (wall_id wall) k) as [<-|Hne].
      * rewrite get_set_same. exists (Qmin existing len).
        split; [reflexivity|]. rewrite Hget in Hk. injection Hk as <-.
        apply Q.le_min_l.
      * rewrite get_set_other by exact Hne. exists l.
        split; [exact Hk | apply Qle_refl].
    + intros wall' [= <-]. rewrite get_set_same. exists (Qmin existing len).
      split; [reflexivity | apply Q.le_min_r].
  - split; [|split].
    + intros k l. destruct (Z.eq_dec (wall_id wall) k) as [<-|Hne].
      * rewrite get_set_same. intros [= <-]. exact Hlen.
      * rewrite get_set_other by exact Hne. apply Hpos.
    + intros k l Hk. destruct (Z.eq_dec (wall_id wall) k) as [<-|Hne].
      * congruence.
      * rewrite get_set_other by exact Hne. exists l.
        split; [exact Hk | apply Qle_refl].
    + intros wall' [= <-]. rewrite get_set_same. exists len.
      split; [reflexivity | apply Qle_refl].
Qed.

Lemma innerLength_steps_spec room m scale inner (indices : list nat) :
  forall acc,
    lengths_positive acc ->
    (forall i, In i indices -> (0 < edgeLength inner i / scale)%Q) ->
    let acc' := fold_left (innerLength_step room m scale inner) indices acc in
    lengths_positive acc' /\ lengths_below acc' acc /\
    forall i, In i indices -> edge_covered m scale room inner acc' i.
Proof.
  induction indices as [|i indices IH]; intros acc Hpos Hlen; simpl.
  - split; [exact Hpos|]. split; [apply lengths_below_refl | intros i []].
  - destruct (innerLength_step_spec room m scale inner acc i Hpos)
      as (Hpos1 & Hbelow1 & Hcov1); [apply Hlen; left; reflexivity|].
    destruct (IH _ Hpos1) as (Hpos' & Hbelow' & Hcov');
      [intros j Hj; apply Hlen; right; exact Hj|].
    split; [exact Hpos'|]. split; [eapply lengths_below_trans; eassumption|].
    intros j [<-|Hj]; [|apply Hcov', Hj].
    eapply edge_covered_below; eassumption.
Qed.

(** One room whose inner edges all have a positive length. *)
Lemma innerLength_room_spec m d scale acc room :
  lengths_positive acc ->
  positiveInnerEdges m d scale room ->
  let acc' := innerLength_room m d scale acc room in
  lengths_positive acc' /\ lengths_below acc' acc /\
  forall i wall,
    (i < length (points room))%nat -> edgeWall m room i = Some wall ->
    exists l len,
      roomInnerLength m d scale room i = Some len /\
      JsMap.get acc' (wall_id wall) = Some l /\ (l <= len)%Q.
Proof.
  intros Hpos (inner & Hinner & Hsame & Hlen).
  unfold innerLength_room, roomInnerLength. rewrite Hinner.
  rewrite Hsame, Nat.eqb_refl. simpl negb. cbv iota. rewrite <- Hsame.
  destruct (innerLength_steps_spec room m scale inner (seq 0 (length inner)) acc Hpos)
    as (Hpos' & Hbelow' & Hcov').
  { intros i Hi. apply in_seq in Hi. apply Hlen. lia. }
  split; [exact Hpos'|]. split; [exact Hbelow'|].
  intros i wall Hi Hwall.
  assert (Hin : In i (seq 0 (length inner))) by (apply in_seq; lia).
  destruct (Hcov' i Hin wall Hwall) as (l & Hget & Hle).
  exists l, (edgeLength inner i / scale)%Q. auto.
Qed.

(** All rooms: the entry of a wall is at most the inner length of every edge
    that is charged to it. *)
Lemma getInnerLengthByWallId_below m d scale rooms :
  (forall room, In room rooms -> positiveInnerEdges m d scale room) ->
  forall room i wall,
    In room rooms ->
    (i < length (points room))%nat -> edgeWall m room i = Some wall ->
    exists l len,
      roomInnerLength m d scale room i = Some len /\
      JsMap.get (getInnerLengthByWallId rooms m d scale) (wall_id wall) = Some l /\
      (0 < l)%Q /\ (l <= len)%Q.
Proof.
  unfold getInnerLengthByWallId.
  enough (Hgen : forall acc,
    lengths_positive acc ->
    (forall room, In room rooms -> positiveInnerEdges m d scale room) ->
    let acc' := fold_left (innerLength_room m d scale) rooms acc in
    lengths_positive acc' /\ lengths_below acc' acc /\
    forall room i wall,
      In room rooms ->
      (i < length (points room))%nat -> edgeWall m room i = Some wall ->
      exists l len,
        roomInnerLength m d scale room i = Some len /\
        JsMap.get acc' (wall_id wall) = Some l /\ (l <= len)%Q).
  { intros Hgood room i wall Hroom Hi Hwall.
    destruct (Hgen JsMap.empty) as (Hpos & _ & Hcov); [intros k l [=] | exact Hgood |].
    destruct (Hcov room i wall Hroom Hi Hwall) as (l & len & Hlen & Hget & Hle).
    exists l, len. split; [exact Hlen|]. split; [exact Hget|].
    split; [exact (Hpos _ _ Hget) | exact Hle]. }
  induction rooms as [|r rooms IH]; intros acc Hpos Hgood; simpl.
  - split; [exact Hpos|]. split; [apply lengths_below_refl | intros ? ? ? []].
  - destruct (innerLength_room_spec m d scale acc r Hpos)
      as (Hpos1 & Hbelow1 & Hcov1); [apply Hgood; left; reflexivity|].
    destruct (IH _ Hpos1) as (Hpos' & Hbelow' & Hcov');
      [intros r' Hr'; apply Hgood; right; exact Hr'|].
    split; [exact Hpos'|]. split; [eapply lengths_below_trans; eassumption|].
    intros room i wall [<-|Hroom] Hi Hwall; [|exact (Hcov' room i wall Hroom Hi Hwall)].
    destruct (Hcov1 i wall Hi Hwall) as (l & len & Hlen & Hget & Hle).
    destruct (Hbelow' _ _ Hget) as (l' & Hget' & Hle').
    exists l', len. split; [exact Hlen|]. split; [exact Hget'|].
    eapply Qle_trans; eassumption.
Qed.

(** ** Lengths along the axes *)

Lemma Qsqrt_eq (p q : Q) : (p == q)%Q -> Qsqrt p = Qsqrt q.
Proof. intros Heq. unfold Qsqrt. rewrite (Qred_complete p q Heq). reflexivity. Qed.

Lemma Qsqrt_square_reduced (r : Q) :
  Z.gcd (Qnum r) (Zpos (Qden r)) = 1 -> Qsqrt (r * r) = Qabs r.
Proof.
  intros Hgcd. destruct r as [n p]. simpl in Hgcd.
  assert (Hred : Qred ((n # p) * (n # p)) = (n * n) # (p * p)).
  { apply Qred_identity. simpl. rewrite Pos2Z.inj_mul.
    apply Z.coprime_mul_l; apply Z.coprime_mul_r; exact Hgcd. }
  unfold Qsqrt. rewrite Hred. simpl Qnum. simpl Qden.
  rewrite Pos2Z.inj_mul, <- (Z.abs_square n).
  rewrite !Z.sqrt_square by lia. rewrite !Z.eqb_refl. simpl andb. cbv iota.
  reflexivity.
Qed.

Lemma Qsqrt_square (d : Q) : (Qsqrt (d * d) == Qabs d)%Q.
Proof.
  assert (Heq : (d * d == Qred d * Qred d)%Q) by (rewrite Qred_correct; reflexivity).
  rewrite (Qsqrt_eq _ _ Heq), Qsqrt_square_reduced by apply gcd_Qred.
  rewrite Qred_correct. reflexivity.
Qed.

Lemma hypot_x (dx dy : Q) : (dy == 0)%Q -> (hypot dx dy == Qabs dx)%Q.
Proof.
  intros Hdy. unfold hypot.
  assert (Heq : (dx * dx + dy * dy == dx * dx)%Q) by (rewrite Hdy; ring).
  rewrite (Qsqrt_eq _ _ Heq). apply Qsqrt_square.
Qed.

Lemma hypot_y (dx dy : Q) : (dx == 0)%Q -> (hypot dx dy == Qabs dy)%Q.
Proof.
  intros Hdx. unfold hypot.
  assert (Heq : (dx * dx + dy * dy == dy * dy)%Q) by (rewrite Hdx; ring).
  rewrite (Qsqrt_eq _ _ Heq). apply Qsqrt_square.
Qed.

Lemma distance_x (p q : Vec2) : (y p == y q)%Q -> (distance p q == Qabs (x p - x q))%Q.
Proof. intros Hy. apply hypot_x. rewrite Hy. ring. Qed.

Lemma distance_y (p q : Vec2) : (x p == x q)%Q -> (distance p q == Qabs (y p - y q))%Q.
Proof. intros Hx. apply hypot_y. rewrite Hx. ring. Qed.

Lemma Qltb_ge (p q : Q) : (q <= p)%Q -> Qltb p q = false.
Proof.
  intros Hle. destruct (Qltb p q) eqn:E; [|reflexivity].
  apply Qltb_lt in E. destruct (Qlt_irrefl _ (Qle_lt_trans _ _ _ Hle E)).
Qed.

Lemma EPS_pos : (0 < EPS)%Q.
Proof. reflexivity. Qed.

Lemma Qabs_EPS_nonzero (q : Q) : (EPS <= Qabs q)%Q -> ~ (q == 0)%Q.
Proof.
  intros Hle Hq. rewrite Hq in Hle. simpl in Hle.
  exact (Qlt_irrefl _ (Qlt_le_trans _ _ _ EPS_pos Hle)).
Qed.

(** ** Mitred corners of axis-aligned edges *)

(** A line along y meets a line along x where the first has its x and the
    second its y. *)
Lemma lineIntersection_vh (p1 d1 p2 d2 : Vec2) :
  (x d1 == 0)%Q -> (y d2 == 0)%Q -> (EPS <= Qabs (y d1 * x d2))%Q ->
  exists v, lineIntersection p1 d1 p2 d2 = Some v /\
            (x v == x p1)%Q /\ (y v == y p2)%Q.
Proof.
  intros Hx Hy Heps. unfold lineIntersection.
  pose proof (Qabs_EPS_nonzero _ Heps) as Hnz.
  assert (Hcross : (x d1 * y d2 - y d1 * x d2 == - (y d1 * x d2))%Q)
    by (rewrite Hx, Hy; ring).
  rewrite Qltb_ge by (rewrite Hcross, Qabs_opp; exact Heps).
  eexists. split; [reflexivity|]. simpl. split.
  - rewrite Hx. ring.
  - rewrite Hcross, Hy. field.
    split; intros H0; apply Hnz; rewrite H0; ring.
Qed.

(** A line along x meets a line along y where the second has its x and the
    first its y. *)
Lemma lineIntersection_hv (p1 d1 p2 d2 : Vec2) :
  (y d1 == 0)%Q -> (x d2 == 0)%Q -> (EPS <= Qabs (x d1 * y d2))%Q ->
  exists v, lineIntersection p1 d1 p2 d2 = Some v /\
            (x v == x p2)%Q /\ (y v == y p1)%Q.
Proof.
  intros Hy Hx Heps. unfold lineIntersection.
  pose proof (Qabs_EPS_nonzero _ Heps) as Hnz.
  assert (Hcross : (x d1 * y d2 - y d1 * x d2 == x d1 * y d2)%Q)
    by (rewrite Hx, Hy; ring).
  rewrite Qltb_ge by (rewrite Hcross; exact Heps).
  eexists. split; [reflexivity|]. simpl. split.
  - rewrite Hcross, Hx. field.
    split; intros H0; apply Hnz; rewrite H0; ring.
  - rewrite Hy. ring.
Qed.

(** The offset point of an edge of length [len], for a positive winding. *)
Lemma edgeOf_p (pa pb : Vec2) (o len : Q) :
  (hypot (x pb - x pa) (y pb - y pa) == len)%Q -> (0 < len)%Q ->
  (x (edge_p (edgeOf pa pb o 1)) == x pa - (y pb - y pa) / len * o)%Q /\
  (y (edge_p (edgeOf pa pb o 1)) == y pa + (x pb - x pa) / len * o)%Q.
Proof.
  intros Hlen Hpos. unfold edgeOf. simpl.
  assert (Hnz : ~ (len == 0)%Q) by (intros H0; rewrite H0 in Hpos; discriminate Hpos).
  destruct (Qeq_bool (hypot (x pb - x pa) (y pb - y pa)) 0) eqn:E.
  - apply Qeq_bool_iff in E. rewrite Hlen in E. contradiction.
  - rewrite Hlen. split; field; exact Hnz.
Qed.

Lemma joinEdges_vh (e1 e2 : Edge) :
  (x (edge_d e1) == 0)%Q -> (y (edge_d e2) == 0)%Q ->
  (EPS <= Qabs (y (edge_d e1) * x (edge_d e2)))%Q ->
  (x (joinEdges e1 e2) == x (edge_p e1))%Q /\ (y (joinEdges e1 e2) == y (edge_p e2))%Q.
Proof.
  intros Hx Hy Heps. unfold joinEdges.
  destruct (lineIntersection_vh (edge_p e1) (edge_d e1) (edge_p e2) (edge_d e2)
              Hx Hy Heps) as (v & -> & Hv).
  exact Hv.
Qed.

Lemma joinEdges_hv (e1 e2 : Edge) :
  (y (edge_d e1) == 0)%Q -> (x (edge_d e2) == 0)%Q ->
  (EPS <= Qabs (x (edge_d e1) * y (edge_d e2)))%Q ->
  (x (joinEdges e1 e2) == x (edge_p e2))%Q /\ (y (joinEdges e1 e2) == y (edge_p e1))%Q.
Proof.
  intros Hy Hx Heps. unfold joinEdges.
  destruct (lineIntersection_hv (edge_p e1) (edge_d e1) (edge_p e2) (edge_d e2)
              Hy Hx Heps) as (v & -> & Hv).
  exact Hv.
Qed.

Lemma Qabs_value (q r : Q) :
  (q == r \/ q == - r)%Q -> (0 <= r)%Q -> (Qabs q == r)%Q.
Proof. intros [Hq|Hq] Hr; rewrite Hq, ?Qabs_opp; apply Qabs_pos, Hr. Qed.

Lemma Qdiv_lt_scale (p q scale : Q) :
  (0 < scale)%Q -> (0 < p)%Q -> (p < q)%Q ->
  (0 < p / scale)%Q /\ (p / scale < q / scale)%Q.
Proof.
  intros Hscale Hp Hpq. pose proof (Qinv_lt_0_compat _ Hscale) as Hinv.
  unfold Qdiv. split.
  - apply Qmult_lt_0_compat; assumption.
  - apply Qmult_lt_r; assumption.
Qed.

(** An edge along x that is shorter than another one, both in meters. *)
Lemma shorter_along_x (u v p q : Vec2) (inner outer scale : Q) :
  (y u == y v)%Q -> (y p == y q)%Q ->
  (x u - x v == inner \/ x u - x v == - inner)%Q ->
  (x p - x q == outer \/ x p - x q == - outer)%Q ->
  (0 < scale)%Q -> (0 < inner)%Q -> (inner < outer)%Q ->
  (0 < distance u v / scale)%Q /\ (distance u v / scale < distance p q / scale)%Q.
Proof.
  intros Hu Hp Hin Hout Hscale Hpos Hlt.
  rewrite (distance_x u v Hu), (distance_x p q Hp).
  rewrite (Qabs_value _ inner Hin), (Qabs_value _ outer Hout) by lra.
  apply Qdiv_lt_scale; assumption.
Qed.

Lemma shorter_along_y (u v p q : Vec2) (inner outer scale : Q) :
  (x u == x v)%Q -> (x p == x q)%Q ->
  (y u - y v == inner \/ y u - y v == - inner)%Q ->
  (y p - y q == outer \/ y p - y q == - outer)%Q ->
  (0 < scale)%Q -> (0 < inner)%Q -> (inner < outer)%Q ->
  (0 < distance u v / scale)%Q /\ (distance u v / scale < distance p q / scale)%Q.
Proof.
  intros Hu Hp Hin Hout Hscale Hpos Hlt.
  rewrite (distance_y u v Hu), (distance_y p q Hp).
  rewrite (Qabs_value _ inner Hin), (Qabs_value _ outer Hout) by lra.
  apply Qdiv_lt_scale; assumption.
Qed.

(** ** The inner polygon of a rectangle *)

Section Rectangle.
Variables p0 p1 p2 p3 : Vec2.
Variables o0 o1 o2 o3 : Q.

Hypothesis Hy01 : (y p0 == y p1)%Q.
Hypothesis Hx12 : (x p1 == x p2)%Q.
Hypothesis Hy23 : (y p2 == y p3)%Q.
Hypothesis Hx30 : (x p3 == x p0)%Q.
Hypothesis Hwide : (x p0 < x p1)%Q.
Hypothesis Hhigh : (y p1 < y p2)%Q.
Hypothesis Hcorner : (EPS <= (x p1 - x p0) * (y p2 - y p1))%Q.

Let e0 := edgeOf p0 p1 o0 1.
Let e1 := edgeOf p1 p2 o1 1.
Let e2 := edgeOf p2 p3 o2 1.
Let e3 := edgeOf p3 p0 o3 1.

Lemma rectangle_e0 :
  (x (edge_p e0) == x p0)%Q /\ (y (edge_p e0) == y p0 + o0)%Q.
Proof.
  destruct (edgeOf_p p0 p1 o0 (x p1 - x p0)) as [Hx Hy].
  - rewrite hypot_x by (rewrite Hy01; ring). apply Qabs_pos. lra.
  - lra.
  - fold e0 in Hx, Hy. rewrite Hx, Hy. split.
    + rewrite <- Hy01. field. lra.
    + field. lra.
Qed.

Lemma rectangle_e1 :
  (x (edge_p e1) == x p1 - o1)%Q /\ (y (edge_p e1) == y p1)%Q.
Proof.
  destruct (edgeOf_p p1 p2 o1 (y p2 - y p1)) as [Hx Hy].
  - rewrite hypot_y by (rewrite Hx12; ring). apply Qabs_pos. lra.
  - lra.
  - fold e1 in Hx, Hy. rewrite Hx, Hy. split.
    + field. lra.
    + rewrite <- Hx12. field. lra.
Qed.

Lemma rectangle_e2 :
  (x (edge_p e2) == x p2)%Q /\ (y (edge_p e2) == y p2 - o2)%Q.
Proof.
  destruct (edgeOf_p p2 p3 o2 (x p1 - x p0)) as [Hx Hy].
  - rewrite hypot_x by (rewrite Hy23; ring).
    rewrite Qabs_neg by lra. rewrite Hx30, <- Hx12. ring.
  - lra.
  - fold e2 in Hx, Hy. rewrite Hx, Hy. split.
    + rewrite <- Hy23. field. lra.
    + rewrite Hx30, <- Hx12. field. lra.
Qed.

Lemma rectangle_e3 :
  (x (edge_p e3) == x p3 + o3)%Q /\ (y (edge_p e3) == y p3)%Q.
Proof.
  destruct (edgeOf_p p3 p0 o3 (y p2 - y p1)) as [Hx Hy].
  - rewrite hypot_y by (rewrite Hx30; ring).
    rewrite Qabs_neg by lra. rewrite <- Hy23, Hy01. ring.
  - lra.
  - fold e3 in Hx, Hy. rewrite Hx, Hy. split.
    + rewrite <- Hy23, Hy01. field. lra.
    + rewrite Hx30. field. lra.
Qed.

Lemma rectangle_area : (0 <= polygonAreaSigned [p0; p1; p2; p3])%Q.
Proof.
  unfold polygonAreaSigned, shoelace. cbn [shoelace_from].
  assert (Harea : ((x p0 * y p1 - x p1 * y p0 +
                    (x p1 * y p2 - x p2 * y p1 +
                     (x p2 * y p3 - x p3 * y p2 +
                      (x p3 * y p0 - x p0 * y p3 + 0)))) / 2
                   == (x p1 - x p0) * (y p2 - y p1))%Q).
  { rewrite <- Hy23, <- Hx12, Hx30, Hy01. field. }
  rewrite Harea. apply Qmult_le_0_compat; lra.
Qed.

Lemma rectangle_offsetPolygon :
  offsetPolygon [p0; p1; p2; p3] [o0; o1; o2; o3] =
  Some [joinEdges e3 e0; joinEdges e0 e1; joinEdges e1 e2; joinEdges e2 e3].
Proof.
  unfold offsetPolygon.
  change ((length [p0; p1; p2; p3] <? 3)%nat
          || negb (length [o0; o1; o2; o3] =? length [p0; p1; p2; p3])%nat)
    with false.
  cbv iota zeta.
  rewrite (proj2 (Qle_bool_iff _ _) rectangle_area). reflexivity.
Qed.

Lemma rectangle_corner_abs (q : Q) :
  (q == (x p1 - x p0) * (y p2 - y p1) \/ q == - ((x p1 - x p0) * (y p2 - y p1)))%Q ->
  (EPS <= Qabs q)%Q.
Proof.
  assert (Hnonneg : (0 <= (x p1 - x p0) * (y p2 - y p1))%Q)
    by (apply Qmult_le_0_compat; lra).
  intros [Hq|Hq]; rewrite Hq, ?Qabs_opp, Qabs_pos; assumption.
Qed.

(** The four inner vertices. *)
Lemma rectangle_vertices :
  ((x (joinEdges e3 e0) == x p0 + o3 /\ y (joinEdges e3 e0) == y p0 + o0) /\
   (x (joinEdges e0 e1) == x p1 - o1 /\ y (joinEdges e0 e1) == y p0 + o0) /\
   (x (joinEdges e1 e2) == x p1 - o1 /\ y (joinEdges e1 e2) == y p2 - o2) /\
   (x (joinEdges e2 e3) == x p0 + o3 /\ y (joinEdges e2 e3) == y p2 - o2))%Q.
Proof.
  destruct rectangle_e0 as [Hx0 Hy0], rectangle_e1 as [Hx1 Hy1],
           rectangle_e2 as [Hx2 Hy2], rectangle_e3 as [Hx3 Hy3].
  split; [|split; [|split]].
  - destruct (joinEdges_vh e3 e0) as [Hx Hy].
    + change (x p0 - x p3 == 0)%Q. lra.
    + change (y p1 - y p0 == 0)%Q. lra.
    + change (EPS <= Qabs ((y p0 - y p3) * (x p1 - x p0)))%Q.
      apply rectangle_corner_abs. right. rewrite <- Hy23, Hy01. ring.
    + rewrite Hx, Hy, Hx3, Hy0, Hx30. split; reflexivity.
  - destruct (joinEdges_hv e0 e1) as [Hx Hy].
    + change (y p1 - y p0 == 0)%Q. lra.
    + change (x p2 - x p1 == 0)%Q. lra.
    + change (EPS <= Qabs ((x p1 - x p0) * (y p2 - y p1)))%Q.
      apply rectangle_corner_abs. left. reflexivity.
    + rewrite Hx, Hy, Hx1, Hy0. split; reflexivity.
  - destruct (joinEdges_vh e1 e2) as [Hx Hy].
    + change (x p2 - x p1 == 0)%Q. lra.
    + change (y p3 - y p2 == 0)%Q. lra.
    + change (EPS <= Qabs ((y p2 - y p1) * (x p3 - x p2)))%Q.
      apply rectangle_corner_abs. right. rewrite Hx30, <- Hx12. ring.
    + rewrite Hx, Hy, Hx1, Hy2. split; reflexivity.
  - destruct (joinEdges_hv e2 e3) as [Hx Hy].
    + change (y p3 - y p2 == 0)%Q. lra.
    + change (x p0 - x p3 == 0)%Q. lra.
    + change (EPS <= Qabs ((x p3 - x p2) * (y p0 - y p3)))%Q.
      apply rectangle_corner_abs. left. rewrite Hx30, <- Hx12, <- Hy23, Hy01. ring.
    + rewrite Hx, Hy, Hx3, Hy2, Hx30, Hy23. split; reflexivity.
Qed.

Variable scale : Q.
Hypothesis Hscale : (0 < scale)%Q.
Hypothesis Hthick : (0 < o0 /\ 0 < o1 /\ 0 < o2 /\ 0 < o3)%Q.
Hypothesis Hfit_x : (o1 + o3 < x p1 - x p0)%Q.
Hypothesis Hfit_y : (o0 + o2 < y p2 - y p1)%Q.

(** Every inner edge has a positive length, less than the outer edge. *)
Lemma rectangle_edge_lengths (i : nat) :
  (i < 4)%nat ->
  let inner := [joinEdges e3 e0; joinEdges e0 e1; joinEdges e1 e2; joinEdges e2 e3] in
  (0 < edgeLength inner i / scale)%Q /\
  (edgeLength inner i / scale < edgeLength [p0; p1; p2; p3] i / scale)%Q.
Proof.
  intros Hi inner.
  destruct rectangle_vertices
    as ((Hx0 & Hy0) & (Hx1 & Hy1) & (Hx2 & Hy2) & (Hx3 & Hy3)).
  destruct Hthick as (Ho0 & Ho1 & Ho2 & Ho3).
  destruct i as [|[|[|[|i]]]]; [| | | |lia].
  - change (edgeLength inner 0) with (distance (joinEdges e3 e0) (joinEdges e0 e1)).
    change (edgeLength [p0; p1; p2; p3] 0) with (distance p0 p1).
    apply (shorter_along_x _ _ _ _ (x p1 - x p0 - o1 - o3) (x p1 - x p0));
      lra.
  - change (edgeLength inner 1) with (distance (joinEdges e0 e1) (joinEdges e1 e2)).
    change (edgeLength [p0; p1; p2; p3] 1) with (distance p1 p2).
    apply (shorter_along_y _ _ _ _ (y p2 - y p1 - o0 - o2) (y p2 - y p1));
      lra.
  - change (edgeLength inner 2) with (distance (joinEdges e1 e2) (joinEdges e2 e3)).
    change (edgeLength [p0; p1; p2; p3] 2) with (distance p2 p3).
    apply (shorter_along_x _ _ _ _ (x p1 - x p0 - o1 - o3) (x p1 - x p0));
      lra.
  - change (edgeLength inner 3) with (distance (joinEdges e2 e3) (joinEdges e3 e0)).
    change (edgeLength [p0; p1; p2; p3] 3) with (distance p3 p0).
    apply (shorter_along_y _ _ _ _ (y p2 - y p1 - o0 - o2) (y p2 - y p1));
      lra.
Qed.
End Rectangle.

Lemma list_of_four {A : Type} (l : list A) (d : A) :
  length l = 4%nat -> l = [nth 0 l d; nth 1 l d; nth 2 l d; nth 3 l d].
Proof.
  destruct l as [|v0 [|v1 [|v2 [|v3 [|v4 l]]]]]; try discriminate. reflexivity.
Qed.

(** A rectangular room: its inner polygon is computed, and each inner edge
    has a positive length less than the outer edge. *)
Lemma rectangle_room_lengths m d scale room :
  (0 < scale)%Q -> rectangleRoom room -> thicknessFits m d scale room ->
  positiveInnerEdges m d scale room /\
  forall i, (i < 4)%nat ->
    exists len, roomInnerLength m d scale room i = Some len /\
                (len < edgeLength (points room) i / scale)%Q.
Proof.
  intros Hscale (n0 & n1 & n2 & n3 & p0 & p1 & p2 & p3 & Hids & Hpts & Haxes & Hsize)
         Hfit.
  destruct Haxes as (Hy01 & Hx12 & Hy23 & Hx30). destruct Hsize as [Hwide Hhigh].
  unfold thicknessFits, roomWidth, roomHeight, edgeOffset in Hfit.
  rewrite Hpts in Hfit. cbn [nth] in Hfit.
  destruct Hfit as (Ho0 & Ho1 & Ho2 & Ho3 & Hfit_x & Hfit_y & Hcorner).
  assert (Hoffs : getRoomOffsets room m d scale =
                  [nth 0 (getRoomOffsets room m d scale) 0%Q;
                   nth 1 (getRoomOffsets room m d scale) 0%Q;
                   nth 2 (getRoomOffsets room m d scale) 0%Q;
                   nth 3 (getRoomOffsets room m d scale) 0%Q]).
  { apply list_of_four. unfold getRoomOffsets.
    rewrite length_map, length_seq, Hids. reflexivity. }
  set (o0 := nth 0 (getRoomOffsets room m d scale) 0%Q) in *.
  set (o1 := nth 1 (getRoomOffsets room m d scale) 0%Q) in *.
  set (o2 := nth 2 (getRoomOffsets room m d scale) 0%Q) in *.
  set (o3 := nth 3 (getRoomOffsets room m d scale) 0%Q) in *.
  assert (Hinner : getRoomInnerPolygon room m d scale =
                   Some [joinEdges (edgeOf p3 p0 o3 1) (edgeOf p0 p1 o0 1);
                         joinEdges (edgeOf p0 p1 o0 1) (edgeOf p1 p2 o1 1);
                         joinEdges (edgeOf p1 p2 o1 1) (edgeOf p2 p3 o2 1);
                         joinEdges (edgeOf p2 p3 o2 1) (edgeOf p3 p0 o3 1)]).
  { unfold getRoomInnerPolygon.
    rewrite Hpts, Hoffs, (rectangle_offsetPolygon p0 p1 p2 p3 o0 o1 o2 o3) by assumption.
    reflexivity. }
  pose proof (fun i => rectangle_edge_lengths p0 p1 p2 p3 o0 o1 o2 o3
                         Hy01 Hx12 Hy23 Hx30 Hwide Hhigh Hcorner scale Hscale
                         (conj Ho0 (conj Ho1 (conj Ho2 Ho3))) Hfit_x Hfit_y i)
    as Hlen.
  cbv zeta in Hlen. split.
  - eexists. split; [exact Hinner|]. rewrite Hpts. split; [reflexivity|].
    intros i Hi. apply Hlen, Hi.
  - intros i Hi. unfold roomInnerLength. rewrite Hinner, Hpts.
    eexists. split; [reflexivity | apply Hlen, Hi].
Qed.

Lemma edgeWall_index m room i wall :
  edgeWall m room i = Some wall -> (i < length (nodeIds room))%nat.
Proof.
  unfold edgeWall. destruct (nth_error (nodeIds room) i) eqn:Hnth; [|discriminate].
  intros _. apply nth_error_Some. congruence.
Qed.

(** ** The inner edge between two convex corners *)

Lemma prev_index_next (i n : nat) :
  (i < n)%nat -> (((i + n - 1) mod n + 1) mod n = i)%nat.
Proof.
  intros Hi. destruct i as [|i].
  - rewrite Nat.add_0_l, (Nat.mod_small (n - 1) n) by lia.
    replace (n - 1 + 1)%nat with n by lia. apply Nat.Div0.mod_same.
  - replace (S i + n - 1)%nat with (i + 1 * n)%nat by lia.
    rewrite Nat.Div0.mod_add, (Nat.mod_small i n) by lia.
    rewrite (Nat.mod_small (i + 1) n) by lia. lia.
Qed.


Lemma getRoomOffsets_length (room : Room) (m : WallEdgeMap) (d scale : Q) :
  length (getRoomOffsets room m d scale) = length (nodeIds room).
Proof. unfold getRoomOffsets. rewrite length_map, length_seq. reflexivity. Qed.








Section ConvexEdge.
Variables pp pa pb pc : Vec2.
Variables op oe on s : Q.

Hypothesis Hs : s = 1%Q \/ s = (-1)%Q.
Hypothesis HconvexA :
  (EPS <= s * ((x pa - x pp) * (y pb - y pa) - (y pa - y pp) * (x pb - x pa)))%Q.
Hypothesis HconvexB :
  (EPS <= s * ((x pb - x pa) * (y pc - y pb) - (y pb - y pa) * (x pc - x pb)))%Q.




End ConvexEdge.








(** Convex corners alone are not enough either.  In the widening room all
    four corners are convex, but those of wall 1 are obtuse and wall 1 is
    thicker than its neighbours: its inner face lies where the room is
    wider.  The inner length of wall 1 is 11.25 m, its outer length 10 m.
    Hence the right angles of the positive statement. *)
Lemma inner_length_longer_in_widening_room :
  wideningRooms = [wideningRoom] /\
  (forall i, (i < 4)%nat -> convexCorner (points wideningRoom) i) /\
  exists len outer,
    JsMap.get (getInnerLengthByWallId wideningRooms (buildWallEdgeMap wideningWalls)
                                      (1 # 5) 10) 1 = Some len /\
    outerLength wideningNodes (mkWall 1 "" 1 2 2) 10 = Some outer /\
    (outer < len)%Q.
Proof.
  split; [vm_compute; reflexivity|]. split.
  - intros i Hi. destruct i as [|[|[|[|i]]]]; [| | | |lia]; vm_compute; discriminate.
  - eexists. eexists.
    split; [vm_compute; reflexivity|]. split; [vm_compute; reflexivity|].
    reflexivity.
Qed.

(** ** Where the stored lengths come from *)

Lemma Qmin_cases (p q : Q) : Qmin p q = p \/ Qmin p q = q.
Proof.
  unfold Qmin, GenericMinMax.gmin. destruct (p ?= q)%Q; auto.
Qed.

Lemma innerLength_step_origin room m scale inner acc i k l :
  JsMap.get (innerLength_step room m scale inner acc i) k = Some l ->
  JsMap.get acc k = Some l \/
  exists wall, edgeWall m room i = Some wall /\ wall_id wall = k /\
               l = (edgeLength inner i / scale)%Q.
Proof.
  rewrite innerLength_step_edgeWall.
  destruct (edgeWall m room i) as [wall|]; [|auto].
  destruct (Z.eq_dec (wall_id wall) k) as [<-|Hne].
  - destruct (JsMap.get acc (wall_id wall)) as [existing|] eqn:Hget;
      rewrite get_set_same; intros [= <-].
    + destruct (Qeq_bool existing 0); [right; eauto|].
      destruct (Qmin_cases existing (edgeLength inner i / scale)) as [->| ->];
        [left; reflexivity | right; eauto].
    + right. eauto.
  - destruct (JsMap.get acc (wall_id wall));
      rewrite get_set_other by exact Hne; auto.
Qed.

(** An entry of the result is the inner length that some room, whose inner
    polygon is computed, gives to one of its edges with that wall: a wall
    that no such room has on an edge has no entry. *)
Lemma getInnerLengthByWallId_origin m d scale rooms k l :
  JsMap.get (getInnerLengthByWallId rooms m d scale) k = Some l ->
  exists room i wall,
    In room rooms /\ edgeWall m room i = Some wall /\ wall_id wall = k /\
    roomInnerLength m d scale room i = Some l.
Proof.
  unfold getInnerLengthByWallId. revert k l.
  apply (fold_left_invariant (innerLength_room m d scale)
           (fun acc => forall k l, JsMap.get acc k = Some l ->
              exists room i wall,
                In room rooms /\ edgeWall m room i = Some wall /\ wall_id wall = k /\
                roomInnerLength m d scale room i = Some l));
    [|intros k l [=]].
  intros acc room Hroom Hacc. unfold innerLength_room.
  destruct (getRoomInnerPolygon room m d scale) as [inner|] eqn:Hinner; [|exact Hacc].
  destruct (negb _); [exact Hacc|].
  apply (fold_left_invariant (innerLength_step room m scale inner)); [|exact Hacc].
  intros acc' i _ Hacc' k l Hget.
  apply innerLength_step_origin in Hget as [Hget|(wall & Hwall & Hid & ->)];
    [exact (Hacc' k l Hget)|].
  exists room, i, wall. unfold roomInnerLength. rewrite Hinner. auto.
Qed.

(** ** Zero offsets at regular corners *)

(** The mitre of two consecutive edges with offset 0 is their common point. *)
Lemma joinEdges_zero (pa pb pc : Vec2) (sign : Q) :
  (EPS <= Qabs ((x pb - x pa) * (y pc - y pb) - (y pb - y pa) * (x pc - x pb)))%Q ->
  (x (joinEdges (edgeOf pa pb 0 sign) (edgeOf pb pc 0 sign)) == x pb)%Q /\
  (y (joinEdges (edgeOf pa pb 0 sign) (edgeOf pb pc 0 sign)) == y pb)%Q.
Proof.
  intros Heps. pose proof (Qabs_EPS_nonzero _ Heps) as Hnz.
  unfold joinEdges, lineIntersection, edgeOf.
  cbn [edge_p edge_d x y].
  rewrite Qltb_ge by exact Heps.
  cbn [x y]. rewrite !Qmult_0_r. split; field; exact Hnz.
Qed.

(** With all offsets zero, [offsetPolygon] gives back every point whose
    corner is regular.  This is a statement of exact arithmetic: the code
    computes the point as [prev + (cur - prev) * t], and the doubles return it
    up to rounding. *)
Lemma offsetPolygon_zero_regular (pts : list Vec2) (i : nat) :
  (3 <= length pts)%nat -> (i < length pts)%nat -> regularCorner pts i ->
  exists inner v,
    offsetPolygon pts (repeat 0%Q (length pts)) = Some inner /\
    nth_error inner i = Some v /\
    (x v == x (nth i pts origin))%Q /\ (y v == y (nth i pts origin))%Q.
Proof.
  intros Hlen Hi Hregular. unfold offsetPolygon.
  rewrite repeat_length, Nat.eqb_refl.
  destruct (length pts <? 3)%nat eqn:Hfew; [apply Nat.ltb_lt in Hfew; lia|].
  simpl orb. cbv iota.
  set (sign := if Qle_bool 0 (polygonAreaSigned pts) then 1%Q else (-1)%Q).
  eexists. eexists. split; [reflexivity|]. split.
  - rewrite nth_error_map, (nth_error_nth' _ 0%nat) by (rewrite length_seq; exact Hi).
    rewrite seq_nth by exact Hi. reflexivity.
  - unfold offsetVertex, getEdge.
    rewrite prev_index_next by exact Hi. rewrite !nth_repeat.
    apply joinEdges_zero, Hregular.
Qed.

(** * More properties of the code *)

(** ** Rooms: numbering, area, and the nodes they pass *)

Lemma roomsFrom_ids from faces :
  map room_id (roomsFrom from faces) =
  map (fun i => from + Z.of_nat i + 1) (seq 0 (length faces)).
Proof.
  revert from. induction faces as [|f faces IH]; intros from; [reflexivity|].
  simpl. f_equal; [lia|].
  rewrite IH, <- seq_shift, map_map. apply map_ext. intros i. lia.
Qed.

Lemma roomsFrom_length from faces : length (roomsFrom from faces) = length faces.
Proof.
  revert from. induction faces as [|f faces IH]; intros from; simpl; [reflexivity|].
  rewrite IH. reflexivity.
Qed.

(** X1. The rooms are numbered 1, 2, ... in the order of the result, so their
    ids are pairwise distinct. *)
Theorem room_ids_sequential (nodes : list NodePoint) (walls : list Wall) :
  map room_id (buildRoomsFromWalls nodes walls) =
  map (fun i => Z.of_nat i + 1) (seq 0 (length (buildRoomsFromWalls nodes walls))) /\
  NoDup (map room_id (buildRoomsFromWalls nodes walls)).
Proof.
  rewrite buildRoomsFromWalls_eq, roomsFrom_ids, roomsFrom_length. split.
  - apply map_ext. intros i. lia.
  - assert (Hinj : forall l, NoDup l -> NoDup (map (fun i => (0 + Z.of_nat i + 1)%Z) l)).
    { induction 1 as [|i l Hnotin _ IH]; simpl; constructor; [|exact IH].
      intros Hin. apply in_map_iff in Hin as (j & Hj & Hin).
      assert (j = i) by lia. subst j. contradiction. }
    apply Hinj, seq_NoDup.
Qed.

(** X2. Every room has an unsigned area above one ten-thousandth of a square
    pixel, so [getRoomArea] is positive for a positive scale. *)
Theorem room_area_positive (nodes : list NodePoint) (walls : list Wall) (r : Room)
  (scale : Q) :
  In r (buildRoomsFromWalls nodes walls) -> (0 < scale)%Q ->
  (1 # 10000 < polygonArea (points r))%Q /\ (0 < getRoomArea r scale)%Q.
Proof.
  intros Hr Hscale.
  destruct (room_face nodes walls r Hr) as (f & Hwf & _ & Hpts).
  pose proof (wf_eps _ _ _ Hwf) as Heps.
  rewrite (wf_area _ _ _ Hwf), <- Hpts in Heps.
  change (Qabs (polygonAreaLocal (points r))) with (polygonArea (points r)) in Heps.
  assert (Harea : (1 # 10000 < polygonArea (points r))%Q)
    by (eapply Qlt_trans; [|exact Heps]; reflexivity).
  split; [exact Harea|]. unfold getRoomArea.
  assert (Hsq : (0 < scale * scale)%Q) by (apply Qmult_lt_0_compat; assumption).
  apply Qlt_shift_div_l; [exact Hsq|]. rewrite Qmult_0_l.
  eapply Qlt_trans; [|exact Harea]. reflexivity.
Qed.

Lemma room_area_positive_witness :
  In squareRoom (buildRoomsFromWalls squareNodes squareWalls) /\ (0 < 50)%Q /\
  (0 < getRoomArea squareRoom 50)%Q.
Proof.
  assert (Hin : In squareRoom (buildRoomsFromWalls squareNodes squareWalls))
    by (vm_compute; left; reflexivity).
  assert (Hscale : (0 < 50)%Q) by reflexivity.
  split; [exact Hin|]. split; [exact Hscale|].
  exact (proj2 (room_area_positive squareNodes squareWalls squareRoom 50 Hin Hscale)).
Defined.

(** Where a traced face comes from: a trace along a wall that closed. *)
Lemma trace_direction_origin nodes walls st u v :
  linked walls u v ->
  Forall (closedTrace nodes walls) (snd st) ->
  Forall (closedTrace nodes walls)
         (snd (trace_direction nodes (angleMap nodes walls) st (u, v))).
Proof.
  intros Huv Hst. destruct st as [visited faces]. unfold trace_direction.
  destruct (visited_has visited (u, v)); [exact Hst|].
  destruct (trace_loop _ u v 500 u v [u] []) as [[closed path] traversed] eqn:Hrun.
  destruct closed; [rewrite andb_true_l | exact Hst].
  destruct (4 <=? length path)%nat; [|exact Hst].
  destruct (3 <=? length (cyclePoints nodes (removelast path)))%nat; [|exact Hst].
  destruct (Qltb area_eps _); [|exact Hst].
  simpl snd in *. apply Forall_app. split; [exact Hst|].
  constructor; [|constructor].
  exists u, v, path, traversed. split; [exact Huv|]. split; [exact Hrun | reflexivity].
Qed.

Lemma traceFaces_origin nodes walls :
  Forall (closedTrace nodes walls) (traceFaces nodes walls).
Proof.
  unfold traceFaces.
  apply (fold_left_invariant _
           (fun st => Forall (closedTrace nodes walls) (snd st))); [|constructor].
  intros st w Hw Hst. unfold trace_wall. simpl.
  apply trace_direction_origin;
    [|apply trace_direction_origin; [|exact Hst]].
  - exists w. split; [exact Hw | right; split; reflexivity].
  - exists w. split; [exact Hw | left; split; reflexivity].
Qed.

(** A node from which the trace goes on has two different neighbours. *)
Lemma nextNeighbor_two_neighbours nodes walls nodeId fromId next :
  nextNeighbor (angleMap nodes walls) nodeId fromId = Some next ->
  exists u v, u <> v /\ linked walls nodeId u /\ linked walls nodeId v.
Proof.
  unfold nextNeighbor.
  destruct (JsMap.get _ nodeId) as [l|] eqn:Hget; [|discriminate].
  destruct (length l <? 2)%nat eqn:Hlen; [discriminate|]. intros _.
  apply Nat.ltb_ge in Hlen.
  pose proof (angleMap_NoDup nodes walls nodeId l Hget) as Hnodup.
  unfold angleMap in Hget.
  apply angleMap_of_get in Hget as (node & ns & _ & Hin & ->).
  assert (Hlinked : forall n, In n (sortedNeighbors nodes node ns) ->
                              linked walls nodeId n).
  { intros n Hn. apply sortedNeighbors_incl in Hn.
    eapply adjacency_sound; eassumption. }
  destruct (sortedNeighbors nodes node ns) as [|u [|v rest]]; simpl in Hlen; try lia.
  exists u, v. split; [|split].
  - intros ->. apply NoDup_cons_iff in Hnodup as [Hnotin _].
    apply Hnotin. left; reflexivity.
  - apply Hlinked. left; reflexivity.
  - apply Hlinked. right; left; reflexivity.
Qed.

(** X3. No room passes the free end of a dangling wall: every node of a room's
    cycle is joined by walls to at least two different nodes. *)
Theorem room_nodes_have_two_neighbours (nodes : list NodePoint) (walls : list Wall)
  (r : Room) (id : Z) :
  In r (buildRoomsFromWalls nodes walls) -> In id (nodeIds r) ->
  exists u v, u <> v /\ linked walls id u /\ linked walls id v.
Proof.
  intros Hr Hid.
  destruct (room_traced nodes walls r Hr) as (f & Hf & Hids & _).
  destruct (proj1 (Forall_forall _ _) (traceFaces_origin nodes walls) f Hf)
    as (su & sv & path & traversed & _ & Hrun & Hcycle).
  apply (trace_loop_closed _ (fun _ _ => True)
           (fun n => exists u v, u <> v /\ linked walls n u /\ linked walls n v)
           su sv) with (before := []) in Hrun; [| |exact I|exact I].
  - destruct Hrun as (rest & -> & _ & Hall).
    change (([] ++ [su]) ++ rest ++ [su]) with ((su :: rest) ++ [su]) in Hcycle.
    rewrite removelast_last in Hcycle. rewrite Hids, Hcycle in Hid.
    apply Forall_app in Hall as [Hrest Hsu].
    destruct Hid as [<-|Hid].
    + inversion Hsu; assumption.
    + exact (proj1 (Forall_forall _ _) Hrest id Hid).
  - intros nodeId fromId next Hnext. split; [exact I|].
    eapply nextNeighbor_two_neighbours, Hnext.
Qed.

Lemma room_nodes_have_two_neighbours_witness :
  In squareRoom (buildRoomsFromWalls squareNodes squareWalls) /\
  In 3 (nodeIds squareRoom) /\
  exists u v, u <> v /\ linked squareWalls 3 u /\ linked squareWalls 3 v.
Proof.
  assert (Hin : In squareRoom (buildRoomsFromWalls squareNodes squareWalls))
    by (vm_compute; left; reflexivity).
  assert (Hid : In 3 (nodeIds squareRoom)) by (right; right; left; reflexivity).
  split; [exact Hin|]. split; [exact Hid|].
  exact (room_nodes_have_two_neighbours squareNodes squareWalls squareRoom 3 Hin Hid).
Defined.

(** ** Rooms of an empty plan *)

Lemma angleMap_of_no_nodes adj : angleMap_of [] adj = [].
Proof. induction adj as [|[k ns] adj IH]; [reflexivity | exact IH]. Qed.

Lemma trace_direction_no_angles nodes st dir :
  snd st = [] -> snd (trace_direction nodes [] st dir) = [].
Proof.
  destruct st as [visited faces], dir as [u v]. simpl. intros ->.
  unfold trace_direction. destruct (visited_has visited (u, v)); reflexivity.
Qed.

(** X4. Without nodes, and without walls, there are no rooms. *)
Theorem no_rooms_without_nodes_or_walls (nodes : list NodePoint) (walls : list Wall) :
  buildRoomsFromWalls [] walls = [] /\ buildRoomsFromWalls nodes [] = [].
Proof.
  split; [|reflexivity].
  assert (Hfaces : traceFaces [] walls = []).
  { unfold traceFaces, angleMap. rewrite angleMap_of_no_nodes.
    apply (fold_left_invariant _ (fun st => snd st = [])); [|reflexivity].
    intros st w _ Hst. unfold trace_wall. simpl.
    apply trace_direction_no_angles, trace_direction_no_angles, Hst. }
  unfold buildRoomsFromWalls. rewrite Hfaces. reflexivity.
Qed.

(** ** Hit testing: [pointInPolygon] and [findRoomAtPoint] *)

Lemma find_rev_snoc {A : Type} (p : A -> bool) (l : list A) (v : A) :
  find p (rev (l ++ [v])) = if p v then Some v else find p (rev l).
Proof. rewrite rev_app_distr. reflexivity. Qed.

(** X5. [findRoomAtPoint] returns the last room of the list that contains the
    point, and [null] exactly when no room contains it. *)
Theorem findRoomAtPoint_last (rooms : list Room) (point : Vec2) :
  match findRoomAtPoint rooms point with
  | Some r =>
      exists before after,
        rooms = before ++ r :: after /\
        pointInPolygon point (points r) = true /\
        forall r', In r' after -> pointInPolygon point (points r') = false
  | None => forall r, In r rooms -> pointInPolygon point (points r) = false
  end.
Proof.
  unfold findRoomAtPoint.
  induction rooms as [|r rooms IH] using rev_ind; [intros r []|].
  rewrite find_rev_snoc.
  destruct (pointInPolygon point (points r)) eqn:Hr.
  - exists rooms, []. split; [reflexivity|]. split; [exact Hr | intros r' []].
  - destruct (find _ (rev rooms)) as [hit|].
    + destruct IH as (before & after & -> & Hhit & Hafter).
      exists before, (after ++ [r]). rewrite <- app_assoc. split; [reflexivity|].
      split; [exact Hhit|]. intros r' Hin.
      apply in_app_or in Hin as [Hin|[<-|[]]]; [apply Hafter, Hin | exact Hr].
    + intros r' Hin. apply in_app_or in Hin as [Hin|[<-|[]]]; [apply IH, Hin | exact Hr].
Qed.

Lemma Qltb_false (p q : Q) : Qltb p q = false <-> (q <= p)%Q.
Proof.
  split; [|apply Qltb_ge].
  intros Hf. apply Qnot_lt_le. intros Hlt. apply Qltb_lt in Hlt. congruence.
Qed.

Lemma Qltb_compat (p q q' : Q) : (q == q')%Q -> Qltb p q = Qltb p q'.
Proof.
  intros Heq. destruct (Qltb p q) eqn:E, (Qltb p q') eqn:E'; try reflexivity.
  - apply Qltb_lt in E. apply Qltb_false in E'. lra.
  - apply Qltb_false in E. apply Qltb_lt in E'. lra.
Qed.

Lemma crossesRay_same_side (point pi pj : Vec2) :
  Qltb (y point) (y pi) = Qltb (y point) (y pj) -> crossesRay point pi pj = false.
Proof. intros Hside. unfold crossesRay. rewrite Hside, eqb_reflx. reflexivity. Qed.

(** An edge along x is not crossed: its two ends are on one side, and the
    crossing abscissa is not computed. *)
Lemma crossesRay_level (point pi pj : Vec2) :
  (y pi == y pj)%Q -> crossesRay point pi pj = false.
Proof. intros Hy. apply crossesRay_same_side, Qltb_compat, Hy. Qed.

(** An edge along y is crossed where the point is to its left and between its
    ends: the crossing abscissa is [0 * ... + x pi]. *)
Lemma crossesRay_upright (point pi pj : Vec2) :
  (x pi == x pj)%Q ->
  crossesRay point pi pj
  = xorb (Qltb (y point) (y pi)) (Qltb (y point) (y pj)) && Qltb (x point) (x pi).
Proof.
  intros Hx. unfold crossesRay. f_equal.
  - destruct (Qltb (y point) (y pi)), (Qltb (y point) (y pj)); reflexivity.
  - apply Qltb_compat. rewrite <- Hx. unfold Qdiv. ring.
Qed.

(** Strictly between two numbers a point is below exactly one of them. *)
Lemma Qltb_between (p lo hi : Q) :
  (Qmin lo hi < p)%Q -> (p < Qmax lo hi)%Q -> Qltb p lo = negb (Qltb p hi).
Proof.
  intros Hmin Hmax. destruct (Qlt_le_dec lo hi) as [Hlt|Hle].
  - rewrite Q.min_l in Hmin by lra. rewrite Q.max_r in Hmax by lra.
    rewrite (Qltb_ge p lo) by lra. rewrite (proj2 (Qltb_lt p hi)) by lra. reflexivity.
  - rewrite Q.min_r in Hmin by lra. rewrite Q.max_l in Hmax by lra.
    rewrite (Qltb_ge p hi) by lra. rewrite (proj2 (Qltb_lt p lo)) by lra. reflexivity.
Qed.

Lemma pointInPolygon_from_no_crossing point pts :
  forall pj inside,
    (forall pi pj', In pi pts -> In pj' (pj :: pts) -> crossesRay point pi pj' = false) ->
    pointInPolygon_from point pj pts inside = inside.
Proof.
  induction pts as [|pi pts IH]; intros pj inside Hno; simpl; [reflexivity|].
  rewrite (Hno pi pj) by (simpl; auto).
  apply IH. intros p p' Hp Hp'. apply Hno; [right; exact Hp|].
  right. exact Hp'.
Qed.

Lemma last_In {A : Type} (l : list A) (d : A) : l <> [] -> In (last l d) l.
Proof.
  induction l as [|h [|h' t] IH]; intros Hne; [contradiction | left; reflexivity|].
  right. apply IH. discriminate.
Qed.

(** X6.  A point that is below all the vertices of the polygon, or not below
    any of them, is outside: no edge has its two ends on different sides of
    the point's height.  So is every point when the polygon is empty. *)
Theorem pointInPolygon_outside_rows (point : Vec2) (polygon : list Vec2) :
  (forall p, In p polygon -> (y point < y p)%Q) \/
  (forall p, In p polygon -> (y p <= y point)%Q) ->
  pointInPolygon point polygon = false.
Proof.
  intros Hout. unfold pointInPolygon.
  destruct polygon as [|p0 polygon]; [reflexivity|].
  assert (Hlast : In (last (p0 :: polygon) origin) (p0 :: polygon))
    by (apply last_In; discriminate).
  set (pj := last (p0 :: polygon) origin) in *.
  destruct Hout as [Hbelow|Habove].
  - apply pointInPolygon_from_no_crossing. intros p p' Hp Hp'.
    apply crossesRay_same_side.
    assert (Hp'' : In p' (p0 :: polygon)) by (destruct Hp' as [<-|Hp']; assumption).
    rewrite (proj2 (Qltb_lt _ _) (Hbelow p Hp)), (proj2 (Qltb_lt _ _) (Hbelow p' Hp'')).
    reflexivity.
  - apply pointInPolygon_from_no_crossing. intros p p' Hp Hp'.
    apply crossesRay_same_side.
    assert (Hp'' : In p' (p0 :: polygon)) by (destruct Hp' as [<-|Hp']; assumption).
    rewrite (Qltb_ge _ _ (Habove p Hp)), (Qltb_ge _ _ (Habove p' Hp'')).
    reflexivity.
Qed.

Lemma pointInPolygon_outside_rows_witness :
  (forall p, In p (points squareRoom) -> (y p <= y (pointAt 5 12))%Q) /\
  pointInPolygon (pointAt 5 12) (points squareRoom) = false.
Proof.
  assert (Habove : forall p, In p (points squareRoom) -> (y p <= y (pointAt 5 12))%Q).
  { intros p [<-|[<-|[<-|[<-|[]]]]]; discriminate. }
  split; [exact Habove|].
  apply (pointInPolygon_outside_rows (pointAt 5 12) (points squareRoom)).
  right. exact Habove.
Defined.

(** X7.  A point strictly inside an axis-aligned rectangle is inside,
    whichever corner the list of the four corners starts with and whichever
    way round it goes: the first edge runs along x or along y, and [p0] and
    [p2] are opposite corners. *)
Theorem pointInPolygon_inside_rectangle (point p0 p1 p2 p3 : Vec2) :
  (y p0 == y p1 /\ x p1 == x p2 /\ y p2 == y p3 /\ x p3 == x p0)%Q \/
  (x p0 == x p1 /\ y p1 == y p2 /\ x p2 == x p3 /\ y p3 == y p0)%Q ->
  (Qmin (x p0) (x p2) < x point /\ x point < Qmax (x p0) (x p2))%Q ->
  (Qmin (y p0) (y p2) < y point /\ y point < Qmax (y p0) (y p2))%Q ->
  pointInPolygon point [p0; p1; p2; p3] = true.
Proof.
  intros Hshape [Hx0 Hx2] [Hy0 Hy2].
  pose proof (Qltb_between _ _ _ Hx0 Hx2) as Hx.
  pose proof (Qltb_between _ _ _ Hy0 Hy2) as Hy.
  unfold pointInPolygon. change (last [p0; p1; p2; p3] origin) with p3.
  cbn [pointInPolygon_from].
  destruct Hshape as [(Hy01 & Hx12 & Hy23 & Hx30)|(Hx01 & Hy12 & Hx23 & Hy30)].
  - rewrite (crossesRay_upright point p0 p3) by (symmetry; exact Hx30).
    rewrite (crossesRay_level point p1 p0) by (symmetry; exact Hy01).
    rewrite (crossesRay_upright point p2 p1) by (symmetry; exact Hx12).
    rewrite (crossesRay_level point p3 p2) by (symmetry; exact Hy23).
    rewrite (Qltb_compat (y point) (y p3) (y p2)) by (symmetry; exact Hy23).
    rewrite (Qltb_compat (y point) (y p1) (y p0)) by (symmetry; exact Hy01).
    rewrite Hx, Hy.
    destruct (Qltb (x point) (x p2)), (Qltb (y point) (y p2)); reflexivity.
  - rewrite (crossesRay_level point p0 p3) by (symmetry; exact Hy30).
    rewrite (crossesRay_upright point p1 p0) by (symmetry; exact Hx01).
    rewrite (crossesRay_level point p2 p1) by (symmetry; exact Hy12).
    rewrite (crossesRay_upright point p3 p2) by (symmetry; exact Hx23).
    rewrite (Qltb_compat (y point) (y p1) (y p2)) by exact Hy12.
    rewrite (Qltb_compat (y point) (y p3) (y p0)) by exact Hy30.
    rewrite (Qltb_compat (x point) (x p1) (x p0)) by (symmetry; exact Hx01).
    rewrite (Qltb_compat (x point) (x p3) (x p2)) by (symmetry; exact Hx23).
    rewrite Hx, Hy.
    destruct (Qltb (x point) (x p2)), (Qltb (y point) (y p2)); reflexivity.
Qed.

Lemma pointInPolygon_inside_rectangle_witness :
  pointInPolygon (mkVec2 (1 # 2) (-2)) (points slimLower) = true.
Proof.
  apply (pointInPolygon_inside_rectangle (mkVec2 (1 # 2) (-2))
           (pointAt 1 0) (pointAt 0 0) (pointAt 0 (-4)) (pointAt 1 (-4))).
  - left. repeat split; reflexivity.
  - split; reflexivity.
  - split; reflexivity.
Defined.

(** ** The shoelace area *)

(** X12. Fewer than three points have area 0. *)
Theorem polygonArea_degenerate (pts : list Vec2) :
  (length pts <= 2)%nat ->
  (polygonAreaSigned pts == 0)%Q /\ (polygonArea pts == 0)%Q.
Proof.
  intros Hlen.
  assert (Hzero : (shoelace pts == 0)%Q).
  { destruct pts as [|p [|q [|r pts]]]; simpl in Hlen; try lia; simpl; ring. }
  unfold polygonAreaSigned, polygonArea. rewrite Hzero. split; reflexivity.
Qed.

Lemma polygonArea_degenerate_witness :
  (length (points thinRoom) <= 2)%nat /\ (polygonArea (points thinRoom) == 0)%Q.
Proof.
  assert (Hlen : (length (points thinRoom) <= 2)%nat) by (simpl; lia).
  split; [exact Hlen|].
  exact (proj2 (polygonArea_degenerate (points thinRoom) Hlen)).
Defined.

(** ** The distance of two points *)

Lemma sum_squares_zero (p q : Q) : (p * p + q * q == 0)%Q -> (p == 0)%Q /\ (q == 0)%Q.
Proof.
  intros Hsum.
  assert (Hp : (0 <= p * p)%Q) by nra.
  assert (Hq : (0 <= q * q)%Q) by nra.
  assert (Hp0 : (p * p == 0)%Q) by lra.
  assert (Hq0 : (q * q == 0)%Q) by lra.
  split.
  - destruct (Qmult_integral _ _ Hp0); assumption.
  - destruct (Qmult_integral _ _ Hq0); assumption.
Qed.

Lemma Qsqrt_nonneg (q : Q) : (0 <= Qsqrt q)%Q.
Proof.
  unfold Qsqrt. cbv zeta.
  destruct (_ && _); unfold Qle; simpl; rewrite Z.mul_1_r; apply Z.sqrt_nonneg.
Qed.

Lemma Qsqrt_zero (q : Q) : (0 <= q)%Q -> (Qsqrt q == 0)%Q -> (q == 0)%Q.
Proof.
  intros Hpos Hzero.
  assert (Hnum : (0 <= Qnum (Qred q))%Z).
  { rewrite <- (Qred_correct q) in Hpos. unfold Qle in Hpos. simpl in Hpos.
    rewrite Z.mul_1_r in Hpos. exact Hpos. }
  assert (Hn0 : Qnum (Qred q) = 0%Z).
  { unfold Qsqrt in Hzero. cbv zeta in Hzero.
    destruct (_ && _); unfold Qeq in Hzero; simpl in Hzero;
      rewrite Z.mul_1_r in Hzero.
    - destruct (Z.lt_ge_cases 0 (Qnum (Qred q))) as [Hlt|Hge]; [|lia].
      apply Z.sqrt_pos in Hlt. lia.
    - destruct (Z.lt_ge_cases 0 (Qnum (Qred q))) as [Hlt|Hge]; [|lia].
      assert (Hprod : (0 < Qnum (Qred q) * Z.pos (Qden (Qred q)) * 4 ^ 52)%Z).
      { apply Z.mul_pos_pos; [apply Z.mul_pos_pos; [exact Hlt | reflexivity] | reflexivity]. }
      apply Z.sqrt_pos in Hprod. change (Z.pow_pos 4 52) with (4 ^ 52)%Z in Hzero. lia. }
  rewrite <- (Qred_correct q). unfold Qeq. simpl. rewrite Hn0. reflexivity.
Qed.

(** X14. The distance is symmetric, never negative, and 0 exactly between two
    points with the same coordinates. *)
Theorem distance_metric (p q : Vec2) :
  distance p q = distance q p /\
  (0 <= distance p q)%Q /\
  ((distance p q == 0)%Q <-> (x p == x q)%Q /\ (y p == y q)%Q).
Proof.
  split; [|split].
  - unfold distance, hypot. apply Qsqrt_eq. ring.
  - apply Qsqrt_nonneg.
  - split.
    + intros Hzero. unfold distance, hypot in Hzero.
      apply Qsqrt_zero in Hzero;
        [|generalize (x p - x q)%Q (y p - y q)%Q; intros u v; nra].
      destruct (sum_squares_zero _ _ Hzero) as [Hx Hy]. split; lra.
    + intros [Hx Hy]. rewrite (distance_x p q Hy), Hx.
      setoid_replace (x q - x q)%Q with 0%Q by ring. reflexivity.
Qed.

(** ** The walls of an edge (planMetrics.ts) *)

Lemma edgeKey_sym (u v : Z) : edgeKey u v = edgeKey v u.
Proof. unfold edgeKey. rewrite Z.min_comm, Z.max_comm. reflexivity. Qed.

Lemma edgeKey_connects (w : Wall) (u v : Z) :
  edgeKey (a w) (b w) = edgeKey u v <-> connects w u v.
Proof.
  unfold edgeKey, connects. split.
  - intros [= Hmin Hmax]. lia.
  - intros [[-> ->]|[-> ->]]; [reflexivity|].
    rewrite Z.min_comm, Z.max_comm. reflexivity.
Qed.

Lemma wallsAt_In (walls : list Wall) (u v : Z) (w : Wall) :
  In w (wallsAt walls (edgeKey u v)) <-> In w walls /\ connects w u v.
Proof.
  unfold wallsAt. rewrite filter_In, edge_eqb_eq, edgeKey_connects. reflexivity.
Qed.

Lemma wallsAt_snoc (walls : list Wall) (w : Wall) (k : Z * Z) :
  wallsAt (walls ++ [w]) k
  = wallsAt walls k ++ (if edge_eqb (edgeKey (a w) (b w)) k then [w] else []).
Proof. unfold wallsAt. rewrite filter_app. reflexivity. Qed.

Lemma wallEdge_push_of (m : WallEdgeMap) (walls : list Wall) (w : Wall) :
  edgeMap_of m walls -> edgeMap_of (wallEdge_push m w) (walls ++ [w]).
Proof.
  intros Hof k. unfold wallEdge_push. cbv zeta.
  set (kw := edgeKey (a w) (b w)).
  match goal with
  | |- context [JsMap.set ?m0 kw (_ ++ [w])] => set (m1 := m0)
  end.
  assert (Hget : JsMap.get m1 kw = Some (wallsAt walls kw)).
  { unfold m1, JsMap.has. rewrite (Hof kw).
    destruct (wallsAt walls kw) eqn:Hat; [apply get_set_same|].
    rewrite (Hof kw), Hat. reflexivity. }
  rewrite Hget, wallsAt_snoc. fold kw.
  destruct (edge_eqb kw k) eqn:Heq.
  - apply edge_eqb_eq in Heq. subst k. rewrite get_set_same.
    destruct (wallsAt walls kw); reflexivity.
  - assert (Hne : kw <> k)
      by (intros ->; rewrite (proj2 (edge_eqb_eq k k) eq_refl) in Heq; discriminate).
    rewrite get_set_other by exact Hne. rewrite app_nil_r.
    unfold m1. destruct (JsMap.has m kw); [apply Hof|].
    rewrite get_set_other by exact Hne. apply Hof.
Qed.

Lemma wallEdge_fold_of (walls : list Wall) :
  edgeMap_of (fold_left wallEdge_push walls JsMap.empty) walls.
Proof.
  enough (Hgen : forall m done, edgeMap_of m done ->
                   edgeMap_of (fold_left wallEdge_push walls m) (done ++ walls))
    by (apply (Hgen JsMap.empty []); intros k; reflexivity).
  induction walls as [|w walls IH]; intros m done Hof; simpl.
  - rewrite app_nil_r. exact Hof.
  - replace (done ++ w :: walls) with ((done ++ [w]) ++ walls)
      by (rewrite <- app_assoc; reflexivity).
    apply IH, wallEdge_push_of, Hof.
Qed.

Lemma get_map_values {V W : Type} (f : V -> W) (m : JsMap.t (Z * Z) V) (k : Z * Z) :
  JsMap.get (map (fun entry => (fst entry, f (snd entry))) m) k
  = option_map f (JsMap.get m k).
Proof.
  induction m as [|[k' v] m IH]; simpl; [reflexivity|].
  destruct (edge_eqb k' k); [reflexivity | exact IH].
Qed.

Lemma buildWallEdgeMap_get (walls : list Wall) (k : Z * Z) :
  JsMap.get (buildWallEdgeMap walls) k
  = match wallsAt walls k with
    | [] => None
    | l => Some (sort (fun w1 w2 => wall_id w1 ?= wall_id w2) l)
    end.
Proof.
  unfold buildWallEdgeMap. rewrite get_map_values, (wallEdge_fold_of walls k).
  destruct (wallsAt walls k); reflexivity.
Qed.

Lemma sort_insert_lowestFirst (v : Wall) (l : list Wall) :
  lowestFirst l ->
  lowestFirst (sort_insert (fun w1 w2 => wall_id w1 ?= wall_id w2) v l).
Proof.
  destruct l as [|h l]; intros Hlow; simpl.
  - intros w' [<-|[]]. lia.
  - destruct (Z.compare_spec (wall_id v) (wall_id h)) as [Hcmp|Hcmp|Hcmp].
    + intros w' [<-|Hin]; [lia|].
      apply (Permutation_in _ (sort_insert_perm _ v l)) in Hin.
      destruct Hin as [<-|Hin]; [lia|]. apply Hlow. right; exact Hin.
    + intros w' [<-|Hin]; [lia|].
      specialize (Hlow w' Hin). lia.
    + intros w' [<-|Hin]; [lia|].
      apply (Permutation_in _ (sort_insert_perm _ v l)) in Hin.
      destruct Hin as [<-|Hin]; [lia|]. apply Hlow. right; exact Hin.
Qed.

Lemma sort_lowestFirst (l : list Wall) :
  lowestFirst (sort (fun w1 w2 => wall_id w1 ?= wall_id w2) l).
Proof.
  unfold sort. apply fold_left_invariant; [|exact I].
  intros acc v _ Hacc. apply sort_insert_lowestFirst, Hacc.
Qed.

(** X16. The wall looked up for an edge is a wall of the plan drawn between
    the two nodes, in either direction, and none of the walls between them has
    a lower id; without such a wall nothing is found. The order of the two
    nodes does not matter. *)
Theorem firstWall_lowest_id (walls : list Wall) (u v : Z) :
  firstWall (buildWallEdgeMap walls) u v = firstWall (buildWallEdgeMap walls) v u /\
  match firstWall (buildWallEdgeMap walls) u v with
  | Some w =>
      In w walls /\ connects w u v /\
      forall w', In w' walls -> connects w' u v -> wall_id w <= wall_id w'
  | None => forall w', In w' walls -> ~ connects w' u v
  end.
Proof.
  split; [unfold firstWall; rewrite (edgeKey_sym u v); reflexivity|].
  unfold firstWall. rewrite buildWallEdgeMap_get.
  destruct (wallsAt walls (edgeKey u v)) as [|w0 l0] eqn:Hat.
  - intros w' Hin Hconn.
    assert (Hin' : In w' (wallsAt walls (edgeKey u v)))
      by (apply wallsAt_In; split; assumption).
    rewrite Hat in Hin'. exact Hin'.
  - pose proof (sort_lowestFirst (w0 :: l0)) as Hlow.
    pose proof (sort_perm (fun w1 w2 => wall_id w1 ?= wall_id w2) (w0 :: l0)) as Hperm.
    destruct (sort _ (w0 :: l0)) as [|w l] eqn:Hsort.
    + apply Permutation_nil in Hperm. discriminate.
    + assert (Hw : In w (wallsAt walls (edgeKey u v))).
      { rewrite Hat. apply (Permutation_in _ Hperm). left; reflexivity. }
      apply wallsAt_In in Hw as [Hin Hconn].
      split; [exact Hin | split; [exact Hconn|]].
      intros w' Hin' Hconn'. apply Hlow.
      apply (Permutation_in _ (Permutation_sym Hperm)). rewrite <- Hat.
      apply wallsAt_In. split; assumption.
Qed.

(** ** Rooms of [buildRoomsFromWalls] under the metrics *)

Lemma firstWall_linked (walls : list Wall) (u v : Z) :
  linked walls u v ->
  exists w, firstWall (buildWallEdgeMap walls) u v = Some w /\
            In w walls /\ connects w u v.
Proof.
  intros (w0 & Hin0 & Hconn0). unfold firstWall. rewrite buildWallEdgeMap_get.
  assert (Hat0 : In w0 (wallsAt walls (edgeKey u v)))
    by (apply wallsAt_In; split; assumption).
  destruct (wallsAt walls (edgeKey u v)) as [|w1 l1] eqn:Hat; [destruct Hat0|].
  pose proof (sort_perm (fun w1 w2 => wall_id w1 ?= wall_id w2) (w1 :: l1)) as Hperm.
  destruct (sort _ (w1 :: l1)) as [|w l] eqn:Hsort.
  - apply Permutation_nil in Hperm. discriminate.
  - exists w. split; [reflexivity|]. apply wallsAt_In. rewrite Hat.
    apply (Permutation_in _ Hperm). left; reflexivity.
Qed.

Lemma getRoomOffsets_nth (room : Room) (m : WallEdgeMap) (d scale : Q) (i : nat) :
  (i < length (nodeIds room))%nat ->
  nth i (getRoomOffsets room m d scale) 0%Q
  = ((match firstWall m (nth i (nodeIds room) 0%Z)
                        (nth ((i + 1) mod length (nodeIds room)) (nodeIds room) 0%Z) with
      | Some w => thickness w
      | None => d
      end) * scale / 2)%Q.
Proof.
  intros Hi. unfold getRoomOffsets.
  set (f := fun index : nat => _).
  rewrite (nth_indep _ 0%Q (f 0%nat))
    by (rewrite length_map, length_seq; exact Hi).
  rewrite map_nth, seq_nth by exact Hi. reflexivity.
Qed.

(** X17. The inner polygon of a room of [buildRoomsFromWalls] is always
    computed, whatever the wall map, the default thickness and the scale are:
    it has one vertex for each point of the room, and the inner area is the
    area of that polygon, not that of the outer one. *)
Theorem inferred_room_inner_polygon (nodes : list NodePoint) (walls : list Wall)
  (r : Room) (m : WallEdgeMap) (defaultWallThickness scale : Q) :
  In r (buildRoomsFromWalls nodes walls) ->
  exists inner,
    getRoomInnerPolygon r m defaultWallThickness scale = Some inner /\
    length inner = length (points r) /\
    (3 <= length inner)%nat /\
    getRoomInnerArea r m defaultWallThickness scale
    = (polygonArea inner / (scale * scale))%Q.
Proof.
  intros Hr.
  destruct (room_face nodes walls r Hr) as (f & Hwf & Hids & Hpts).
  assert (Hlen : length (points r) = length (nodeIds r)).
  { rewrite Hids, Hpts, (wf_points _ _ _ Hwf).
    apply cyclePoints_all, (wf_nodes _ _ _ Hwf). }
  assert (Hthree : (3 <= length (points r))%nat)
    by (rewrite Hlen, Hids; exact (wf_length _ _ _ Hwf)).
  unfold getRoomInnerArea, getRoomInnerPolygon, offsetPolygon.
  rewrite getRoomOffsets_length, <- Hlen, Nat.eqb_refl.
  rewrite (proj2 (Nat.ltb_ge _ _) Hthree). cbv zeta. cbn [orb negb].
  rewrite length_map, length_seq, (proj2 (Nat.ltb_ge _ _) Hthree).
  eexists. split; [reflexivity|].
  rewrite length_map, length_seq. auto.
Qed.

Lemma inferred_room_inner_polygon_witness :
  In squareRoom (buildRoomsFromWalls squareNodes squareWalls) /\
  exists inner,
    getRoomInnerPolygon squareRoom (buildWallEdgeMap squareWalls) (1 # 5) 50
    = Some inner /\
    length inner = length (points squareRoom).
Proof.
  assert (Hin : In squareRoom (buildRoomsFromWalls squareNodes squareWalls))
    by (vm_compute; left; reflexivity).
  split; [exact Hin|].
  destruct (inferred_room_inner_polygon squareNodes squareWalls squareRoom
              (buildWallEdgeMap squareWalls) (1 # 5) 50 Hin)
    as (inner & Hinner & Hlen & _).
  exists inner. split; [exact Hinner | exact Hlen].
Defined.

(** X18. Every edge of a room of [buildRoomsFromWalls] has a wall in the map
    built from the same walls: a wall of the input between the two nodes of
    the edge, and the offset of the edge is half the thickness of that wall
    times the scale. The default thickness is not used. *)
Theorem inferred_room_edge_wall (nodes : list NodePoint) (walls : list Wall)
  (r : Room) (defaultWallThickness scale : Q) (i : nat) :
  In r (buildRoomsFromWalls nodes walls) ->
  (i < length (nodeIds r))%nat ->
  exists w,
    edgeWall (buildWallEdgeMap walls) r i = Some w /\
    In w walls /\
    connects w (nth i (nodeIds r) 0)
               (nth ((i + 1) mod length (nodeIds r)) (nodeIds r) 0) /\
    edgeOffset (buildWallEdgeMap walls) defaultWallThickness scale r i
    = (thickness w * scale / 2)%Q.
Proof.
  intros Hr Hi.
  destruct (room_face nodes walls r Hr) as (f & Hwf & Hids & _).
  assert (Hnext : ((i + 1) mod length (nodeIds r) < length (nodeIds r))%nat)
    by (apply Nat.mod_upper_bound; lia).
  pose proof (nth_error_nth' (nodeIds r) 0 Hi) as Hu.
  pose proof (nth_error_nth' (nodeIds r) 0 Hnext) as Hv.
  assert (Hlinked : linked walls (nth i (nodeIds r) 0)
                           (nth ((i + 1) mod length (nodeIds r)) (nodeIds r) 0)).
  { apply (walk_cycle (linked walls) (nodeIds r) i).
    - rewrite Hids. exact (wf_walk _ _ _ Hwf).
    - exact Hu.
    - replace (S i) with (i + 1)%nat by lia. exact Hv. }
  destruct (firstWall_linked walls _ _ Hlinked) as (w & Hfirst & Hin & Hconn).
  exists w. split; [|split; [exact Hin | split; [exact Hconn|]]].
  - unfold edgeWall. rewrite Hu, Hv. exact Hfirst.
  - unfold edgeOffset. rewrite getRoomOffsets_nth by exact Hi.
    rewrite Hfirst. reflexivity.
Qed.

Lemma inferred_room_edge_wall_witness :
  In squareRoom (buildRoomsFromWalls squareNodes squareWalls) /\
  (3 < length (nodeIds squareRoom))%nat /\
  exists w,
    edgeWall (buildWallEdgeMap squareWalls) squareRoom 3 = Some w /\
    In w squareWalls.
Proof.
  assert (Hin : In squareRoom (buildRoomsFromWalls squareNodes squareWalls))
    by (vm_compute; left; reflexivity).
  assert (Hi : (3 < length (nodeIds squareRoom))%nat) by (vm_compute; lia).
  split; [exact Hin | split; [exact Hi|]].
  destruct (inferred_room_edge_wall squareNodes squareWalls squareRoom (1 # 5) 50 3
              Hin Hi) as (w & Hwall & Hw & _).
  exists w. split; [exact Hwall | exact Hw].
Defined.

(** ** The neighbours of a node *)

Lemma neighborsOf_ensure (m : JsMap.t Z (list Z)) (k j : Z) :
  neighborsOf (if JsMap.has m k then m else JsMap.set m k []) j = neighborsOf m j.
Proof.
  unfold JsMap.has. destruct (JsMap.get m k) as [l|] eqn:Hget; [reflexivity|].
  unfold neighborsOf. destruct (Z.eq_dec k j) as [<-|Hne].
  - rewrite get_set_same, Hget. reflexivity.
  - rewrite get_set_other by exact Hne. reflexivity.
Qed.

Lemma neighborsOf_push (m : JsMap.t Z (list Z)) (k v j : Z) :
  JsMap.has m k = true ->
  neighborsOf (adj_push m k v) j
  = neighborsOf m j ++ (if k =? j then [v] else []).
Proof.
  unfold JsMap.has, adj_push, neighborsOf.
  destruct (JsMap.get m k) as [l|] eqn:Hget; [intros _ | discriminate].
  destruct (Z.eqb_spec k j) as [<-|Hne].
  - rewrite get_set_same, Hget. reflexivity.
  - rewrite get_set_other by exact Hne. rewrite app_nil_r. reflexivity.
Qed.

Lemma neighborsOf_add_wall (m : JsMap.t Z (list Z)) (w : Wall) (j : Z) :
  neighborsOf (adj_add_wall m w) j
  = neighborsOf m j ++ (if a w =? j then [b w] else [])
                    ++ (if b w =? j then [a w] else []).
Proof.
  unfold adj_add_wall.
  rewrite neighborsOf_push
    by (rewrite has_push, has_ensure, Z.eqb_refl, orb_true_r; reflexivity).
  rewrite neighborsOf_push
    by (rewrite !has_ensure, Z.eqb_refl, orb_true_r, orb_true_l; reflexivity).
  rewrite !neighborsOf_ensure, app_assoc. reflexivity.
Qed.

Lemma neighborsOf_adjacency (walls : list Wall) (j : Z) :
  neighborsOf (adjacency walls) j = otherEnds walls j.
Proof.
  unfold adjacency.
  enough (Hgen : forall m, neighborsOf (fold_left adj_add_wall walls m) j
                           = neighborsOf m j ++ otherEnds walls j)
    by (rewrite Hgen; reflexivity).
  induction walls as [|w walls IH]; intros m; simpl.
  - rewrite app_nil_r. reflexivity.
  - rewrite IH, neighborsOf_add_wall, <- !app_assoc. reflexivity.
Qed.

Lemma neighborsOf_linked (walls : list Wall) (u v : Z) :
  In v (neighborsOf (adjacency walls) u) <-> linked walls u v.
Proof.
  rewrite neighborsOf_adjacency. unfold otherEnds, linked, connects.
  rewrite in_flat_map. split.
  - intros (w & Hw & Hin). exists w. split; [exact Hw|].
    apply in_app_or in Hin as [Hin|Hin].
    + destruct (Z.eqb_spec (a w) u) as [Ha|_]; [|destruct Hin].
      destruct Hin as [Hb|[]]. left. split; assumption.
    + destruct (Z.eqb_spec (b w) u) as [Hb|_]; [|destruct Hin].
      destruct Hin as [Ha|[]]. right. split; assumption.
  - intros (w & Hw & [[Ha Hb]|[Ha Hb]]); exists w; (split; [exact Hw|]);
      apply in_or_app.
    + left. rewrite (proj2 (Z.eqb_eq _ _) Ha). left; exact Hb.
    + right. rewrite (proj2 (Z.eqb_eq _ _) Hb). left; exact Ha.
Qed.

(** X20. The neighbour list of a node holds the other ends of its walls, in
    the order of the wall list: a node is a neighbour exactly when a wall
    joins the two, in one direction or the other, so that the relation is
    symmetric. *)
Theorem adjacency_neighbours (walls : list Wall) (u v : Z) :
  neighborsOf (adjacency walls) u = otherEnds walls u /\
  (In v (neighborsOf (adjacency walls) u) <-> linked walls u v) /\
  (In v (neighborsOf (adjacency walls) u) <-> In u (neighborsOf (adjacency walls) v)).
Proof.
  split; [apply neighborsOf_adjacency|]. split; [apply neighborsOf_linked|].
  rewrite !neighborsOf_linked. unfold linked, connects.
  split; intros (w & Hw & Hc); exists w; (split; [exact Hw | tauto]).
Qed.

(** ** Connected components *)

Lemma linked_sym (walls : list Wall) (u v : Z) : linked walls u v -> linked walls v u.
Proof. intros (w & Hw & Hc). exists w. unfold connects in *. tauto. Qed.

Lemma connected_trans (walls : list Wall) (u v t : Z) :
  connected walls u v -> connected walls v t -> connected walls u t.
Proof.
  intros Huv Hvt. induction Hvt as [|v s t _ IH Hst]; [exact Huv|].
  apply (connected_step walls u s t); [apply IH; exact Huv | exact Hst].
Qed.

Lemma connected_sym (walls : list Wall) (u v : Z) :
  connected walls u v -> connected walls v u.
Proof.
  induction 1 as [|u v t _ IH Hvt]; [constructor|].
  apply (connected_trans walls t v u); [|exact IH].
  apply (connected_step walls t t v); [constructor | apply linked_sym, Hvt].
Qed.

Lemma get_has {V : Type} (m : JsMap.t Z V) (k : Z) :
  JsMap.has m k = true <-> exists v, JsMap.get m k = Some v.
Proof.
  unfold JsMap.has. destruct (JsMap.get m k) as [v|].
  - split; [eauto | reflexivity].
  - split; [discriminate | intros [v [=]]].
Qed.

Lemma get_has_false {V : Type} (m : JsMap.t Z V) (k : Z) :
  JsMap.has m k = false <-> JsMap.get m k = None.
Proof.
  unfold JsMap.has. destruct (JsMap.get m k); split; congruence.
Qed.

Lemma extends_refl (c : Z) (cbn : JsMap.t Z Z) : extends c cbn cbn.
Proof. split; auto. Qed.

Lemma extends_trans (c : Z) (m1 m2 m3 : JsMap.t Z Z) :
  extends c m1 m2 -> extends c m2 m3 -> extends c m1 m3.
Proof.
  intros [Hk12 Ha12] [Hk23 Ha23]. split.
  - auto.
  - intros k ck Hget. destruct (Ha23 k ck Hget) as [Hget2|Hc]; auto.
Qed.

Lemma extends_set (c : Z) (cbn : JsMap.t Z Z) (k : Z) :
  JsMap.get cbn k = None -> extends c cbn (JsMap.set cbn k c).
Proof.
  intros Hfree. split; intros j cj Hget.
  - rewrite get_set_other; [exact Hget|]. intros ->. congruence.
  - destruct (Z.eq_dec k j) as [<-|Hne].
    + rewrite get_set_same in Hget. right. congruence.
    + rewrite get_set_other in Hget by exact Hne. left; exact Hget.
Qed.

Section Search.
Variable walls : list Wall.
Variables c root : Z.
Variable cbn0 : JsMap.t Z Z.

(** One neighbour of the node taken off the queue. *)
Lemma bfs_visit_inv (current next : Z) (cbn : JsMap.t Z Z) (queue : list Z) :
  In next (neighborsOf (adjacency walls) current) ->
  loop_inv walls c root cbn0 cbn (current :: queue) ->
  let st := bfs_visit c (cbn, queue) next in
  loop_inv walls c root cbn0 (fst st) (current :: snd st) /\
  extends c cbn (fst st) /\
  JsMap.get (fst st) next = Some c.
Proof.
  intros Hnext [Hsettled Hqueued Hext Hrooted]. unfold bfs_visit. cbv zeta.
  assert (Hcurrent : JsMap.get cbn current = Some c)
    by (apply Hqueued; left; reflexivity).
  destruct (JsMap.has cbn next) eqn:Hhas; cbn [fst snd].
  - split; [constructor; assumption|]. split; [apply extends_refl|].
    apply get_has in Hhas as [c' Hc'].
    assert (Hback : In current (neighborsOf (adjacency walls) next))
      by (apply neighborsOf_linked, linked_sym, neighborsOf_linked, Hnext).
    destruct (Hsettled next current c' Hback Hc') as [Hin|Hget].
    + rewrite <- (Hqueued next Hin). reflexivity.
    + congruence.
  - apply get_has_false in Hhas.
    pose proof (extends_set c cbn next Hhas) as Hstep.
    split; [|split; [exact Hstep | apply get_set_same]].
    constructor.
    + intros u v cu Hv Hu. destruct (Z.eq_dec next u) as [<-|Hne].
      * left. right. apply in_or_app. right. left; reflexivity.
      * rewrite get_set_other in Hu by exact Hne.
        destruct (Hsettled u v cu Hv Hu) as [[Hin|Hin]|Hget].
        -- left. left; exact Hin.
        -- left. right. apply in_or_app. left; exact Hin.
        -- right. apply (proj1 Hstep), Hget.
    + intros u [Hu|Hu].
      * subst u. apply (proj1 Hstep), Hcurrent.
      * apply in_app_or in Hu as [Hu|[<-|[]]]; [|apply get_set_same].
        apply (proj1 Hstep), Hqueued. right; exact Hu.
    + apply (extends_trans c cbn0 cbn); assumption.
    + intros u Hu. destruct (Z.eq_dec next u) as [<-|Hne].
      * apply (connected_step walls root current next);
          [apply Hrooted, Hcurrent | apply neighborsOf_linked, Hnext].
      * rewrite get_set_other in Hu by exact Hne. apply Hrooted, Hu.
Qed.

(** All the neighbours of the node taken off the queue. *)
Lemma bfs_visits_inv (current : Z) (neighbors : list Z) :
  (forall v, In v neighbors -> In v (neighborsOf (adjacency walls) current)) ->
  forall cbn queue,
    loop_inv walls c root cbn0 cbn (current :: queue) ->
    let st := fold_left (bfs_visit c) neighbors (cbn, queue) in
    loop_inv walls c root cbn0 (fst st) (current :: snd st) /\
    extends c cbn (fst st) /\
    forall v, In v neighbors -> JsMap.get (fst st) v = Some c.
Proof.
  induction neighbors as [|next neighbors IH]; intros Hsub cbn queue Hinv; cbn [fold_left].
  - split; [exact Hinv|]. split; [apply extends_refl | intros v []].
  - destruct (bfs_visit_inv current next cbn queue) as (Hinv1 & Hext1 & Hnext);
      [apply Hsub; left; reflexivity | exact Hinv |].
    cbv zeta in Hinv1, Hext1, Hnext.
    destruct (bfs_visit c (cbn, queue) next) as [cbn1 queue1]. cbn [fst snd] in *.
    destruct (IH (fun v Hv => Hsub v (or_intror Hv)) cbn1 queue1 Hinv1)
      as (Hinv2 & Hext2 & Hall).
    cbv zeta in Hinv2, Hext2, Hall.
    split; [exact Hinv2|]. split; [apply (extends_trans c cbn cbn1); assumption|].
    intros v [<-|Hv]; [apply (proj1 Hext2), Hnext | apply Hall, Hv].
Qed.

Lemma bfs_loop_inv (fuel : nat) :
  forall cbn queue,
    loop_inv walls c root cbn0 cbn queue ->
    let st := bfs_loop (adjacency walls) c fuel cbn queue in
    loop_inv walls c root cbn0 (fst st) (snd st).
Proof.
  induction fuel as [|fuel IH]; intros cbn queue Hinv; cbn [bfs_loop]; [exact Hinv|].
  destruct queue as [|current queue]; [exact Hinv|].
  destruct (bfs_visits_inv current (neighborsOf (adjacency walls) current)
              (fun v Hv => Hv) cbn queue Hinv) as (Hinv1 & _ & Hall).
  cbv zeta in Hinv1, Hall. apply IH.
  destruct Hinv1 as [Hsettled Hqueued Hext Hrooted]. constructor.
  - intros u v cu Hv Hu. destruct (Hsettled u v cu Hv Hu) as [[<-|Hin]|Hget]; auto.
    right. rewrite (Hqueued current (or_introl eq_refl)) in Hu.
    injection Hu as <-. apply Hall, Hv.
  - intros u Hu. apply Hqueued. right; exact Hu.
  - exact Hext.
  - exact Hrooted.
Qed.
End Search.

Lemma component_step_inv (walls : list Wall) (cbn : JsMap.t Z Z) (componentId : Z)
  (entry : Z * list Z) :
  In entry (adjacency walls) ->
  components_inv walls cbn componentId ->
  let st := component_step (adjacency walls) (cbn, componentId) entry in
  components_inv walls (fst st) (snd st) /\
  (forall k ck, JsMap.get cbn k = Some ck -> JsMap.get (fst st) k = Some ck) /\
  JsMap.has (fst st) (fst entry) = true.
Proof.
  intros Hentry [Hnext Hbounded Hsettled Hgrouped]. unfold component_step. cbv zeta.
  destruct (JsMap.has cbn (fst entry)) eqn:Hhas; cbn [fst snd].
  - split; [constructor; assumption|]. split; [auto | exact Hhas].
  - pose proof (componentByNode_bfs_complete walls cbn componentId entry Hentry Hhas)
      as Hdone.
    apply get_has_false in Hhas.
    pose proof (extends_set componentId cbn (fst entry) Hhas) as Hfirst.
    assert (Hstart : loop_inv walls componentId (fst entry) cbn
                       (JsMap.set cbn (fst entry) componentId) [fst entry]).
    { constructor.
      - intros u v cu Hv Hu. destruct (Z.eq_dec (fst entry) u) as [<-|Hne].
        + left. left; reflexivity.
        + rewrite get_set_other in Hu by exact Hne.
          destruct (Hsettled u v cu Hv Hu) as [[]|Hget].
          right. apply (proj1 Hfirst), Hget.
      - intros u [<-|[]]. apply get_set_same.
      - exact Hfirst.
      - intros u Hu. destruct (Z.eq_dec (fst entry) u) as [<-|Hne]; [constructor|].
        rewrite get_set_other in Hu by exact Hne.
        apply Hbounded in Hu. lia. }
    pose proof (bfs_loop_inv walls componentId (fst entry) cbn
                  (length (adjacency walls)) _ _ Hstart) as Hend.
    cbv zeta in Hend. rewrite Hdone in Hend.
    destruct Hend as [Hsettled' _ [Hkeeps Hadds] Hrooted'].
    split; [|split; [exact Hkeeps|]].
    + constructor.
      * lia.
      * intros u cu Hu. destruct (Hadds u cu Hu) as [Hold| ->]; [|lia].
        apply Hbounded in Hold. lia.
      * exact Hsettled'.
      * intros u v cu Hu Hv.
        destruct (Hadds u cu Hu) as [Hu0|Hc].
        -- destruct (Hadds v cu Hv) as [Hv0|Hc]; [exact (Hgrouped u v cu Hu0 Hv0)|].
           apply Hbounded in Hu0. lia.
        -- subst cu. apply (connected_trans walls u (fst entry) v).
           ++ apply connected_sym, Hrooted', Hu.
           ++ apply Hrooted', Hv.
    + assert (Hstart' : loop_inv walls componentId (fst entry)
                          (JsMap.set cbn (fst entry) componentId)
                          (JsMap.set cbn (fst entry) componentId) [fst entry])
        by (destruct Hstart; constructor; auto using extends_refl).
      pose proof (bfs_loop_inv walls componentId (fst entry) _
                    (length (adjacency walls)) _ _ Hstart') as Hend'.
      cbv zeta in Hend'. apply get_has. exists componentId.
      apply (proj1 (li_extends _ _ _ _ _ _ Hend')), get_set_same.
Qed.

Lemma component_steps_inv (walls : list Wall) (entries : list (Z * list Z)) :
  (forall entry, In entry entries -> In entry (adjacency walls)) ->
  forall cbn componentId,
    components_inv walls cbn componentId ->
    let st := fold_left (component_step (adjacency walls)) entries (cbn, componentId) in
    components_inv walls (fst st) (snd st) /\
    (forall k ck, JsMap.get cbn k = Some ck -> JsMap.get (fst st) k = Some ck) /\
    forall entry, In entry entries -> JsMap.has (fst st) (fst entry) = true.
Proof.
  induction entries as [|entry entries IH]; intros Hsub cbn componentId Hinv;
    cbn [fold_left].
  - split; [exact Hinv|]. split; [auto | intros entry []].
  - destruct (component_step_inv walls cbn componentId entry
                (Hsub entry (or_introl eq_refl)) Hinv) as (Hinv1 & Hkeeps1 & Hhas1).
    cbv zeta in Hinv1, Hkeeps1, Hhas1.
    destruct (component_step (adjacency walls) (cbn, componentId) entry)
      as [cbn1 componentId1].
    cbn [fst snd] in *.
    destruct (IH (fun e He => Hsub e (or_intror He)) cbn1 componentId1 Hinv1)
      as (Hinv2 & Hkeeps2 & Hall).
    cbv zeta in Hinv2, Hkeeps2, Hall.
    split; [exact Hinv2|]. split; [auto|].
    intros e [<-|He]; [|apply Hall, He].
    apply get_has in Hhas1 as [ck Hck]. apply get_has. exists ck. apply Hkeeps2, Hck.
Qed.

Lemma componentByNode_inv (walls : list Wall) :
  exists componentId,
    components_inv walls (componentByNode walls) componentId /\
    forall entry, In entry (adjacency walls) ->
                  JsMap.has (componentByNode walls) (fst entry) = true.
Proof.
  unfold componentByNode.
  destruct (component_steps_inv walls (adjacency walls) (fun e He => He) JsMap.empty 0)
    as (Hinv & _ & Hall).
  - constructor; [lia | intros u cu [=] | intros u v cu _ [=] | intros u v cu [=]].
  - cbv zeta in Hinv, Hall. eexists. split; [exact Hinv | exact Hall].
Qed.

Lemma linked_component (walls : list Wall) (u v : Z) :
  linked walls u v ->
  exists c, 0 <= c /\ JsMap.get (componentByNode walls) u = Some c /\
            JsMap.get (componentByNode walls) v = Some c.
Proof.
  intros Hlinked. apply neighborsOf_linked in Hlinked.
  destruct (componentByNode_inv walls) as (componentId & Hinv & Hall).
  assert (Hkey : exists l, In (u, l) (adjacency walls)).
  { unfold neighborsOf in Hlinked.
    destruct (JsMap.get (adjacency walls) u) as [l|] eqn:Hget; [|destruct Hlinked].
    exists l. apply get_In, Hget. }
  destruct Hkey as (l & Hkey). apply Hall in Hkey. cbn [fst] in Hkey.
  apply get_has in Hkey as [c Hc]. exists c.
  split; [apply (ci_bounded _ _ _ Hinv u c Hc)|]. split; [exact Hc|].
  destruct (ci_settled _ _ _ Hinv u v c Hlinked Hc) as [[]|Hv]. exact Hv.
Qed.

Lemma connected_component (walls : list Wall) (u v c : Z) :
  connected walls u v ->
  JsMap.get (componentByNode walls) u = Some c ->
  JsMap.get (componentByNode walls) v = Some c.
Proof.
  induction 1 as [|u v t _ IH Hvt]; intros Hu; [exact Hu|].
  destruct (linked_component walls v t Hvt) as (c' & _ & Hv & Ht).
  rewrite (IH Hu) in Hv. congruence.
Qed.

(** X21. The two ends of a wall have one component, numbered from 0. *)
Theorem wall_ends_share_component (walls : list Wall) (w : Wall) :
  In w walls ->
  exists c, 0 <= c /\ JsMap.get (componentByNode walls) (a w) = Some c /\
            JsMap.get (componentByNode walls) (b w) = Some c.
Proof.
  intros Hw. apply linked_component. exists w. split; [exact Hw|].
  left. split; reflexivity.
Qed.

Lemma wall_ends_share_component_witness :
  In (wallOf 1 1 2) squareWalls /\
  exists c, JsMap.get (componentByNode squareWalls) 1 = Some c /\
            JsMap.get (componentByNode squareWalls) 2 = Some c.
Proof.
  assert (Hw : In (wallOf 1 1 2) squareWalls) by (left; reflexivity).
  split; [exact Hw|].
  destruct (wall_ends_share_component squareWalls (wallOf 1 1 2) Hw)
    as (c & _ & Ha & Hb).
  exists c. split; [exact Ha | exact Hb].
Defined.

(** X22. Two nodes have the same component exactly when a path of walls joins
    them. *)
Theorem component_iff_connected (walls : list Wall) (u v c : Z) :
  JsMap.get (componentByNode walls) u = Some c ->
  (JsMap.get (componentByNode walls) v = Some c <-> connected walls u v).
Proof.
  intros Hu. split.
  - intros Hv. destruct (componentByNode_inv walls) as (componentId & Hinv & _).
    exact (ci_grouped _ _ _ Hinv u v c Hu Hv).
  - intros Hconn. exact (connected_component walls u v c Hconn Hu).
Qed.

Lemma component_iff_connected_witness :
  JsMap.get (componentByNode squareWalls) 1 = Some 0 /\
  (JsMap.get (componentByNode squareWalls) 3 = Some 0 <-> connected squareWalls 1 3).
Proof.
  assert (Hu : JsMap.get (componentByNode squareWalls) 1 = Some 0) by reflexivity.
  split; [exact Hu|].
  exact (component_iff_connected squareWalls 1 3 0 Hu).
Defined.

Lemma walk_connected (walls : list Wall) (l : list Z) (u v : Z) :
  walk (linked walls) (u :: l) -> In v (u :: l) -> connected walls u v.
Proof.
  revert u. induction l as [|t l IH]; intros u Hwalk [<-|Hv]; try constructor.
  - destruct Hv.
  - destruct Hwalk as [Hut Hwalk].
    apply (connected_trans walls u t v); [|apply IH; assumption].
    apply (connected_step walls u u t); [constructor | exact Hut].
Qed.

(** X23. All the nodes of a room have one component, numbered from 0: the
    component under which the face of the room is grouped does not depend on
    the node the cycle starts with. *)
Theorem room_single_component (nodes : list NodePoint) (walls : list Wall) (r : Room) :
  In r (buildRoomsFromWalls nodes walls) ->
  exists c, 0 <= c /\
            forall id, In id (nodeIds r) ->
                       JsMap.get (componentByNode walls) id = Some c.
Proof.
  intros Hr.
  destruct (room_face nodes walls r Hr) as (f & Hwf & Hids & _).
  pose proof (wf_length _ _ _ Hwf) as Hlen. pose proof (wf_walk _ _ _ Hwf) as Hwalk.
  rewrite <- Hids in Hlen, Hwalk.
  destruct (nodeIds r) as [|u [|v l]]; [simpl in Hlen; lia | simpl in Hlen; lia|].
  destruct (linked_component walls u v (proj1 Hwalk)) as (c & Hc & Hu & _).
  exists c. split; [exact Hc|]. intros id Hid.
  apply (connected_component walls u id c); [|exact Hu].
  apply (walk_connected walls (v :: l ++ [u]) u id); [exact Hwalk|].
  destruct Hid as [<-|Hid]; [left; reflexivity|].
  right. change (v :: l ++ [u]) with ((v :: l) ++ [u]). apply in_or_app. left; exact Hid.
Qed.

Lemma room_single_component_witness :
  In squareRoom (buildRoomsFromWalls squareNodes squareWalls) /\
  exists c, forall id, In id (nodeIds squareRoom) ->
                       JsMap.get (componentByNode squareWalls) id = Some c.
Proof.
  assert (Hin : In squareRoom (buildRoomsFromWalls squareNodes squareWalls))
    by (vm_compute; left; reflexivity).
  split; [exact Hin|].
  destruct (room_single_component squareNodes squareWalls squareRoom Hin)
    as (c & _ & Hall).
  exists c. exact Hall.
Defined.

(** ** The key of a room *)

Lemma rotate_app (l1 l2 : list Z) : rotate (l1 ++ l2) (length l1) = l2 ++ l1.
Proof.
  unfold rotate. rewrite skipn_app, firstn_app, Nat.sub_diag, skipn_all, firstn_all.
  cbn [skipn firstn]. rewrite app_nil_r. reflexivity.
Qed.

Lemma indexOf_first (l1 l2 : list Z) (m : Z) :
  ~ In m l1 -> indexOf (l1 ++ m :: l2) m = Some (length l1).
Proof.
  induction l1 as [|h l1 IH]; intros Hnot; cbn [app indexOf length].
  - rewrite Z.eqb_refl. reflexivity.
  - destruct (Z.eqb_spec h m) as [->|_]; [exfalso; apply Hnot; left; reflexivity|].
    rewrite IH by (intros Hin; apply Hnot; right; exact Hin). reflexivity.
Qed.

Lemma fold_min_spec (t : list Z) (h : Z) :
  (fold_left Z.min t h = h \/ In (fold_left Z.min t h) t) /\
  fold_left Z.min t h <= h /\
  forall v, In v t -> fold_left Z.min t h <= v.
Proof.
  revert h. induction t as [|v t IH]; intros h; cbn [fold_left].
  - split; [left; reflexivity|]. split; [lia | intros v []].
  - destruct (IH (Z.min h v)) as (Hin & Hle & Hall). split; [|split].
    + destruct Hin as [Heq|Hin]; [|right; right; exact Hin].
      rewrite Heq. destruct (Z.min_spec h v) as [[_ ->]|[_ ->]];
        [left; reflexivity | right; left; reflexivity].
    + lia.
    + intros v' [<-|Hv']; [lia | apply Hall, Hv'].
Qed.

Lemma minOf_least (cycle : list Z) :
  cycle <> [] ->
  In (minOf cycle) cycle /\ forall v, In v cycle -> minOf cycle <= v.
Proof.
  destruct cycle as [|h t]; [contradiction|]. intros _. unfold minOf.
  destruct (fold_min_spec t h) as (Hin & Hle & Hall). split.
  - destruct Hin as [->|Hin]; [left; reflexivity | right; exact Hin].
  - intros v [<-|Hv]; [exact Hle | apply Hall, Hv].
Qed.

Lemma minOf_unique (cycle : list Z) (m : Z) :
  In m cycle -> (forall v, In v cycle -> m <= v) -> minOf cycle = m.
Proof.
  intros Hin Hleast.
  assert (Hne : cycle <> []) by (intros ->; destruct Hin).
  destruct (minOf_least cycle Hne) as [Hmin Hall].
  pose proof (Hall m Hin). pose proof (Hleast _ Hmin). lia.
Qed.

Lemma getRoomKey_nonempty (cycle : list Z) :
  cycle <> [] ->
  getRoomKey cycle
  = match indexOf cycle (minOf cycle) with
    | None => EmptyString
    | Some idx =>
        if string_ltb (joinIds (rotate cycle idx))
                      (joinIds (rotate (rev cycle) (length cycle - 1 - idx)))
        then joinIds (rotate cycle idx)
        else joinIds (rotate (rev cycle) (length cycle - 1 - idx))
    end.
Proof. destruct cycle; [contradiction | reflexivity]. Qed.

Lemma getRoomKey_from_min (l1 l2 : list Z) (m : Z) :
  ~ In m l1 -> (forall v, In v (l1 ++ m :: l2) -> m <= v) ->
  getRoomKey (l1 ++ m :: l2) = cycleKey m (l2 ++ l1).
Proof.
  intros Hnot Hleast.
  assert (Hmin : minOf (l1 ++ m :: l2) = m)
    by (apply minOf_unique; [apply in_elt | exact Hleast]).
  rewrite getRoomKey_nonempty by (destruct l1; discriminate).
  rewrite Hmin, indexOf_first by exact Hnot.
  rewrite rotate_app.
  assert (Hback : rotate (rev (l1 ++ m :: l2)) (length (l1 ++ m :: l2) - 1 - length l1)
                  = m :: rev (l2 ++ l1)).
  { rewrite length_app. cbn [length].
    replace (length l1 + S (length l2) - 1 - length l1)%nat with (length (rev l2))
      by (rewrite length_rev; lia).
    rewrite rev_app_distr. cbn [rev]. rewrite <- app_assoc. cbn [app].
    rewrite rotate_app, rev_app_distr. reflexivity. }
  rewrite Hback. reflexivity.
Qed.

Lemma cycleKey_rev (m : Z) (rest : list Z) : cycleKey m (rev rest) = cycleKey m rest.
Proof.
  unfold cycleKey, string_ltb. cbv zeta. rewrite rev_involutive.
  rewrite (String.compare_antisym (joinIds (m :: rest))).
  destruct (String.compare (joinIds (m :: rev rest)) (joinIds (m :: rest))) eqn:Hcmp;
    cbn [CompOpp]; try reflexivity.
  apply String.compare_eq_iff in Hcmp. symmetry. exact Hcmp.
Qed.

Lemma app_same_length {A : Type} (l1 l2 r1 r2 : list A) :
  length l1 = length l2 -> l1 ++ r1 = l2 ++ r2 -> l1 = l2 /\ r1 = r2.
Proof.
  revert l2. induction l1 as [|h1 l1 IH]; intros [|h2 l2] Hlen Heq;
    try discriminate; [split; [reflexivity | exact Heq]|].
  injection Hlen as Hlen. injection Heq as -> Heq.
  destruct (IH l2 Hlen Heq) as [-> ->]. split; reflexivity.
Qed.

Lemma NoDup_split_least (cycle : list Z) :
  cycle <> [] -> NoDup cycle ->
  exists l1 l2 m,
    cycle = l1 ++ m :: l2 /\ ~ In m l1 /\ ~ In m l2 /\
    forall v, In v cycle -> m <= v.
Proof.
  intros Hne Hnd. destruct (minOf_least cycle Hne) as [Hin Hall].
  destruct (in_split _ _ Hin) as (l1 & l2 & Hsplit).
  exists l1, l2, (minOf cycle). split; [exact Hsplit|].
  rewrite Hsplit in Hnd. apply NoDup_remove_2 in Hnd.
  split; [|split; [|exact Hall]]; intros Hm; apply Hnd, in_or_app; auto.
Qed.

(** X24. The key of a room does not depend on the node its cycle starts with,
    nor on the direction in which the cycle is listed, as long as no node
    occurs twice in it. *)
Theorem getRoomKey_cycle (cycle : list Z) (index : nat) :
  NoDup cycle ->
  getRoomKey (rotate cycle index) = getRoomKey cycle /\
  getRoomKey (rev cycle) = getRoomKey cycle.
Proof.
  intros Hnd. destruct cycle as [|h t] eqn:Hcycle.
  { unfold rotate. rewrite skipn_nil, firstn_nil. split; reflexivity. }
  rewrite <- Hcycle in *.
  assert (Hne : cycle <> []) by (rewrite Hcycle; discriminate).
  destruct (NoDup_split_least cycle Hne Hnd) as (l1 & l2 & m & Hsplit & Hl1 & Hl2 & Hleast).
  assert (Hkey : getRoomKey cycle = cycleKey m (l2 ++ l1))
    by (rewrite Hsplit; apply getRoomKey_from_min; [exact Hl1 | rewrite <- Hsplit; exact Hleast]).
  split.
  - rewrite Hkey. unfold rotate.
    assert (Hparts : firstn index cycle ++ skipn index cycle = l1 ++ m :: l2)
      by (rewrite firstn_skipn; exact Hsplit).
    assert (Hleast' : forall l, (forall v, In v l -> In v cycle) ->
                                forall v, In v l -> m <= v) by auto.
    assert (Hsub : forall v, In v (skipn index cycle ++ firstn index cycle) -> In v cycle).
    { intros v Hv. rewrite <- (firstn_skipn index cycle).
      apply in_or_app. apply in_app_or in Hv. tauto. }
    set (p := firstn index cycle) in *. set (q := skipn index cycle) in *.
    assert (Hm : In m (p ++ q)) by (rewrite Hparts; apply in_elt).
    assert (Hnd' : NoDup (p ++ q)) by (unfold p, q; rewrite firstn_skipn; exact Hnd).
    apply in_app_or in Hm as [Hm|Hm].
    + destruct (in_split _ _ Hm) as (p1 & p2 & Hp). rewrite Hp in *.
      rewrite <- app_assoc in Hparts, Hnd'. cbn [app] in Hparts, Hnd'.
      pose proof (NoDup_remove_2 _ _ _ Hnd') as Hfresh.
      assert (Hsame : p1 = l1 /\ p2 ++ q = l2).
      { apply (f_equal (fun l => indexOf l m)) in Hparts as Hidx.
        rewrite !indexOf_first in Hidx
          by (try exact Hl1; intros Hin; apply Hfresh, in_or_app; left; exact Hin).
        injection Hidx as Hlen.
        apply app_same_length in Hparts as [Hp1 Hrest]; [|exact Hlen].
        injection Hrest as Hrest. split; assumption. }
      destruct Hsame as [<- <-].
      replace (q ++ p1 ++ m :: p2) with ((q ++ p1) ++ m :: p2)
        by (rewrite <- app_assoc; reflexivity).
      rewrite getRoomKey_from_min.
      * rewrite <- !app_assoc. reflexivity.
      * intros Hin. apply Hfresh. apply in_app_or in Hin as [Hin|Hin];
          apply in_or_app; [right; apply in_or_app; right|left]; exact Hin.
      * intros v Hv. apply Hleast, Hsub. rewrite <- app_assoc in Hv. exact Hv.
    + destruct (in_split _ _ Hm) as (q1 & q2 & Hq). rewrite Hq in *.
      replace (p ++ q1 ++ m :: q2) with ((p ++ q1) ++ m :: q2) in Hparts, Hnd'
        by (rewrite <- app_assoc; reflexivity).
      pose proof (NoDup_remove_2 _ _ _ Hnd') as Hfresh.
      assert (Hsame : p ++ q1 = l1 /\ q2 = l2).
      { apply (f_equal (fun l => indexOf l m)) in Hparts as Hidx.
        rewrite !indexOf_first in Hidx
          by (try exact Hl1; intros Hin; apply Hfresh, in_or_app; left; exact Hin).
        injection Hidx as Hlen.
        apply app_same_length in Hparts as [Hp1 Hrest]; [|exact Hlen].
        injection Hrest as Hrest. split; assumption. }
      destruct Hsame as [<- <-].
      rewrite <- app_assoc. cbn [app].
      rewrite getRoomKey_from_min.
      * rewrite <- !app_assoc. reflexivity.
      * intros Hin. apply Hfresh, in_or_app. left. apply in_or_app. right; exact Hin.
      * intros v Hv. apply Hleast, Hsub. rewrite <- app_assoc. exact Hv.
  - rewrite Hkey, Hsplit, rev_app_distr. cbn [rev]. rewrite <- app_assoc. cbn [app].
    rewrite getRoomKey_from_min.
    + rewrite <- rev_app_distr. apply cycleKey_rev.
    + rewrite <- in_rev. exact Hl2.
    + intros v Hv. apply Hleast. rewrite Hsplit.
      apply in_app_or in Hv as [Hv|[<-|Hv]].
      * apply in_or_app. right. right. apply in_rev. exact Hv.
      * apply in_elt.
      * apply in_or_app. left. apply in_rev. exact Hv.
Qed.

Lemma getRoomKey_cycle_witness :
  NoDup [3; 1; 4; 2] /\
  getRoomKey (rotate [3; 1; 4; 2] 3) = getRoomKey [3; 1; 4; 2] /\
  getRoomKey (rev [3; 1; 4; 2]) = getRoomKey [3; 1; 4; 2].
Proof.
  assert (Hnd : NoDup [3; 1; 4; 2]).
  { repeat constructor; simpl; intros H;
      repeat (destruct H as [H|H]; [discriminate|]); exact H. }
  split; [exact Hnd|].
  exact (getRoomKey_cycle [3; 1; 4; 2] 3 Hnd).
Defined.

(** ** The inner length of a wall is the least one *)

(** X26. When the inner polygon of every room is computed and all its edges
    have a positive length, the inner length stored for a wall is the inner
    length of an edge of some room with that wall, and no edge with that wall
    has a shorter one. *)
Theorem inner_length_is_minimum (m : WallEdgeMap) (defaultWallThickness scale : Q)
  (rooms : list Room) (k : Z) (l : Q) :
  (forall room, In room rooms ->
                positiveInnerEdges m defaultWallThickness scale room) ->
  JsMap.get (getInnerLengthByWallId rooms m defaultWallThickness scale) k = Some l ->
  (exists room i wall,
      In room rooms /\ edgeWall m room i = Some wall /\ wall_id wall = k /\
      roomInnerLength m defaultWallThickness scale room i = Some l) /\
  (forall room i wall len,
      In room rooms -> edgeWall m room i = Some wall -> wall_id wall = k ->
      roomInnerLength m defaultWallThickness scale room i = Some len ->
      (l <= len)%Q).
Proof.
  intros Hgood Hget. split.
  - exact (getInnerLengthByWallId_origin m defaultWallThickness scale rooms k l Hget).
  - intros room i wall len Hroom Hwall Hid Hlen.
    pose proof (edgeWall_index _ _ _ _ Hwall) as Hi.
    destruct (Hgood room Hroom) as (inner & Hinner & Hsame & _).
    assert (Hi' : (i < length (points room))%nat).
    { unfold getRoomInnerPolygon, offsetPolygon in Hinner.
      destruct (_ || _) eqn:Hguard; [discriminate|].
      apply orb_false_elim in Hguard as [_ Hlen'].
      apply negb_false_iff, Nat.eqb_eq in Hlen'.
      rewrite getRoomOffsets_length in Hlen'. rewrite <- Hlen'. exact Hi. }
    destruct (getInnerLengthByWallId_below m defaultWallThickness scale rooms Hgood
                room i wall Hroom Hi' Hwall) as (l' & len' & Hlen' & Hget' & _ & Hle).
    rewrite Hid, Hget in Hget'. injection Hget' as <-.
    rewrite Hlen in Hlen'. injection Hlen' as <-. exact Hle.
Qed.

Lemma inner_length_is_minimum_witness :
  JsMap.get (getInnerLengthByWallId [squareRoom] (buildWallEdgeMap squareWalls)
                                    (1 # 5) 1) 1 = Some (49 # 5)%Q /\
  exists room i wall,
    In room [squareRoom] /\
    edgeWall (buildWallEdgeMap squareWalls) room i = Some wall /\ wall_id wall = 1 /\
    roomInnerLength (buildWallEdgeMap squareWalls) (1 # 5) 1 room i = Some (49 # 5)%Q.
Proof.
  assert (Hget : JsMap.get (getInnerLengthByWallId [squareRoom]
                              (buildWallEdgeMap squareWalls) (1 # 5) 1) 1
                 = Some (49 # 5)%Q) by (vm_compute; reflexivity).
  split; [exact Hget|].
  apply (inner_length_is_minimum (buildWallEdgeMap squareWalls) (1 # 5) 1
           [squareRoom] 1 (49 # 5)); [|exact Hget].
  intros room [<-|[]].
  apply (rectangle_room_lengths (buildWallEdgeMap squareWalls) (1 # 5) 1 squareRoom).
  - reflexivity.
  - exists 1, 2, 3, 4, (pointAt 0 0), (pointAt 10 0), (pointAt 10 10), (pointAt 0 10).
    split; [reflexivity|]. split; [reflexivity|].
    split; [repeat split; reflexivity | split; reflexivity].
  - vm_compute. repeat split; discriminate.
Defined.

(** ** Import sanitising *)

Lemma positiveOr_pos (value : option Q) (fallback : Q) :
  (0 < fallback)%Q -> (0 < positiveOr value fallback)%Q.
Proof.
  intros Hpos. unfold positiveOr. destruct value as [q|]; [|exact Hpos].
  destruct (Qltb 0 q) eqn:Hq; [apply Qltb_lt, Hq | exact Hpos].
Qed.

Lemma normalizeEach_In {A : Type} (f : JsValue -> Z -> option A) (l : list JsValue) :
  forall from v,
    In v (normalizeEach f from l) ->
    exists raw index, In raw l /\ from < index /\ f raw index = Some v.
Proof.
  induction l as [|raw l IH]; intros from v Hin; cbn [normalizeEach] in Hin.
  - destruct Hin.
  - assert (Hrest : In v (normalizeEach f (from + 1) l) ->
                    exists raw' index, In raw' (raw :: l) /\ from < index /\
                                       f raw' index = Some v).
    { intros Hv. destruct (IH _ _ Hv) as (raw' & index & Hraw & Hlt & Hf).
      exists raw', index. split; [right; exact Hraw | split; [lia | exact Hf]]. }
    destruct (f raw (from + 1)) as [v'|] eqn:Hf; [|exact (Hrest Hin)].
    destruct Hin as [<-|Hin]; [|exact (Hrest Hin)].
    exists raw, (from + 1). split; [left; reflexivity | split; [lia | exact Hf]].
Qed.

Lemma offsets_In (base : Z) (n : nat) (id : Z) :
  In id (map (fun i => base + Z.of_nat i) (seq 0 n)) <-> base <= id < base + Z.of_nat n.
Proof.
  rewrite in_map_iff. split.
  - intros (i & <- & Hi). apply in_seq in Hi. lia.
  - intros Hid. exists (Z.to_nat (id - base)). split; [lia|]. apply in_seq. lia.
Qed.

Lemma offsets_NoDup (base : Z) (n : nat) :
  NoDup (map (fun i => base + Z.of_nat i) (seq 0 n)).
Proof.
  assert (Hinj : forall l, NoDup l -> NoDup (map (fun i => base + Z.of_nat i) l)).
  { induction 1 as [|i l Hnotin _ IH]; simpl; constructor; [|exact IH].
    intros Hin. apply in_map_iff in Hin as (j & Hj & Hin).
    assert (j = i) by lia. subst j. contradiction. }
  apply Hinj, seq_NoDup.
Qed.

Lemma offsets_nth (base : Z) (n i : nat) :
  (i < n)%nat -> nth i (map (fun i => base + Z.of_nat i) (seq 0 n)) 0 = base + Z.of_nat i.
Proof.
  intros Hi. set (f := fun i : nat => base + Z.of_nat i).
  rewrite (nth_indep _ 0 (f 0%nat)) by (rewrite length_map, length_seq; exact Hi).
  rewrite map_nth, seq_nth by exact Hi. reflexivity.
Qed.

Lemma nodesFrom_ids (nextId : Z) (pts : list Vec2) :
  map node_id (nodesFrom nextId pts)
  = map (fun i => nextId + Z.of_nat i) (seq 0 (length pts)).
Proof.
  revert nextId. induction pts as [|p pts IH]; intros nextId; [reflexivity|].
  cbn [nodesFrom map length seq node_id]. f_equal; [lia|].
  rewrite IH, <- seq_shift, map_map. apply map_ext. intros i. lia.
Qed.

Lemma wallsFrom_ids (nextId : Z) (ids : list Z) (t : Q) :
  map wall_id (wallsFrom nextId ids t)
  = map (fun i => nextId + Z.of_nat i) (seq 0 (length ids)).
Proof. unfold wallsFrom. rewrite map_map. reflexivity. Qed.

Lemma wallsFrom_In (nextId base : Z) (n : nat) (t : Q) (w : Wall) :
  (2 <= n)%nat ->
  In w (wallsFrom nextId (map (fun i => base + Z.of_nat i) (seq 0 n)) t) ->
  a w <> b w /\
  base <= a w < base + Z.of_nat n /\ base <= b w < base + Z.of_nat n /\
  thickness w = t.
Proof.
  intros Hn Hin. unfold wallsFrom in Hin.
  rewrite length_map, length_seq in Hin.
  apply in_map_iff in Hin as (i & <- & Hi). apply in_seq in Hi. cbn [a b thickness].
  assert (Hnext : ((i + 1) mod n < n)%nat) by (apply Nat.mod_upper_bound; lia).
  rewrite !offsets_nth by lia.
  assert (Hdiff : ((i + 1) mod n <> i)%nat).
  { destruct (Nat.eq_dec (i + 1) n) as [Hlast|Hnot].
    - rewrite Hlast, Nat.Div0.mod_same. lia.
    - rewrite Nat.mod_small by lia. lia. }
  repeat split; lia.
Qed.

Section Sanitising.
Variable numberOfString : string -> option Q.
Variable numberOfObject : JsValue -> option Q.
Variable trim : string -> string.

Lemma normalizeNode_id (raw : JsValue) (fallbackId : Z) (n : NodePoint) :
  normalizeNode numberOfString numberOfObject raw fallbackId = Some n ->
  1 <= fallbackId -> 1 <= node_id n.
Proof.
  unfold normalizeNode. intros Hn Hid.
  destruct (isRecord raw); [|discriminate].
  destruct (asFiniteNumber _ _ (field raw "x")); [|discriminate].
  destruct (asFiniteNumber _ _ (field raw "y")); [|discriminate].
  injection Hn as <-. cbn [node_id].
  destruct (asFiniteNumber _ _ (field raw "id")); lia.
Qed.

Lemma normalizeWall_sane (raw : JsValue) (fallbackId : Z) (t : Q) (ids : list Z)
  (w : Wall) :
  normalizeWall numberOfString numberOfObject trim raw fallbackId t ids = Some w ->
  1 <= fallbackId -> (0 < t)%Q ->
  1 <= wall_id w /\ a w <> b w /\ In (a w) ids /\ In (b w) ids /\ (0 < thickness w)%Q.
Proof.
  unfold normalizeWall. intros Hw Hid Ht.
  destruct (isRecord raw); [|discriminate].
  destruct (asFiniteNumber _ _ (field raw "a")) as [na|]; [|discriminate].
  destruct (asFiniteNumber _ _ (field raw "b")) as [nb|]; [|discriminate].
  cbv zeta in Hw.
  destruct (_ || _) eqn:Hguard; [discriminate|].
  apply orb_false_elim in Hguard as [Hguard Hb].
  apply orb_false_elim in Hguard as [Hsame Ha].
  apply negb_false_iff, existsb_exists in Ha as (ia & Hia & Hea).
  apply negb_false_iff, existsb_exists in Hb as (ib & Hib & Heb).
  apply Z.eqb_eq in Hea, Heb. apply Z.eqb_neq in Hsame. subst ia ib.
  injection Hw as <-. cbn [wall_id a b thickness].
  split; [destruct (asFiniteNumber _ _ (field raw "id")); lia|].
  split; [exact Hsame|].
  split; [exact Hia|]. split; [exact Hib|]. apply positiveOr_pos, Ht.
Qed.

Lemma normalizeNodesWalls_sane (data : JsValue) (t : Q) (nodes : list NodePoint)
  (walls : list Wall) :
  normalizeNodesWalls numberOfString numberOfObject trim data t = Some (nodes, walls) ->
  (0 < t)%Q ->
  nodes <> [] /\
  (forall n, In n nodes -> 1 <= node_id n) /\
  forall w, In w walls ->
            1 <= wall_id w /\ a w <> b w /\
            In (a w) (map node_id nodes) /\ In (b w) (map node_id nodes) /\
            (0 < thickness w)%Q.
Proof.
  unfold normalizeNodesWalls. intros Hdata Ht.
  destruct (isRecord data); [|discriminate].
  destruct (field data "nodes") as [| | | | |rawNodes|]; try discriminate.
  destruct (field data "walls") as [| | | | |rawWalls|]; try discriminate.
  cbv zeta in Hdata.
  destruct (normalizeEach _ 0 rawNodes) as [|n0 ns] eqn:Hnodes; [discriminate|].
  injection Hdata as <- <-. split; [discriminate|]. split.
  - intros n Hn. rewrite <- Hnodes in Hn.
    apply normalizeEach_In in Hn as (raw & index & _ & Hindex & Hn).
    apply (normalizeNode_id raw index n Hn). lia.
  - intros w Hw.
    apply normalizeEach_In in Hw as (raw & index & _ & Hindex & Hw).
    apply (normalizeWall_sane raw index t _ w Hw); [lia | exact Ht].
Qed.

Lemma addRoom_inv (t : Q) (st : Z * list NodePoint * list Wall) (room : JsValue) :
  let inv := fun st : Z * list NodePoint * list Wall =>
    let '(nextId, nodes, walls) := st in
    1 <= nextId /\
    (forall id, In id (map node_id nodes) -> 1 <= id < nextId) /\
    (forall id, In id (map wall_id walls) -> 1 <= id < nextId) /\
    NoDup (map node_id nodes) /\ NoDup (map wall_id walls) /\
    (forall id, In id (map node_id nodes) -> ~ In id (map wall_id walls)) /\
    length walls = length nodes /\
    forall w, In w walls ->
              a w <> b w /\ In (a w) (map node_id nodes) /\
              In (b w) (map node_id nodes) /\ thickness w = t in
  inv st -> inv (addRoom numberOfString numberOfObject t st room).
Proof.
  cbv zeta. destruct st as [[nextId nodes] walls]. unfold addRoom.
  intros Hinv. destruct (isRecord room); [|exact Hinv].
  destruct (field room "points") as [| | | | |rawPoints|]; try exact Hinv.
  cbv zeta. set (pts := keep (map _ rawPoints)).
  destruct (length pts <? 3)%nat eqn:Hfew; [exact Hinv|].
  apply Nat.ltb_ge in Hfew.
  destruct Hinv as (Hnext & Hnodes & Hwalls & Hnd_n & Hnd_w & Hdisj & Hlen & Hjoin).
  rewrite !map_app, nodesFrom_ids, wallsFrom_ids, length_map, length_seq.
  set (n := length pts) in *.
  split; [lia|]. split; [|split; [|split; [|split; [|split; [|split]]]]].
  - intros id Hid. apply in_app_or in Hid as [Hid|Hid].
    + apply Hnodes in Hid. lia.
    + apply offsets_In in Hid. lia.
  - intros id Hid. apply in_app_or in Hid as [Hid|Hid].
    + apply Hwalls in Hid. lia.
    + apply offsets_In in Hid. lia.
  - apply NoDup_app; [exact Hnd_n | apply offsets_NoDup|].
    intros id Hid Hnew. apply Hnodes in Hid. apply offsets_In in Hnew. lia.
  - apply NoDup_app; [exact Hnd_w | apply offsets_NoDup|].
    intros id Hid Hnew. apply Hwalls in Hid. apply offsets_In in Hnew. lia.
  - intros id Hid Hw. apply in_app_or in Hid as [Hid|Hid];
      apply in_app_or in Hw as [Hw|Hw].
    + exact (Hdisj id Hid Hw).
    + apply Hnodes in Hid. apply offsets_In in Hw. lia.
    + apply Hwalls in Hw. apply offsets_In in Hid. lia.
    + apply offsets_In in Hid. apply offsets_In in Hw. lia.
  - rewrite !length_app. unfold wallsFrom.
    rewrite !length_map, !length_seq.
    assert (Hcount : length (nodesFrom nextId pts) = n).
    { rewrite <- (length_map node_id), nodesFrom_ids, length_map, length_seq.
      reflexivity. }
    rewrite Hcount, Hlen. reflexivity.
  - intros w Hw. apply in_app_or in Hw as [Hw|Hw].
    + destruct (Hjoin w Hw) as (Hab & Ha & Hb & Ht).
      split; [exact Hab|]. split; [|split; [|exact Ht]]; apply in_or_app; left; assumption.
    + apply wallsFrom_In in Hw as (Hab & Ha & Hb & Ht); [|lia].
      split; [exact Hab|].
      split; [|split; [|exact Ht]]; apply in_or_app; right; apply offsets_In; assumption.
Qed.

Lemma buildFromRooms_inv (rooms : JsValue) (t : Q) (nodes : list NodePoint)
  (walls : list Wall) :
  buildFromRooms numberOfString numberOfObject rooms t = Some (nodes, walls) ->
  nodes <> [] /\
  (forall id, In id (map node_id nodes) -> 1 <= id) /\
  (forall id, In id (map wall_id walls) -> 1 <= id) /\
  NoDup (map node_id nodes) /\ NoDup (map wall_id walls) /\
  (forall id, In id (map node_id nodes) -> ~ In id (map wall_id walls)) /\
  length walls = length nodes /\
  forall w, In w walls ->
            a w <> b w /\ In (a w) (map node_id nodes) /\
            In (b w) (map node_id nodes) /\ thickness w = t.
Proof.
  unfold buildFromRooms. destruct rooms as [| | | | |items|]; try discriminate.
  pose proof (fold_left_invariant (addRoom numberOfString numberOfObject t) _ items
                (fun acc room _ => addRoom_inv t acc room) (1, [], [])) as Hinv.
  cbv beta in Hinv.
  match type of Hinv with
  | ?start -> _ => assert (Hstart : start)
  end.
  { cbn [map length].
    split; [lia|]. split; [intros id []|]. split; [intros id []|].
    split; [constructor|]. split; [constructor|]. split; [intros id []|].
    split; [reflexivity | intros w []]. }
  specialize (Hinv Hstart).
  destruct (fold_left _ items (1, [], [])) as [[nextId nodes'] walls'].
  destruct nodes' as [|n0 ns]; [discriminate|]. intros [= <- <-].
  destruct Hinv as (Hnext & Hnodes & Hwalls & Hnd_n & Hnd_w & Hdisj & Hlen & Hjoin).
  split; [discriminate|].
  split; [intros id Hid; apply Hnodes in Hid; lia|].
  split; [intros id Hid; apply Hwalls in Hid; lia|]. auto.
Qed.

End Sanitising.

(** X27. What [normalizeImportData] returns is a plan that the editor can work
    on: scale, grid and wall thickness are positive, there is a node, the ids
    are at least 1, and every wall joins two different nodes of the plan and
    has a positive thickness. This holds whatever [Number] makes of the
    strings and objects in the data. *)
Theorem normalizeImportData_sane (numberOfString : string -> option Q)
  (numberOfObject : JsValue -> option Q) (trim : string -> string)
  (data : JsValue) (d : ExportData) :
  normalizeImportData numberOfString numberOfObject trim data = Some d -> sane d.
Proof.
  unfold normalizeImportData. cbv zeta.
  set (t := positiveOr _ DEFAULT_wallThickness).
  assert (Ht : (0 < t)%Q) by (apply positiveOr_pos; reflexivity).
  set (scale := positiveOr _ DEFAULT_scale).
  assert (Hscale : (0 < scale)%Q) by (apply positiveOr_pos; reflexivity).
  set (grid := positiveOr _ DEFAULT_grid).
  assert (Hgrid : (0 < grid)%Q) by (apply positiveOr_pos; reflexivity).
  clearbody t scale grid.
  destruct (normalizeNodesWalls _ _ _ data t) as [[nodes walls]|] eqn:Hplain.
  - intros [= <-].
    destruct (normalizeNodesWalls_sane _ _ _ data t nodes walls Hplain Ht)
      as (Hne & Hids & Hwalls).
    constructor; assumption.
  - destruct (if isRecord data then _ else None) as [[nodes walls]|] eqn:Hrooms;
      [|intros [=]].
    intros [= <-]. destruct (isRecord data); [|discriminate].
    destruct (buildFromRooms_inv _ _ _ t nodes walls Hrooms)
      as (Hne & Hnodes & Hwalls & _ & _ & _ & _ & Hjoin).
    constructor; cbn [data_scale data_grid data_wallThickness data_nodes data_walls];
      try assumption.
    + intros n Hn. apply Hnodes, in_map, Hn.
    + intros w Hw. destruct (Hjoin w Hw) as (Hab & Ha & Hb & Hthick).
      split; [apply Hwalls, in_map, Hw|]. rewrite Hthick. auto.
Qed.

Lemma normalizeImportData_sane_witness :
  exists d,
    normalizeImportData (fun _ => None) (fun _ => None) (fun s => s) roomsOnly = Some d /\
    sane d.
Proof.
  eexists. split; [vm_compute; reflexivity|].
  apply (normalizeImportData_sane (fun _ => None) (fun _ => None) (fun s => s) roomsOnly).
  vm_compute. reflexivity.
Defined.

(** X28. The plan that [buildFromRooms] makes of room outlines has as many
    walls as nodes, and all the ids it gives out are different: no two nodes,
    no two walls, and no node and wall share one. *)
Theorem buildFromRooms_fresh_ids (numberOfString : string -> option Q)
  (numberOfObject : JsValue -> option Q) (rooms : JsValue) (fallbackThickness : Q)
  (nodes : list NodePoint) (walls : list Wall) :
  buildFromRooms numberOfString numberOfObject rooms fallbackThickness
  = Some (nodes, walls) ->
  length walls = length nodes /\
  NoDup (map node_id nodes) /\ NoDup (map wall_id walls) /\
  forall n w, In n nodes -> In w walls -> node_id n <> wall_id w.
Proof.
  intros Hbuilt.
  destruct (buildFromRooms_inv _ _ _ _ nodes walls Hbuilt)
    as (_ & _ & _ & Hnd_n & Hnd_w & Hdisj & Hlen & _).
  split; [exact Hlen|]. split; [exact Hnd_n|]. split; [exact Hnd_w|].
  intros n w Hn Hw Heq. apply (Hdisj (node_id n)); [apply in_map, Hn|].
  rewrite Heq. apply in_map, Hw.
Qed.

Lemma buildFromRooms_fresh_ids_witness :
  exists nodes walls,
    buildFromRooms (fun _ => None) (fun _ => None)
                   (JArray [JObject [("points"%string, squarePoints)]])
                   (1 # 5) = Some (nodes, walls) /\
    length walls = length nodes /\ NoDup (map node_id nodes).
Proof.
  eexists. eexists. split; [vm_compute; reflexivity|].
  refine (let H := buildFromRooms_fresh_ids (fun _ => None) (fun _ => None)
                     (JArray [JObject [("points"%string, squarePoints)]]) (1 # 5) _ _ _
          in conj (proj1 H) (proj1 (proj2 H))).
  vm_compute. reflexivity.
Defined.
